(** * fx-collector: the partitioned CSV spread recorder and the collector
    service's shutdown sequence

  A shallow embedding of
    - internal/adapters/storage/csv_spread_recorder.go
      (roundPrice, CSVSpreadRecorder and its methods Record, RecordBatch,
      Flush, Close and getWriter),
    - internal/domain/price_data.go (PriceData),
    - internal/ports/spread_recorder.go (the SpreadRecorder interface),
    - internal/services/collector_service.go (CollectorService.Stop),
  together with the parts of Go's standard library these functions call
  (time.Time.Format, strconv, math, bufio, encoding/csv, os), modelled as
  far as the recorded properties need them. *)

From Stdlib Require Import ZArith String Ascii List Lia Bool.
From Stdlib Require Import Floats.SpecFloat.
From stdpp Require Import gmap strings list fin_maps.

Open Scope string_scope.
Open Scope list_scope.
Open Scope Z_scope.

(* ===================================================================== *)
(** * Decimal formatting of integers (time.appendInt, strconv.Itoa)      *)
(* ===================================================================== *)

Module Fmt.

(** The ASCII digit of [d], for [0 <= d < 10]. *)
Definition digit_char (d : Z) : ascii := ascii_of_N (Z.to_N (48 + d)).

(** The [w] low decimal digits of [u], most significant first. *)
Fixpoint fixed_digits (w : nat) (u : Z) : string :=
  match w with
  | O => EmptyString
  | S w' => String (digit_char ((u / 10 ^ Z.of_nat w') mod 10)) (fixed_digits w' u)
  end.

(** The loop [for u2 := u; u2 > 0; u2 /= 10 { n++ }]. *)
Fixpoint count_digits (fuel : nat) (u : Z) : nat :=
  match fuel with
  | O => O
  | S f => if u <=? 0 then O else S (count_digits f (u / 10))
  end.

(** Number of decimal digits of [u >= 0]; [1] for [0].  The fuel is the
    binary length of [u], which bounds the decimal length. *)
Definition ndigits (u : Z) : nat :=
  if u =? 0 then 1%nat else count_digits (S (Z.to_nat (Z.log2 u))) u.

(** [appendInt(b, x, width)]: the text appended to [b]: a minus sign for
    negative [x], then the decimal digits of [|x|] zero-padded to at least
    [width] digits. *)
Definition appendInt (x : Z) (width : nat) : string :=
  let u := Z.abs x in
  (if x <? 0 then "-" else "") +:+ fixed_digits (Nat.max width (ndigits u)) u.

(** [strconv.Itoa]. *)
Definition Itoa (x : Z) : string := appendInt x 1.

End Fmt.

(* ===================================================================== *)
(** * time.Time and the three layouts the recorder formats              *)
(* ===================================================================== *)

Module GoTime.
Import Fmt.

(** A [time.Time], given by the civil fields that [Format] prints (the
    date and clock in the time's own location) and the location's offset
    in seconds east of UTC. *)
Record Time := mkTime {
  t_year : Z; t_month : Z; t_day : Z;
  t_hour : Z; t_minute : Z; t_second : Z;
  t_nsec : Z;
  t_offset : Z
}.

Definition is_leap (y : Z) : bool :=
  (y mod 4 =? 0) && (negb (y mod 100 =? 0) || (y mod 400 =? 0)).

Definition days_in_month (y m : Z) : Z :=
  if m =? 2 then (if is_leap y then 29 else 28)
  else if (m =? 4) || (m =? 6) || (m =? 9) || (m =? 11) then 30
  else 31.

(** The values a [time.Time] can hold: a real calendar date and clock
    reading, an offset of whole minutes within a day. *)
Definition wf_time (t : Time) : bool :=
  (1 <=? t_month t) && (t_month t <=? 12) &&
  (1 <=? t_day t) && (t_day t <=? days_in_month (t_year t) (t_month t)) &&
  (0 <=? t_hour t) && (t_hour t <? 24) &&
  (0 <=? t_minute t) && (t_minute t <? 60) &&
  (0 <=? t_second t) && (t_second t <? 60) &&
  (0 <=? t_nsec t) && (t_nsec t <? 1000000000) &&
  (-86400 <? t_offset t) && (t_offset t <? 86400) &&
  (t_offset t mod 60 =? 0).

(** Layout "20060102". *)
Definition format_date (t : Time) : string :=
  appendInt (t_year t) 4 +:+ appendInt (t_month t) 2 +:+ appendInt (t_day t) 2.

(** Layout "15". *)
Definition format_hour (t : Time) : string := appendInt (t_hour t) 2.

(** Removes the trailing ['0'] characters of [s]. *)
Fixpoint trim_zeros (s : string) : string :=
  match s with
  | EmptyString => EmptyString
  | String c s' =>
      let r := trim_zeros s' in
      if Ascii.eqb c "0" && String.eqb r EmptyString then EmptyString else String c r
  end.

(** [appendNano] for the layout's [.999999999] field: nothing for a whole
    second, otherwise the dot and nine digits with the trailing zeros (and
    a dot left bare) removed. *)
Definition appendNano (nsec : Z) : string :=
  if nsec =? 0 then EmptyString
  else
    let b := trim_zeros ("." +:+ appendInt nsec 9) in
    if String.eqb b "." then EmptyString else b.

(** The layout's [Z07:00] field. *)
Definition format_zone (offset : Z) : string :=
  if offset =? 0 then "Z"
  else
    let zone := Z.quot offset 60 in
    (if zone <? 0 then "-" else "+") +:+
    appendInt (Z.quot (Z.abs zone) 60) 2 +:+ ":" +:+ appendInt (Z.rem (Z.abs zone) 60) 2.

(** [t.Format(time.RFC3339Nano)], layout
    "2006-01-02T15:04:05.999999999Z07:00". *)
Definition format_RFC3339Nano (t : Time) : string :=
  appendInt (t_year t) 4 +:+ "-" +:+ appendInt (t_month t) 2 +:+ "-" +:+
  appendInt (t_day t) 2 +:+ "T" +:+ appendInt (t_hour t) 2 +:+ ":" +:+
  appendInt (t_minute t) 2 +:+ ":" +:+ appendInt (t_second t) 2 +:+
  appendNano (t_nsec t) +:+ format_zone (t_offset t).

(** Days from 1970-01-01 to the civil date, proleptic Gregorian. *)
Definition days_from_civil (y m d : Z) : Z :=
  let y' := if m <=? 2 then y - 1 else y in
  let era := y' / 400 in
  let yoe := y' - era * 400 in
  let mp := if m <=? 2 then m + 9 else m - 3 in
  let doy := (153 * mp + 2) / 5 + d - 1 in
  let doe := yoe * 365 + yoe / 4 - yoe / 100 + doy in
  era * 146097 + doe - 719468.

(** The instant of [t], in nanoseconds since the Unix epoch. *)
Definition unix_nano (t : Time) : Z :=
  (((days_from_civil (t_year t) (t_month t) (t_day t) * 24 + t_hour t) * 60
    + t_minute t) * 60 + t_second t - t_offset t) * 1000000000 + t_nsec t.

(** [t.Before(u)]: chronological order. *)
Definition before (t u : Time) : bool := unix_nano t <? unix_nano u.

End GoTime.

Import Fmt GoTime.


(* ===================================================================== *)
(** * float64 and the numeric library calls of roundPrice and Record     *)
(* ===================================================================== *)

Module F64.

(** IEEE 754 binary64, as the Standard Library specifies it. *)
Definition float64 := spec_float.

Definition mul : float64 -> float64 -> float64 := SFmul 53 1024.
Definition div : float64 -> float64 -> float64 := SFdiv 53 1024.

(** The conversion [float64(n)] of an integer, and the nearest float64 to
    the quotient of two integers (how a decimal literal such as [1.10002]
    is read). *)
Definition of_Z (n : Z) : float64 := binary_normalize 53 1024 n 0 false.
Definition of_ratio (n d : Z) : float64 := div (of_Z n) (of_Z d).

(** [math.Pow(10, float64(n))] for an integer [n > 0]: the float64 nearest
    to [10^n], which is [10^n] itself up to [n = 22]. *)
Definition Pow10 (n : Z) : float64 := of_Z (10 ^ n).

(** [math.Round]: the nearest integer, halves away from zero; zeros,
    infinities and NaN are returned as they are, and a result of zero keeps
    the sign. *)
Definition Round (x : float64) : float64 :=
  match x with
  | S754_finite s m e =>
      if 0 <=? e then x
      else
        let d := 2 ^ (- e) in
        let q := Z.pos m / d in
        let r := Z.pos m mod d in
        let n := if d <=? 2 * r then q + 1 else q in
        if n =? 0 then S754_zero s
        else binary_normalize 53 1024 (if s then - n else n) 0 s
  | _ => x
  end.

(** Nearest integer to [num / den] for [num >= 0] and [den > 0], halves to
    the even neighbour: the rounding of strconv's decimal conversion. *)
Definition round_half_even (num den : Z) : Z :=
  let q := num / den in
  let r := num mod den in
  if 2 * r <? den then q
  else if den <? 2 * r then q + 1
  else if Z.even q then q else q + 1.

(** The digits of ['f'] format with [prec >= 0] fractional digits for the
    magnitude [m * 2^e]. *)
Definition format_fixed (m : positive) (e : Z) (prec : Z) : string :=
  let num := (if 0 <=? e then Z.pos m * 2 ^ e else Z.pos m) * 10 ^ prec in
  let den := if 0 <=? e then 1 else 2 ^ (- e) in
  let n := round_half_even num den in
  Fmt.appendInt (n / 10 ^ prec) 1 +:+
  (if 0 <? prec then "." +:+ Fmt.fixed_digits (Z.to_nat prec) (n mod 10 ^ prec)
   else EmptyString).

(** strconv's shortest formatting, the one a negative precision selects, is
    not modelled: it is an operation the development is parametric in. *)
Class Strconv := { format_shortest : float64 -> string }.

(** [strconv.FormatFloat(x, 'f', prec, 64)]. *)
Definition FormatFloat `{Strconv} (x : float64) (prec : Z) : string :=
  match x with
  | S754_nan => "NaN"
  | S754_infinity s => if s then "-Inf" else "+Inf"
  | _ =>
      if prec <? 0 then format_shortest x
      else
        match x with
        | S754_zero s =>
            (if s then "-" else "") +:+ "0" +:+
            (if 0 <? prec then "." +:+ Fmt.fixed_digits (Z.to_nat prec) 0 else EmptyString)
        | S754_finite s m e => (if s then "-" else "") +:+ format_fixed m e prec
        | _ => EmptyString
        end
  end.

End F64.

Import F64.

(* ===================================================================== *)
(** * internal/domain/price_data.go                                      *)
(* ===================================================================== *)

(** [PriceData]. *)
Record PriceData := mkPriceData {
  Timestamp : Time;
  Uic : Z;
  Ticker : string;
  AssetType : string;
  Bid : float64;
  Ask : float64;
  Spread : float64;
  Decimals : Z
}.

(** Go's [error] values: an error of the os layer for an operation on a
    path, or [fmt.Errorf(msg + ": %w", err)]. *)
Inductive error :=
| ErrSys (op path : string)
| ErrWrap (msg : string) (err : error).

(* ===================================================================== *)
(** * internal/adapters/storage/csv_spread_recorder.go                   *)
(* ===================================================================== *)

Module Storage.

(** [roundPrice]. *)
Definition roundPrice (price : float64) (decimals : Z) : float64 :=
  if decimals <=? 0 then price
  else
    let multiplier := Pow10 decimals in
    div (Round (mul price multiplier)) multiplier.

(** ** The objects behind the recorder's pointers

    A CSV record is kept as its list of fields; quoting is not modelled,
    and a stream (a buffer, a file's content) is the list of the records
    written to it. *)
Definition Row := list string.

Definition loc := positive.

(** [*os.File]. *)
Record OsFile := mkOsFile { f_path : string; f_closed : bool }.

(** [*bufio.Writer]: the writer underneath, the buffered records and the
    sticky error. *)
Record BufWriter := mkBufWriter { b_wr : loc; b_buf : list Row; b_err : option error }.

(** [*csv.Writer].  [csv.NewWriter(w)] calls [bufio.NewWriter(w)], which
    returns [w] itself when [w] is a [*bufio.Writer] of the default size:
    the csv writer of a partition and the entry of [buffers] share one
    [bufio.Writer]. *)
Record CsvWriter := mkCsvWriter { cw_w : loc }.

(** The lines [log.Printf] prints. *)
Inductive LogMsg :=
| LogFlushing (n : nat)
| LogFlushed (key : string)
| LogAllFlushed
| LogWarnFlushWriter (key : string) (err : error)
| LogWarnFlushBuffer (key : string) (err : error)
| LogWarnCloseFile (key : string) (err : error)
| LogClosedOld (key : string)
| LogCreatingDir (dir : string)
| LogOpening (path : string) (fileExists : bool)
| LogHeaderWritten (path : string)
| LogWriterCreated (ticker path : string).

(** What the recorder does to the world, in order: system calls with their
    outcome, and log lines. *)
Inductive Event :=
| EvMkdirAll (dir : string) (ok : bool)
| EvStat (path : string) (found : bool)
| EvOpen (path : string) (ok : bool)
| EvWrite (path : string) (rows : list Row) (ok : bool)
| EvClose (path : string) (ok : bool)
| EvLog (m : LogMsg).

(** The paths on which the operating system refuses an operation. *)
Record Faults := mkFaults {
  fail_mkdir : gset string;
  fail_open : gset string;
  fail_write : gset string;
  fail_close : gset string
}.

(** Everything outside the recorder struct: the heap of file and buffer
    objects, the file system, its faults, the orders in which the coming
    [range] loops over maps will run (Go leaves the order unspecified), and
    the trace of events so far. *)
Record World := mkWorld {
  h_files : gmap loc OsFile;
  h_bufs : gmap loc BufWriter;
  fs_files : gmap string (list Row);
  fs_dirs : gset string;
  faults : Faults;
  sched : list (list string);
  trace : list Event
}.

(** [CSVSpreadRecorder] (the mutex apart: calls are modelled one at a
    time, each holding the lock from entry to return). *)
Record Recorder := mkRecorder {
  baseDir : string;
  writers : gmap string CsvWriter;
  files : gmap string loc;
  buffers : gmap string loc;
  bufferSize : Z
}.

Definition St : Type := Recorder * World.

Definition set_h_files (v : gmap loc OsFile) (w : World) : World :=
  mkWorld v (h_bufs w) (fs_files w) (fs_dirs w) (faults w) (sched w) (trace w).
Definition set_h_bufs (v : gmap loc BufWriter) (w : World) : World :=
  mkWorld (h_files w) v (fs_files w) (fs_dirs w) (faults w) (sched w) (trace w).
Definition set_fs_files (v : gmap string (list Row)) (w : World) : World :=
  mkWorld (h_files w) (h_bufs w) v (fs_dirs w) (faults w) (sched w) (trace w).
Definition set_fs_dirs (v : gset string) (w : World) : World :=
  mkWorld (h_files w) (h_bufs w) (fs_files w) v (faults w) (sched w) (trace w).
Definition set_sched (v : list (list string)) (w : World) : World :=
  mkWorld (h_files w) (h_bufs w) (fs_files w) (fs_dirs w) (faults w) v (trace w).
Definition emit (e : Event) (w : World) : World :=
  mkWorld (h_files w) (h_bufs w) (fs_files w) (fs_dirs w) (faults w) (sched w)
          (trace w ++ [e]).
Definition log (m : LogMsg) (w : World) : World := emit (EvLog m) w.

(** ** Map iteration

    A [range] loop over a map visits every key once, in an order Go does
    not specify.  The loop takes the next order of the schedule and visits
    the keys it names, in its order, then the keys it leaves out: every
    order of the keys arises from some schedule. *)
Definition next_order (w : World) : list string * World :=
  match sched w with
  | [] => ([], w)
  | o :: rest => (o, set_sched rest w)
  end.

Definition range_keys {A} (m : gmap string A) (hint : list string) : list string :=
  let named := remove_dups (filter (fun k => is_Some (m !! k)) hint) in
  named ++ filter (fun k => k ∉ named) (map fst (map_to_list m)).

(** ** os *)

(** [file.Write]: appends to the file's content. *)
Definition file_write (l : loc) (rows : list Row) (w : World) : World * option error :=
  match h_files w !! l with
  | None => (w, Some (ErrSys "write" ""))
  | Some f =>
      if f_closed f then
        (emit (EvWrite (f_path f) rows false) w, Some (ErrSys "write" (f_path f)))
      else if decide (f_path f ∈ fail_write (faults w)) then
        (emit (EvWrite (f_path f) rows false) w, Some (ErrSys "write" (f_path f)))
      else
        (emit (EvWrite (f_path f) rows true)
           (set_fs_files (<[f_path f := default [] (fs_files w !! f_path f) ++ rows]> (fs_files w)) w),
         None)
  end.

(** [file.Close]: the descriptor is released even when the call reports an
    error; closing twice is an error. *)
Definition file_close (l : loc) (w : World) : World * option error :=
  match h_files w !! l with
  | None => (w, Some (ErrSys "close" ""))
  | Some f =>
      if f_closed f then
        (emit (EvClose (f_path f) false) w, Some (ErrSys "close" (f_path f)))
      else
        let w1 := set_h_files (<[l := mkOsFile (f_path f) true]> (h_files w)) w in
        if decide (f_path f ∈ fail_close (faults w)) then
          (emit (EvClose (f_path f) false) w1, Some (ErrSys "close" (f_path f)))
        else (emit (EvClose (f_path f) true) w1, None)
  end.

(** [os.MkdirAll]. *)
Definition MkdirAll (dir : string) (w : World) : World * option error :=
  if decide (dir ∈ fail_mkdir (faults w)) then
    (emit (EvMkdirAll dir false) w, Some (ErrSys "mkdir" dir))
  else (emit (EvMkdirAll dir true) (set_fs_dirs ({[dir]} ∪ fs_dirs w) w), None).

(** [os.Stat], of which the recorder keeps whether it failed: it fails when
    the path does not exist. *)
Definition Stat (path : string) (w : World) : World * bool :=
  let found := bool_decide (is_Some (fs_files w !! path)) in
  (emit (EvStat path found) w, found).

(** [os.OpenFile(path, O_APPEND|O_CREATE|O_WRONLY, 0644)]: creates the file
    empty when it does not exist, and returns a new file object. *)
Definition OpenFile (path : string) (w : World) : World * (loc + error) :=
  if decide (path ∈ fail_open (faults w)) then
    (emit (EvOpen path false) w, inr (ErrSys "open" path))
  else
    let l := fresh (dom (h_files w)) in
    let fs := match fs_files w !! path with
              | Some _ => fs_files w
              | None => <[path := []]> (fs_files w)
              end in
    (emit (EvOpen path true)
       (set_h_files (<[l := mkOsFile path false]> (h_files w)) (set_fs_files fs w)),
     inl l).

(** [filepath.Join] of two elements (without the cleaning of dots and
    doubled separators). *)
Definition path_join (a b : string) : string :=
  if String.eqb a "" then b else a +:+ "/" +:+ b.

(** ** bufio and encoding/csv *)

(** The default size of a [bufio.Writer]. *)
Definition bufio_cap : Z := 4096.

(** Bytes a record takes: its fields, the commas between them and the
    newline. *)
Definition row_size (row : Row) : Z :=
  fold_right (fun f acc => Z.of_nat (String.length f) + 1 + acc) 0 row.

Definition buf_size (rows : list Row) : Z :=
  fold_right (fun r acc => row_size r + acc) 0 rows.

(** [bufio.NewWriter(file)]. *)
Definition bufio_new (file : loc) (w : World) : World * loc :=
  let l := fresh (dom (h_bufs w)) in
  (set_h_bufs (<[l := mkBufWriter file [] None]> (h_bufs w)) w, l).

(** [b.Flush]: returns the sticky error if there is one; otherwise writes
    the buffered records to the file; a failed write leaves them buffered
    and becomes the sticky error. *)
Definition bufio_flush (l : loc) (w : World) : World * option error :=
  match h_bufs w !! l with
  | None => (w, Some (ErrSys "flush" ""))
  | Some b =>
      match b_err b with
      | Some e => (w, Some e)
      | None =>
          match b_buf b with
          | [] => (w, None)
          | rows =>
              let '(w1, res) := file_write (b_wr b) rows w in
              match res with
              | Some e => (set_h_bufs (<[l := mkBufWriter (b_wr b) rows (Some e)]> (h_bufs w1)) w1, Some e)
              | None => (set_h_bufs (<[l := mkBufWriter (b_wr b) [] None]> (h_bufs w1)) w1, None)
              end
          end
      end
  end.

(** A write of one record into a [bufio.Writer]: refused under a sticky
    error; buffered when it fits; otherwise the buffer is flushed first,
    and a record larger than the buffer goes to the file directly. *)
Definition bufio_write (l : loc) (row : Row) (w : World) : World * option error :=
  match h_bufs w !! l with
  | None => (w, Some (ErrSys "write" ""))
  | Some b =>
      match b_err b with
      | Some e => (w, Some e)
      | None =>
          if buf_size (b_buf b) + row_size row <=? bufio_cap then
            (set_h_bufs (<[l := mkBufWriter (b_wr b) (b_buf b ++ [row]) None]> (h_bufs w)) w, None)
          else
            let '(w1, res) := bufio_flush l w in
            match res with
            | Some e => (w1, Some e)
            | None =>
                if row_size row <=? bufio_cap then
                  (set_h_bufs (<[l := mkBufWriter (b_wr b) [row] None]> (h_bufs w1)) w1, None)
                else
                  let '(w2, res2) := file_write (b_wr b) [row] w1 in
                  match res2 with
                  | Some e => (set_h_bufs (<[l := mkBufWriter (b_wr b) [] (Some e)]> (h_bufs w2)) w2, Some e)
                  | None => (w2, None)
                  end
            end
      end
  end.

(** [csv.NewWriter(buffer)], [writer.Write(record)], [writer.Flush()] and
    [writer.Error()]. *)
Definition csv_new (buffer : loc) : CsvWriter := mkCsvWriter buffer.
Definition csv_write (cw : CsvWriter) (record : Row) (w : World) : World * option error :=
  bufio_write (cw_w cw) record w.
Definition csv_flush (cw : CsvWriter) (w : World) : World :=
  fst (bufio_flush (cw_w cw) w).
Definition csv_error (cw : CsvWriter) (w : World) : option error :=
  match h_bufs w !! cw_w cw with
  | Some b => b_err b
  | None => Some (ErrSys "write" "")
  end.

(** ** The recorder *)

(** [NewCSVSpreadRecorder]. *)
Definition NewCSVSpreadRecorder (baseDir : string) : Recorder :=
  mkRecorder baseDir ∅ ∅ ∅ 100.

(** The three [delete] calls of the cleanup, and the three stores that
    register a new partition. *)
Definition evict (oldKey : string) (r : Recorder) : Recorder :=
  mkRecorder (baseDir r) (delete oldKey (writers r)) (delete oldKey (files r))
             (delete oldKey (buffers r)) (bufferSize r).

Definition register (key : string) (file buffer : loc) (writer : CsvWriter)
    (r : Recorder) : Recorder :=
  mkRecorder (baseDir r) (<[key := writer]> (writers r)) (<[key := file]> (files r))
             (<[key := buffer]> (buffers r)) (bufferSize r).

(** [fmt.Sprintf("%s_%s_%s", ticker, dateStr, hourStr)]. *)
Definition partition_key (ticker dateStr hourStr : string) : string :=
  ticker +:+ "_" +:+ dateStr +:+ "_" +:+ hourStr.

(** The key under which [getWriter] files an observation. *)
Definition key_of (ticker : string) (timestamp : Time) : string :=
  partition_key ticker (format_date timestamp) (format_hour timestamp).

(** The test of the cleanup loop:
    [len(oldKey) > len(ticker) && oldKey[:len(ticker)] == ticker && oldKey != key]. *)
Definition is_old_key (ticker key oldKey : string) : bool :=
  (String.length ticker <? String.length oldKey)%nat
  && String.eqb (substring 0 (String.length ticker) oldKey) ticker
  && negb (String.eqb oldKey key).

(** The body of the cleanup loop for a key that passes the test. *)
Definition close_old (oldKey : string) (oldWriter : CsvWriter) (st : St) : St :=
  let '(r, w) := st in
  let w := csv_flush oldWriter w in
  let w := match csv_error oldWriter w with
           | Some err => log (LogWarnFlushWriter oldKey err) w
           | None => w
           end in
  let w := match buffers r !! oldKey with
           | Some buf =>
               let '(w', res) := bufio_flush buf w in
               match res with
               | Some err => log (LogWarnFlushBuffer oldKey err) w'
               | None => w'
               end
           | None => w
           end in
  let w := match files r !! oldKey with
           | Some file =>
               let '(w', res) := file_close file w in
               match res with
               | Some err => log (LogWarnCloseFile oldKey err) w'
               | None => w'
               end
           | None => w
           end in
  (evict oldKey r, log (LogClosedOld oldKey) w).

(** [for oldKey, oldWriter := range r.writers { ... }]: a key deleted
    before the loop reaches it is not visited. *)
Fixpoint cleanup_loop (ticker key : string) (keys : list string) (st : St) : St :=
  match keys with
  | [] => st
  | oldKey :: rest =>
      match writers (fst st) !! oldKey with
      | Some oldWriter =>
          if is_old_key ticker key oldKey
          then cleanup_loop ticker key rest (close_old oldKey oldWriter st)
          else cleanup_loop ticker key rest st
      | None => cleanup_loop ticker key rest st
      end
  end.

Definition header : Row :=
  ["timestamp"; "uic"; "ticker"; "asset_type"; "bid"; "ask"; "spread"].

(** [getWriter]. *)
Definition getWriter (ticker : string) (timestamp : Time) (st : St)
    : St * (CsvWriter + error) :=
  let dateStr := format_date timestamp in
  let hourStr := format_hour timestamp in
  let key := partition_key ticker dateStr hourStr in
  match writers (fst st) !! key with
  | Some writer => (st, inl writer)
  | None =>
      let '(ord, w) := next_order (snd st) in
      let '(r, w) := cleanup_loop ticker key (range_keys (writers (fst st)) ord) (fst st, w) in
      let dirPath := path_join (baseDir r) dateStr in
      let w := log (LogCreatingDir dirPath) w in
      let '(w, res) := MkdirAll dirPath w in
      match res with
      | Some err => ((r, w), inr (ErrWrap ("failed to create directory " +:+ dirPath) err))
      | None =>
          let filename := ticker +:+ "_" +:+ hourStr +:+ ".csv" in
          let filePath := path_join dirPath filename in
          let '(w, fileExists) := Stat filePath w in
          let w := log (LogOpening filePath fileExists) w in
          let '(w, res) := OpenFile filePath w in
          match res with
          | inr err => ((r, w), inr (ErrWrap ("failed to open file " +:+ filePath) err))
          | inl file =>
              let '(w, buffer) := bufio_new file w in
              let writer := csv_new buffer in
              let '(w, hres) := if fileExists then (w, None)
                                else csv_write writer header w in
              match hres with
              | Some err =>
                  let '(w, _) := file_close file w in
                  ((r, w), inr (ErrWrap "failed to write header" err))
              | None =>
                  let w := if fileExists then w else log (LogHeaderWritten filePath) w in
                  ((register key file buffer writer r,
                    log (LogWriterCreated ticker filePath) w), inl writer)
              end
          end
      end
  end.

(** The record [Record] and [RecordBatch] build from an observation. *)
Definition record_of `{Strconv} (data : PriceData) : Row :=
  let bid := roundPrice (Bid data) (Decimals data) in
  let ask := roundPrice (Ask data) (Decimals data) in
  let spread := roundPrice (Spread data) (Decimals data) in
  [ format_RFC3339Nano (Timestamp data);
    Itoa (Uic data);
    Ticker data;
    AssetType data;
    FormatFloat bid (Decimals data);
    FormatFloat ask (Decimals data);
    FormatFloat spread (Decimals data) ].

(** [Record] (a keyword of Rocq, hence the underscore). *)
Definition Record_ `{Strconv} (data : PriceData) (st : St) : St * option error :=
  let '(st1, res) := getWriter (Ticker data) (Timestamp data) st in
  match res with
  | inr err => (st1, Some (ErrWrap "failed to get writer" err))
  | inl writer =>
      let '(w, res) := csv_write writer (record_of data) (snd st1) in
      match res with
      | Some err => ((fst st1, w), Some (ErrWrap "failed to write record" err))
      | None => ((fst st1, w), None)
      end
  end.

(** [RecordBatch]. *)
Fixpoint RecordBatch `{Strconv} (data : list PriceData) (st : St) : St * option error :=
  match data with
  | [] => (st, None)
  | priceData :: rest =>
      let '(st1, res) := getWriter (Ticker priceData) (Timestamp priceData) st in
      match res with
      | inr err =>
          (st1, Some (ErrWrap ("failed to get writer for " +:+ Ticker priceData) err))
      | inl writer =>
          let '(w, res) := csv_write writer (record_of priceData) (snd st1) in
          match res with
          | Some err =>
              ((fst st1, w),
               Some (ErrWrap ("failed to write record for " +:+ Ticker priceData) err))
          | None => RecordBatch rest (fst st1, w)
          end
      end
  end.

(** The loop of [Flush] over [r.writers]. *)
Fixpoint flush_loop (keys : list string) (r : Recorder) (w : World)
    : World * option error :=
  match keys with
  | [] => (w, None)
  | ticker :: rest =>
      match writers r !! ticker with
      | None => flush_loop rest r w
      | Some writer =>
          let w := csv_flush writer w in
          match csv_error writer w with
          | Some err => (w, Some (ErrWrap ("failed to flush writer for " +:+ ticker) err))
          | None =>
              let '(w, res) := match buffers r !! ticker with
                               | Some buf => bufio_flush buf w
                               | None => (w, None)
                               end in
              match res with
              | Some err =>
                  (w, Some (ErrWrap ("failed to flush buffer for " +:+ ticker) err))
              | None => flush_loop rest r (log (LogFlushed ticker) w)
              end
          end
      end
  end.

(** [Flush]. *)
Definition Flush (st : St) : St * option error :=
  let '(r, w) := st in
  let w := log (LogFlushing (size (writers r))) w in
  let '(ord, w) := next_order w in
  let '(w, res) := flush_loop (range_keys (writers r) ord) r w in
  match res with
  | Some err => ((r, w), Some err)
  | None => ((r, log LogAllFlushed w), None)
  end.

(** The three loops of [Close]. *)
Fixpoint close_writers_loop (keys : list string) (r : Recorder) (w : World)
    : World * option error :=
  match keys with
  | [] => (w, None)
  | ticker :: rest =>
      match writers r !! ticker with
      | None => close_writers_loop rest r w
      | Some writer =>
          let w := csv_flush writer w in
          match csv_error writer w with
          | Some err =>
              (w, Some (ErrWrap ("failed to flush writer for " +:+ ticker +:+ " during close") err))
          | None => close_writers_loop rest r w
          end
      end
  end.

Fixpoint close_buffers_loop (keys : list string) (r : Recorder) (w : World)
    : World * option error :=
  match keys with
  | [] => (w, None)
  | ticker :: rest =>
      match buffers r !! ticker with
      | None => close_buffers_loop rest r w
      | Some buf =>
          let '(w, res) := bufio_flush buf w in
          match res with
          | Some err =>
              (w, Some (ErrWrap ("failed to flush buffer for " +:+ ticker +:+ " during close") err))
          | None => close_buffers_loop rest r w
          end
      end
  end.

Fixpoint close_files_loop (keys : list string) (r : Recorder) (w : World)
    : World * option error :=
  match keys with
  | [] => (w, None)
  | ticker :: rest =>
      match files r !! ticker with
      | None => close_files_loop rest r w
      | Some file =>
          let '(w, res) := file_close file w in
          match res with
          | Some err => (w, Some (ErrWrap ("failed to close file for " +:+ ticker) err))
          | None => close_files_loop rest r w
          end
      end
  end.

(** [Close]. *)
Definition Close (st : St) : St * option error :=
  let '(r, w) := st in
  let '(ord, w) := next_order w in
  let '(w, res) := close_writers_loop (range_keys (writers r) ord) r w in
  match res with
  | Some err => ((r, w), Some err)
  | None =>
      let '(ord, w) := next_order w in
      let '(w, res) := close_buffers_loop (range_keys (buffers r) ord) r w in
      match res with
      | Some err => ((r, w), Some err)
      | None =>
          let '(ord, w) := next_order w in
          let '(w, res) := close_files_loop (range_keys (files r) ord) r w in
          match res with
          | Some err => ((r, w), Some err)
          | None => ((mkRecorder (baseDir r) ∅ ∅ ∅ (bufferSize r), w), None)
          end
      end
  end.

End Storage.

Import Storage.

(* ===================================================================== *)
(** * internal/ports/spread_recorder.go and
      internal/services/collector_service.go                              *)
(* ===================================================================== *)

Module Service.

(** [ports.SpreadRecorder]. *)
Class SpreadRecorder (R : Type) := {
  sr_Record : PriceData -> R -> R * option error;
  sr_RecordBatch : list PriceData -> R -> R * option error;
  sr_Flush : R -> R * option error;
  sr_Close : R -> R * option error
}.

(** [*CSVSpreadRecorder] implements the interface. *)
#[export] Instance CSVSpreadRecorder_SpreadRecorder `{Strconv} : SpreadRecorder St := {|
  sr_Record := Record_;
  sr_RecordBatch := RecordBatch;
  sr_Flush := Flush;
  sr_Close := Close
|}.

(** [saxo.WebSocketClient], of which [Stop] calls [Close]. *)
Class WebSocketClient (W : Type) := {
  ws_Close : W -> W * option error
}.

(** [*time.Ticker]. *)
Record FlushTicker := mkFlushTicker { tk_stopped : bool }.

(** The lines [Stop] prints through [cs.logger]. *)
Inductive SvcLog :=
| LogStopping
| LogFinalFlush
| LogFinalFlushError (err : error)
| LogClosingWebSocket
| LogWebSocketCloseError (err : error)
| LogClosingRecorder
| LogRecorderCloseError (err : error)
| LogStopped.

(** What [Stop] does, in order: its calls on the timer, the stop channel,
    the context and the two collaborators, and its log lines. *)
Inductive Step :=
| StopTimer
| CloseStopFlush
| CancelContext
| FinalFlush
| CloseSource
| CloseWriter
| Logged (l : SvcLog).

(** [CollectorService], as far as [Stop] uses it: the ticker ([None] for
    [nil], before [startPeriodicFlush]), whether the [stopFlush] channel
    has been closed, whether [ctx] has been cancelled, the two
    collaborators, and the history of steps taken. *)
Record CollectorService (R W : Type) := mkCollectorService {
  flushTicker : option FlushTicker;
  stopFlush_closed : bool;
  ctx_cancelled : bool;
  spreadRecorder : R;
  wsClient : W;
  history : list Step
}.
Arguments mkCollectorService {R W}.
Arguments flushTicker {R W}.
Arguments stopFlush_closed {R W}.
Arguments ctx_cancelled {R W}.
Arguments spreadRecorder {R W}.
Arguments wsClient {R W}.
Arguments history {R W}.

(** How a call ends: it returns, or it panics. *)
Inductive outcome (A : Type) :=
| Returned (a : A)
| Panicked (reason : string).
Arguments Returned {A}.
Arguments Panicked {A}.

Section Stop.
Context {R W : Type} `{SpreadRecorder R} `{WebSocketClient W}.

Definition did (s : Step) (cs : CollectorService R W) : CollectorService R W :=
  mkCollectorService (flushTicker cs) (stopFlush_closed cs) (ctx_cancelled cs)
                     (spreadRecorder cs) (wsClient cs) (history cs ++ [s]).

Definition println (l : SvcLog) (cs : CollectorService R W) : CollectorService R W :=
  did (Logged l) cs.

(** [cs.flushTicker.Stop()]. *)
Definition ticker_stop (cs : CollectorService R W) : CollectorService R W :=
  did StopTimer
    (mkCollectorService (Some (mkFlushTicker true)) (stopFlush_closed cs)
       (ctx_cancelled cs) (spreadRecorder cs) (wsClient cs) (history cs)).

(** [close(cs.stopFlush)]: closing a closed channel panics. *)
Definition close_stopFlush (cs : CollectorService R W)
    : CollectorService R W * bool :=
  if stopFlush_closed cs then (cs, false)
  else
    (did CloseStopFlush
       (mkCollectorService (flushTicker cs) true (ctx_cancelled cs)
          (spreadRecorder cs) (wsClient cs) (history cs)), true).

(** [cs.cancel()]. *)
Definition cancel (cs : CollectorService R W) : CollectorService R W :=
  did CancelContext
    (mkCollectorService (flushTicker cs) (stopFlush_closed cs) true
       (spreadRecorder cs) (wsClient cs) (history cs)).

Definition recorder_Flush (cs : CollectorService R W)
    : CollectorService R W * option error :=
  let '(r, err) := sr_Flush (spreadRecorder cs) in
  (did FinalFlush
     (mkCollectorService (flushTicker cs) (stopFlush_closed cs) (ctx_cancelled cs)
        r (wsClient cs) (history cs)), err).

Definition wsClient_Close (cs : CollectorService R W)
    : CollectorService R W * option error :=
  let '(c, err) := ws_Close (wsClient cs) in
  (did CloseSource
     (mkCollectorService (flushTicker cs) (stopFlush_closed cs) (ctx_cancelled cs)
        (spreadRecorder cs) c (history cs)), err).

Definition recorder_Close (cs : CollectorService R W)
    : CollectorService R W * option error :=
  let '(r, err) := sr_Close (spreadRecorder cs) in
  (did CloseWriter
     (mkCollectorService (flushTicker cs) (stopFlush_closed cs) (ctx_cancelled cs)
        r (wsClient cs) (history cs)), err).

(** The part of [Stop] after the timer has been dealt with. *)
Definition stop_rest (cs : CollectorService R W)
    : CollectorService R W * outcome (option error) :=
  let cs := cancel cs in
  let cs := println LogFinalFlush cs in
  let '(cs, err) := recorder_Flush cs in
  let cs := match err with
            | Some e => println (LogFinalFlushError e) cs
            | None => cs
            end in
  let cs := println LogClosingWebSocket cs in
  let '(cs, err) := wsClient_Close cs in
  let cs := match err with
            | Some e => println (LogWebSocketCloseError e) cs
            | None => cs
            end in
  let cs := println LogClosingRecorder cs in
  let '(cs, err) := recorder_Close cs in
  let cs := match err with
            | Some e => println (LogRecorderCloseError e) cs
            | None => cs
            end in
  (println LogStopped cs, Returned None).

(** [Stop]. *)
Definition Stop (cs : CollectorService R W)
    : CollectorService R W * outcome (option error) :=
  let cs := println LogStopping cs in
  match flushTicker cs with
  | Some _ =>
      let cs := ticker_stop cs in
      let '(cs, ok) := close_stopFlush cs in
      if ok then stop_rest cs
      else (cs, Panicked "close of closed channel")
  | None => stop_rest cs
  end.

(** The calls among the steps, without the log lines. *)
Definition calls (steps : list Step) : list Step :=
  List.filter (fun s => match s with Logged _ => false | _ => true end) steps.

End Stop.

End Service.

Import Service.

(* ===================================================================== *)
(** * Notions the properties are stated with                              *)
(* ===================================================================== *)

(** Every character of [s] satisfies [P]. *)
Fixpoint all_chars (P : ascii -> bool) (s : string) : Prop :=
  match s with
  | EmptyString => True
  | String c s' => P c = true /\ all_chars P s'
  end.

Definition is_digit (c : ascii) : bool :=
  (48 <=? N_of_ascii c)%N && (N_of_ascii c <=? 57)%N.

Definition is_digit_or_minus (c : ascii) : bool := is_digit c || Ascii.eqb c "-".

Definition not_underscore (c : ascii) : bool := negb (Ascii.eqb c "_").

Definition is_zero (c : ascii) : bool := Ascii.eqb c "0".

Definition is_digit_or_dot (c : ascii) : bool := is_digit c || Ascii.eqb c ".".

(** The number a string of digits denotes, continuing from [acc]. *)
Fixpoint digits_value (s : string) (acc : Z) : Z :=
  match s with
  | EmptyString => acc
  | String c s' => digits_value s' (10 * acc + (Z.of_N (N_of_ascii c) - 48))
  end.

(** A partition is open when one of the three maps holds its key. *)
Definition is_open (key : string) (r : Recorder) : Prop :=
  is_Some (writers r !! key) \/ is_Some (files r !! key) \/ is_Some (buffers r !! key).

(** The file object at [l] has been closed. *)
Definition closed_in (l : loc) (w : World) : Prop :=
  exists f, h_files w !! l = Some f /\ f_closed f = true.

(** From [w] to [w'] every file object is still there, under its path, and
    closed if it was. *)
Definition files_mono (w w' : World) : Prop :=
  forall l f, h_files w !! l = Some f ->
    exists f', h_files w' !! l = Some f' /\ f_path f' = f_path f
               /\ (f_closed f = true -> f_closed f' = true).

(** The records of the stream behind the buffer at [l]: those of its file
    followed by those still buffered. *)
Definition stream_at (l : loc) (w : World) : list Row :=
  match h_bufs w !! l with
  | Some b =>
      match h_files w !! b_wr b with
      | Some f => default [] (fs_files w !! f_path f) ++ b_buf b
      | None => b_buf b
      end
  | None => []
  end.

Definition stream_of (cw : CsvWriter) (w : World) : list Row := stream_at (cw_w cw) w.

(** The state in which [getWriter], past its cleanup loop, creates the
    directory and looks the file up. *)
Definition rotated (ticker : string) (timestamp : Time) (st : St) : St :=
  let '(ord, w) := next_order (snd st) in
  cleanup_loop ticker (key_of ticker timestamp) (range_keys (writers (fst st)) ord)
               (fst st, w).

(** The path of a partition's file. *)
Definition partition_path (baseDir ticker : string) (timestamp : Time) : string :=
  path_join (path_join baseDir (format_date timestamp))
            (ticker +:+ "_" +:+ format_hour timestamp +:+ ".csv").

(** The order in which the coming [Flush] visits the writers. *)
Definition flush_order (st : St) : list string :=
  range_keys (writers (fst st)) (hd [] (sched (snd st))).

(** The environment acts between two calls: the file system, its faults
    and the coming iteration orders change; the objects the recorder holds
    do not. *)
Definition environment (fs : gmap string (list Row)) (dirs : gset string)
    (flt : Faults) (sch : list (list string)) (st : St) : St :=
  (fst st, mkWorld (h_files (snd st)) (h_bufs (snd st)) fs dirs flt sch (trace (snd st))).

(** The states of a recorder in use: a new recorder, then any sequence of
    calls of its methods, the environment acting in between. *)
Inductive reachable `{Strconv} : St -> Prop :=
| reach_new baseDir w : reachable (NewCSVSpreadRecorder baseDir, w)
| reach_Record data st :
    reachable st -> wf_time (Timestamp data) = true ->
    reachable (fst (Record_ data st))
| reach_RecordBatch data st :
    reachable st -> Forall (fun d => wf_time (Timestamp d) = true) data ->
    reachable (fst (RecordBatch data st))
| reach_Flush st : reachable st -> reachable (fst (Flush st))
| reach_Close st : reachable st -> reachable (fst (Close st))
| reach_environment fs dirs flt sch st :
    reachable st -> reachable (environment fs dirs flt sch st).

(** Two times in the same hour of the same calendar date. *)
Definition same_hour (t u : Time) : Prop :=
  t_year t = t_year u /\ t_month t = t_month u /\ t_day t = t_day u
  /\ t_hour t = t_hour u.

(** The three maps hold the same keys. *)
Definition same_keys (r : Recorder) : Prop :=
  forall k, (is_Some (writers r !! k) <-> is_Some (files r !! k))
         /\ (is_Some (writers r !! k) <-> is_Some (buffers r !! k)).

(** Every file the recorder holds is an object of the heap. *)
Definition files_valid (st : St) : Prop :=
  forall k l, files (fst st) !! k = Some l -> is_Some (h_files (snd st) !! l).

(** At most one open partition per series identifier. *)
Definition one_per_series (r : Recorder) : Prop :=
  forall t ts1 ts2, wf_time ts1 = true -> wf_time ts2 = true ->
    is_open (key_of t ts1) r -> is_open (key_of t ts2) r ->
    key_of t ts1 = key_of t ts2.

(** The invariant of the recorder. *)
Definition inv (st : St) : Prop :=
  same_keys (fst st) /\ files_valid st /\ one_per_series (fst st).

(** The buffer of a writer is empty and carries no error: what it held has
    been written to the file. *)
Definition flushed (cw : CsvWriter) (w : World) : Prop :=
  exists b, h_bufs w !! cw_w cw = Some b /\ b_buf b = [] /\ b_err b = None.

(** A flush of the writer's buffer has been attempted: the buffer is empty,
    or it carries the error of the attempt. *)
Definition flush_tried (cw : CsvWriter) (w : World) : Prop :=
  exists b, h_bufs w !! cw_w cw = Some b /\ (b_buf b = [] \/ is_Some (b_err b)).

(** The world in which the loop of [Flush] starts. *)
Definition flush_start (st : St) : World :=
  snd (next_order (log (LogFlushing (size (writers (fst st)))) (snd st))).

(** Flush attempts every open triple, whatever fails. *)
Definition Flush_tries_every_triple (st : St) : Prop :=
  forall k cw, writers (fst st) !! k = Some cw -> flush_tried cw (snd (fst (Flush st))).

(** Close empties the maps and closes every file, whatever fails. *)
Definition Close_releases_every_triple (st : St) : Prop :=
  writers (fst (fst (Close st))) = ∅ /\ files (fst (fst (Close st))) = ∅
  /\ buffers (fst (fst (Close st))) = ∅
  /\ forall k l, files (fst st) !! k = Some l -> closed_in l (snd (fst (Close st))).

(** The log line for the error of a step, if it returned one. *)
Definition logged_error (line : error -> SvcLog) (err : option error) : list Step :=
  match err with
  | Some e => [Logged (line e)]
  | None => []
  end.

(** The steps of a [Stop] that runs to its end: the timer and the stop
    channel when the periodic flush was started, then the cancellation,
    the final flush, the close of the source and the close of the recorder,
    each error logged after its step. *)
Definition stop_steps {R W} `{SpreadRecorder R} `{WebSocketClient W}
    (cs : CollectorService R W) : list Step :=
  let flushed := sr_Flush (spreadRecorder cs) in
  [Logged LogStopping]
  ++ (match flushTicker cs with
      | Some _ => [StopTimer; CloseStopFlush]
      | None => []
      end)
  ++ [CancelContext; Logged LogFinalFlush; FinalFlush]
  ++ logged_error LogFinalFlushError (snd flushed)
  ++ [Logged LogClosingWebSocket; CloseSource]
  ++ logged_error LogWebSocketCloseError (snd (ws_Close (wsClient cs)))
  ++ [Logged LogClosingRecorder; CloseWriter]
  ++ logged_error LogRecorderCloseError (snd (sr_Close (fst flushed)))
  ++ [Logged LogStopped].

(** [Stop] has not closed the stop channel of this service yet. *)
Definition not_stopped {R W} (cs : CollectorService R W) : Prop :=
  flushTicker cs = None \/ stopFlush_closed cs = false.

(** The five steps of the shutdown among the steps taken. *)
Definition shutdown_steps (steps : list Step) : list Step :=
  List.filter (fun s => match s with
                        | Logged _ | CloseStopFlush => false
                        | _ => true
                        end) steps.

(** Stop performs the five steps of the shutdown, in order. *)
Definition Stop_performs_five_steps {R W} `{SpreadRecorder R} `{WebSocketClient W}
    (cs : CollectorService R W) : Prop :=
  exists steps,
    history (fst (Stop cs)) = history cs ++ steps
    /\ shutdown_steps steps = [StopTimer; CancelContext; FinalFlush; CloseSource; CloseWriter].

(** Stop returns nil. *)
Definition Stop_returns_nil {R W} `{SpreadRecorder R} `{WebSocketClient W}
    (cs : CollectorService R W) : Prop :=
  snd (Stop cs) = Returned None.

(** Days from 1 March of year 0 to 1 March of year [z]. *)
Definition year_days (z : Z) : Z := 365 * z + z / 4 - z / 100 + z / 400.

(** Two times in the same second of the same calendar date. *)
Definition same_second (t u : Time) : Prop :=
  same_hour t u /\ t_minute t = t_minute u /\ t_second t = t_second u.

(** The first comparison that is not [Eq]. *)
Definition lex (c1 c2 : comparison) : comparison :=
  match c1 with Eq => c2 | _ => c1 end.

(** The comparison of two times by date and clock, down to the second. *)
Definition civil_compare (t u : Time) : comparison :=
  lex (t_year t ?= t_year u)
    (lex (t_month t ?= t_month u)
       (lex (t_day t ?= t_day u)
          (lex (t_hour t ?= t_hour u)
             (lex (t_minute t ?= t_minute u) (t_second t ?= t_second u))))).

(** The seconds of the date and clock of [t], in its own location. *)
Definition civil_seconds (t : Time) : Z :=
  ((days_from_civil (t_year t) (t_month t) (t_day t) * 24 + t_hour t) * 60
   + t_minute t) * 60 + t_second t.

(** The texts of two times are in the order of the times. *)
Definition sortable_pair (t u : Time) : Prop :=
  before t u = String.ltb (format_RFC3339Nano t) (format_RFC3339Nano u).

(* ===================================================================== *)
(** * Sample data                                                         *)
(* ===================================================================== *)

(** An instance for the closed examples, none of which formats a price
    with a negative precision. *)
Definition no_shortest : Strconv := {| format_shortest := fun _ => EmptyString |}.

(** 2025-11-18 12:00:00 UTC and 13:00:00 UTC. *)
Definition noon : Time := mkTime 2025 11 18 12 0 0 0 0.
Definition one_pm : Time := mkTime 2025 11 18 13 0 0 0 0.

(** Half a second past [noon]. *)
Definition half_past_noon : Time := mkTime 2025 11 18 12 0 0 500000000 0.

(** The observation of [TestCSVSpreadRecorder_Record]: bid 1.10000, ask
    1.10002, spread 0.00002, and no [Decimals]. *)
Definition eurusd_noon : PriceData :=
  mkPriceData noon 21 "EURUSD" "FxSpot"
    (of_ratio 110000 100000) (of_ratio 110002 100000) (of_ratio 2 100000) 0.

(** Two observations of EURUSD on either side of 15:00:00 UTC. *)
Definition eurusd_before_three : PriceData :=
  mkPriceData (mkTime 2025 11 18 14 59 59 999000000 0) 21 "EURUSD" "FxSpot"
    (of_ratio 110000 100000) (of_ratio 110002 100000) (of_ratio 2 100000) 4.
Definition eurusd_at_three : PriceData :=
  mkPriceData (mkTime 2025 11 18 15 0 0 0 0) 21 "EURUSD" "FxSpot"
    (of_ratio 110001 100000) (of_ratio 110003 100000) (of_ratio 2 100000) 4.

(** An observation of a series named EUR, in the hour of [eurusd_noon]. *)
Definition eur_noon : PriceData :=
  mkPriceData noon 7 "EUR" "FxSpot"
    (of_ratio 110000 100000) (of_ratio 110002 100000) (of_ratio 2 100000) 4.

(** A new recorder in an empty world where nothing fails. *)
Definition quiet_world : World := mkWorld ∅ ∅ ∅ ∅ (mkFaults ∅ ∅ ∅ ∅) [] [].
Definition new_recorder : St := (NewCSVSpreadRecorder "data", quiet_world).

(** A world in which every write to the file of AUDUSD's noon partition
    fails, and the third [range] loop to come visits AUDUSD first. *)
Definition stuck_path : string := "data/20251118/AUDUSD_12.csv".
Definition flaky_world : World :=
  mkWorld ∅ ∅ ∅ ∅ (mkFaults ∅ ∅ {[stuck_path]} ∅)
          [[]; []; ["AUDUSD_20251118_12"; "USDJPY_20251118_12"]] [].

Definition audusd_noon : PriceData :=
  mkPriceData noon 4 "AUDUSD" "FxSpot"
    (of_ratio 65000 100000) (of_ratio 65002 100000) (of_ratio 2 100000) 4.
Definition usdjpy_noon : PriceData :=
  mkPriceData noon 42 "USDJPY" "FxSpot"
    (of_ratio 150000 1000) (of_ratio 150003 1000) (of_ratio 3 1000) 2.

(** AUDUSD recorded, its file stuck. *)
Definition one_stuck : St :=
  fst (Record_ (H := no_shortest) audusd_noon (NewCSVSpreadRecorder "data", flaky_world)).

(** AUDUSD and USDJPY recorded, both with their header and one record
    buffered. *)
Definition two_pending : St := fst (Record_ (H := no_shortest) usdjpy_noon one_stuck).

(** A source whose [Close] fails. *)
Definition failing_source : WebSocketClient unit :=
  {| ws_Close := fun c => (c, Some (ErrSys "close" "websocket")) |}.

(** A service that has been started: its ticker runs, its stop channel is
    open, its recorder holds AUDUSD's stuck partition. *)
Definition started_service : CollectorService St unit :=
  mkCollectorService (Some (mkFlushTicker false)) false false one_stuck tt [].

(** The same service after a first [Stop]. *)
Definition stopped_service : CollectorService St unit :=
  fst (Stop (H := CSVSpreadRecorder_SpreadRecorder (H := no_shortest))
            (H0 := failing_source) started_service).

(* ===================================================================== *)
(** * internal/domain/price_data.go: CalculateSpread                      *)
(* ===================================================================== *)

Module Domain.

(** The subtraction of float64. *)
Definition sub : float64 -> float64 -> float64 := SFsub 53 1024.

(** [PriceData.CalculateSpread]: [p.Spread = p.Ask - p.Bid]. *)
Definition CalculateSpread (p : PriceData) : PriceData :=
  mkPriceData (Timestamp p) (Uic p) (Ticker p) (AssetType p) (Bid p) (Ask p)
              (sub (Ask p) (Bid p)) (Decimals p).

End Domain.

Import Domain.

(* ===================================================================== *)
(** * internal/services/collector_service.go: the rest of the service     *)
(* ===================================================================== *)

(** [Instrument], of the package services. *)
Module Services.
Record Instrument := mkInstrument {
  Ticker : string;
  Uic : Z;
  AssetType : string;
  Decimals : Z
}.
End Services.

(** [saxo.PriceUpdate], by the four fields the service reads. *)
Module Saxo.
Record PriceUpdate := mkPriceUpdate {
  Ticker : string;
  Bid : float64;
  Ask : float64;
  Timestamp : GoTime.Time
}.
End Saxo.

Module Collector.

(** The errors [fmt.Errorf] makes in the service and in the command: a
    text alone, or a text and the error it wraps with [%w]. *)
Inductive Errorf :=
| Msg (text : string)
| Wrap (text : string) (err : error).

(** [mapPriceUpdate].  The spread of the new [PriceData] is the zero value
    until [CalculateSpread] sets it. *)
Definition mapPriceUpdate (instruments : gmap string Services.Instrument)
    (update : Saxo.PriceUpdate) : PriceData + Errorf :=
  match instruments !! Saxo.Ticker update with
  | None => inr (Msg ("instrument not found: " +:+ Saxo.Ticker update))
  | Some instrument =>
      let priceData :=
        mkPriceData (Saxo.Timestamp update) (Services.Uic instrument)
                    (Saxo.Ticker update) (Services.AssetType instrument)
                    (Saxo.Bid update) (Saxo.Ask update)
                    (S754_zero false) (Services.Decimals instrument) in
      inl (CalculateSpread priceData)
  end.

(** [getAllTickers]: the [range] over the map appends every key; [order]
    is the order in which the iteration runs. *)
Definition getAllTickers (instruments : gmap string Services.Instrument) (order : list string)
    : list string :=
  fold_left (fun tickers ticker => tickers ++ [ticker]) (range_keys instruments order) [].

(** Go's [int], 64 bits wide: the value [z] wraps around to. *)
Definition int_wrap (z : Z) : Z := (z + 2 ^ 63) mod 2 ^ 64 - 2 ^ 63.

(** The case a [select] takes in the loop of [processPriceUpdates]: the
    context is done, or the price channel delivers an update, or it is
    found closed. *)
Inductive Selected :=
| CtxDone
| Received (priceUpdate : Saxo.PriceUpdate)
| ChannelClosed.

(** The lines [processPriceUpdates] prints. *)
Inductive ProcessorLog :=
| LogProcessorStarting
| LogProcessorStopping (updateCount : Z)
| LogChannelClosed
| LogMappingError (ticker : string) (err : Errorf)
| LogRecordingError (ticker : string) (err : error)
| LogProcessed (updateCount : Z).

(** The case a [select] takes in the loop of the periodic flush: the
    context is done, the stop channel is closed, or the ticker fires. *)
Inductive FlushSelected :=
| FlushCtxDone
| FlushStopped
| Tick.

(** The lines the periodic flush prints. *)
Inductive FlushLog :=
| LogPeriodicFlushStarting (interval : Z)
| LogFlushError (err : error).

Section Goroutines.
Context {R : Type} `{SpreadRecorder R}.

(** Where a goroutine stands: the recorder it shares, its counter, the
    lines it has printed, and whether it has returned (it is otherwise
    waiting in its [select]). *)
Record Goroutine (L : Type) := mkGoroutine {
  g_recorder : R;
  g_count : Z;
  g_log : list L;
  g_returned : bool
}.
Arguments mkGoroutine {L}.
Arguments g_recorder {L}.
Arguments g_count {L}.
Arguments g_log {L}.
Arguments g_returned {L}.

(** The loop of [processPriceUpdates], run on the cases its [select]
    takes. *)
Fixpoint price_loop (instruments : gmap string Services.Instrument) (selected : list Selected)
    (r : R) (updateCount : Z) (out : list ProcessorLog) : Goroutine ProcessorLog :=
  match selected with
  | [] => mkGoroutine r updateCount out false
  | CtxDone :: _ =>
      mkGoroutine r updateCount (out ++ [LogProcessorStopping updateCount]) true
  | ChannelClosed :: _ => mkGoroutine r updateCount (out ++ [LogChannelClosed]) true
  | Received priceUpdate :: rest =>
      match mapPriceUpdate instruments priceUpdate with
      | inr err =>
          price_loop instruments rest r updateCount
            (out ++ [LogMappingError (Saxo.Ticker priceUpdate) err])
      | inl priceData =>
          let '(r, res) := sr_Record priceData r in
          match res with
          | Some err =>
              price_loop instruments rest r updateCount
                (out ++ [LogRecordingError (Saxo.Ticker priceUpdate) err])
          | None =>
              let updateCount := int_wrap (updateCount + 1) in
              price_loop instruments rest r updateCount
                (if Z.rem updateCount 100 =? 0
                 then out ++ [LogProcessed updateCount] else out)
          end
      end
  end.

(** [processPriceUpdates]. *)
Definition processPriceUpdates (instruments : gmap string Services.Instrument)
    (selected : list Selected) (r : R) : Goroutine ProcessorLog :=
  price_loop instruments selected r 0 [LogProcessorStarting].

(** The loop of the goroutine [startPeriodicFlush] starts. *)
Fixpoint flush_ticks (selected : list FlushSelected) (r : R) (out : list FlushLog)
    : Goroutine FlushLog :=
  match selected with
  | [] => mkGoroutine r 0 out false
  | FlushCtxDone :: _ => mkGoroutine r 0 out true
  | FlushStopped :: _ => mkGoroutine r 0 out true
  | Tick :: rest =>
      let '(r, res) := sr_Flush r in
      match res with
      | Some err => flush_ticks rest r (out ++ [LogFlushError err])
      | None => flush_ticks rest r out
      end
  end.

(** The goroutine of [startPeriodicFlush]. *)
Definition periodicFlush (flushInterval : Z) (selected : list FlushSelected) (r : R)
    : Goroutine FlushLog :=
  flush_ticks selected r [LogPeriodicFlushStarting flushInterval].

End Goroutines.

Arguments mkGoroutine {R L}.
Arguments g_recorder {R L}.
Arguments g_count {R L}.
Arguments g_log {R L}.
Arguments g_returned {R L}.

(** [saxo.AuthClient], by the methods the service calls, and whether the
    client is one that also has [StartTokenEarlyRefresh] (the type
    assertion of [Start]). *)
Class AuthClient (A : Type) := {
  auth_IsAuthenticated : A -> bool;
  auth_Login : A -> A * option error;
  auth_StartTokenEarlyRefresh : A -> bool
}.

(** The methods of [saxo.WebSocketClient] that [Start] calls. *)
Class PriceFeed (W : Type) := {
  ws_SetStateChannels : W -> W;
  ws_Connect : W -> W * option error;
  ws_SubscribeToPrices : list string -> W -> W * option error
}.

(** [websocket.NewSaxoWebSocketClient]. *)
Class SaxoWebSocket (A W : Type) := {
  NewSaxoWebSocketClient : A -> W
}.

(** The lines [Start] prints. *)
Inductive StartLog :=
| LogStarting
| LogNotAuthenticated
| LogAuthenticated
| LogTokenRefreshStarted
| LogConnecting
| LogConnected
| LogSubscribing (n : nat)
| LogSubscribed
| LogStarted.

(** What [Start] does, in order: its calls on the two clients, the
    goroutines it starts, the ticker it makes, and its log lines. *)
Inductive StartStep :=
| DidLogin
| DidSetStateChannels
| WentTokenRefresh
| DidConnect
| DidSubscribe (tickers : list string)
| WentPriceProcessor
| MadeTicker (interval : Z)
| WentPeriodicFlush
| Printed (l : StartLog).

(** [CollectorService] with the fields [Stop] does not use: [svc] holds
    those it uses, and [started] the steps [Start] has taken.  The flush
    interval is a [time.Duration], a number of nanoseconds. *)
Record WholeService (A B R W : Type) := mkWholeService {
  authClient : A;
  brokerClient : B;
  instruments : gmap string Services.Instrument;
  flushInterval : Z;
  svc : CollectorService R W;
  started : list StartStep
}.
Arguments mkWholeService {A B R W}.
Arguments authClient {A B R W}.
Arguments brokerClient {A B R W}.
Arguments instruments {A B R W}.
Arguments flushInterval {A B R W}.
Arguments svc {A B R W}.
Arguments started {A B R W}.

Section Start.
Context {A B R W : Type} `{AuthClient A} `{PriceFeed W} `{SaxoWebSocket A W}.

(** [NewCollectorService]: the ticker is nil, the stop channel open and the
    context live; the error is always nil. *)
Definition NewCollectorService (authClient : A) (brokerClient : B)
    (instruments : gmap string Services.Instrument) (spreadRecorder : R) (flushInterval : Z)
    : WholeService A B R W * option Errorf :=
  let wsClient := NewSaxoWebSocketClient authClient in
  (mkWholeService authClient brokerClient instruments flushInterval
     (mkCollectorService None false false spreadRecorder wsClient []) [],
   None).

Definition took (s : StartStep) (c : WholeService A B R W) : WholeService A B R W :=
  mkWholeService (authClient c) (brokerClient c) (instruments c) (flushInterval c) (svc c)
            (started c ++ [s]).

Definition printed (l : StartLog) (c : WholeService A B R W) : WholeService A B R W :=
  took (Printed l) c.

Definition with_authClient (a : A) (c : WholeService A B R W) : WholeService A B R W :=
  mkWholeService a (brokerClient c) (instruments c) (flushInterval c) (svc c) (started c).

Definition with_wsClient (w : W) (c : WholeService A B R W) : WholeService A B R W :=
  mkWholeService (authClient c) (brokerClient c) (instruments c) (flushInterval c)
    (mkCollectorService (flushTicker (svc c)) (stopFlush_closed (svc c))
       (ctx_cancelled (svc c)) (spreadRecorder (svc c)) w (history (svc c)))
    (started c).

Definition with_flushTicker (t : option FlushTicker) (c : WholeService A B R W)
    : WholeService A B R W :=
  mkWholeService (authClient c) (brokerClient c) (instruments c) (flushInterval c)
    (mkCollectorService t (stopFlush_closed (svc c)) (ctx_cancelled (svc c))
       (spreadRecorder (svc c)) (wsClient (svc c)) (history (svc c)))
    (started c).

(** [startPeriodicFlush]: [time.NewTicker] panics on an interval that is
    not positive; otherwise the ticker is stored and the goroutine of the
    periodic flush started. *)
Definition startPeriodicFlush (c : WholeService A B R W) : option (WholeService A B R W) :=
  if flushInterval c <=? 0 then None
  else
    let c := took (MadeTicker (flushInterval c))
               (with_flushTicker (Some (mkFlushTicker false)) c) in
    Some (took WentPeriodicFlush c).

(** [Start]; [order] is the order in which [getAllTickers] iterates. *)
Definition Start (order : list string) (c : WholeService A B R W)
    : WholeService A B R W * outcome (option Errorf) :=
  let c := printed LogStarting c in
  let '(c, res) :=
    if auth_IsAuthenticated (authClient c) then (c, None)
    else
      let c := printed LogNotAuthenticated c in
      let '(a, err) := auth_Login (authClient c) in
      let c := took DidLogin (with_authClient a c) in
      match err with
      | Some e => (c, Some e)
      | None => (printed LogAuthenticated c, None)
      end in
  match res with
  | Some err => (c, Returned (Some (Wrap "authentication failed" err)))
  | None =>
      let c := took DidSetStateChannels
                 (with_wsClient (ws_SetStateChannels (wsClient (svc c))) c) in
      let c := if auth_StartTokenEarlyRefresh (authClient c)
               then printed LogTokenRefreshStarted (took WentTokenRefresh c)
               else c in
      let c := printed LogConnecting c in
      let '(w, err) := ws_Connect (wsClient (svc c)) in
      let c := took DidConnect (with_wsClient w c) in
      match err with
      | Some err => (c, Returned (Some (Wrap "websocket connection failed" err)))
      | None =>
          let c := printed LogConnected c in
          let tickers := getAllTickers (instruments c) order in
          let c := printed (LogSubscribing (length tickers)) c in
          let '(w, err) := ws_SubscribeToPrices tickers (wsClient (svc c)) in
          let c := took (DidSubscribe tickers) (with_wsClient w c) in
          match err with
          | Some err => (c, Returned (Some (Wrap "price subscription failed" err)))
          | None =>
              let c := printed LogSubscribed c in
              let c := took WentPriceProcessor c in
              match startPeriodicFlush c with
              | None => (c, Panicked "non-positive interval for NewTicker")
              | Some c => (printed LogStarted c, Returned None)
              end
          end
      end
  end.

End Start.

End Collector.

Import Collector.
(* ===================================================================== *)
(** * Further notions: how the recorder's objects hang together           *)
(* ===================================================================== *)

(** The csv writer of every partition writes into the partition's entry
    of [buffers]: [csv.NewWriter(buffer)] wraps no second buffer around it. *)
Definition shared_buffer (r : Recorder) : Prop :=
  forall k cw, writers r !! k = Some cw -> buffers r !! k = Some (cw_w cw).

(** From [w] to [w'] every buffer object is still there, over the same
    writer. *)
Definition bufs_mono (w w' : World) : Prop :=
  forall l b, h_bufs w !! l = Some b ->
    exists b', h_bufs w' !! l = Some b' /\ b_wr b' = b_wr b.

(** Every partition's buffer is an object of the heap that writes to the
    partition's entry of [files], a file object whose path is the one of
    the partition. *)
Definition wired (st : St) : Prop :=
  forall k cw, writers (fst st) !! k = Some cw ->
    exists b f t ts,
      h_bufs (snd st) !! cw_w cw = Some b
      /\ files (fst st) !! k = Some (b_wr b)
      /\ h_files (snd st) !! b_wr b = Some f
      /\ wf_time ts = true /\ k = key_of t ts
      /\ f_path f = partition_path (baseDir (fst st)) t ts.

(** The buffer of a writer carries an error: a write to its file failed. *)
Definition broken (cw : CsvWriter) (w : World) : Prop :=
  exists b e, h_bufs w !! cw_w cw = Some b /\ b_err b = Some e.

(** The recorder holds a partition whose buffer is broken or whose file
    has been closed. *)
Definition stuck (st : St) : Prop :=
  (exists k cw, writers (fst st) !! k = Some cw /\ broken cw (snd st))
  \/ (exists k l, files (fst st) !! k = Some l /\ closed_in l (snd st)).

(** The system calls among the events, without the log lines. *)
Definition syscalls (tr : list Event) : list Event :=
  List.filter (fun e => match e with EvLog _ => false | _ => true end) tr.

(** The recorder with another [bufferSize]. *)
Definition with_bufferSize (n : Z) (r : Recorder) : Recorder :=
  mkRecorder (baseDir r) (writers r) (files r) (buffers r) n.

(** Recording the observations one by one with [Record], up to the first
    that fails. *)
Fixpoint record_each `{Strconv} (data : list PriceData) (st : St) : St * option error :=
  match data with
  | [] => (st, None)
  | d :: rest =>
      let '(st1, res) := Record_ d st in
      match res with
      | Some err => (st1, Some err)
      | None => record_each rest st1
      end
  end.

(** From [w] to [w'] every file of the file system is still there, its
    content extended. *)
Definition fs_grows (w w' : World) : Prop :=
  forall p c, fs_files w !! p = Some c ->
    exists more, fs_files w' !! p = Some (c ++ more).

(** An environment in which nothing fails, with an empty file system. *)
Definition calm (st : St) : St := environment ∅ ∅ (mkFaults ∅ ∅ ∅ ∅) [] st.

(** EURUSD recorded once by a new recorder, nothing failing. *)
Definition one_recorded : St :=
  fst (Record_ (H := no_shortest) eurusd_before_three new_recorder).

(** The directory of a partition's file. *)
Definition partition_dir (baseDir : string) (timestamp : Time) : string :=
  path_join baseDir (format_date timestamp).

(** The result of a call, with another [bufferSize] in the recorder it
    leaves. *)
Definition resized {A} (n : Z) (res : St * A) : St * A :=
  ((with_bufferSize n (fst (fst res)), snd (fst res)), snd res).

(* ===================================================================== *)
(** * cmd/collector/main.go: loadInstruments                              *)
(* ===================================================================== *)

Module Main.

(** [instrument], the entry of the JSON file. *)
Record instrument := mk_instrument {
  Ticker : string;
  Uic : Z;
  AssetType : string;
  Decimals : Z
}.

(** The [services.Instrument] the loop of [loadInstruments] makes of an
    entry. *)
Definition to_Instrument (inst : instrument) : Services.Instrument :=
  Services.mkInstrument (Ticker inst) (Uic inst) (AssetType inst) (Decimals inst).

Section Load.

(** [os.ReadFile], and [json.Unmarshal] into the configuration struct, of
    which [config.Instruments] is kept. *)
Variable ReadFile : string -> string + error.
Variable Unmarshal : string -> list instrument + error.

(** [loadInstruments]. *)
Definition loadInstruments (filepath : string) : gmap string Services.Instrument + Errorf :=
  match ReadFile filepath with
  | inr err => inr (Wrap "failed to read file" err)
  | inl data =>
      match Unmarshal data with
      | inr err => inr (Wrap "failed to parse JSON" err)
      | inl config_Instruments =>
          if (length config_Instruments =? 0)%nat then inr (Msg "no instruments found")
          else
            inl (fold_left
                   (fun instruments inst => <[Ticker inst := to_Instrument inst]> instruments)
                   config_Instruments ∅)
      end
  end.

End Load.

End Main.

(* ===================================================================== *)
(** * Notions for the service and the command                             *)
(* ===================================================================== *)

(** The updates a loop of [processPriceUpdates] receives before its
    context is done or its channel closed. *)
Fixpoint received (selected : list Selected) : list Saxo.PriceUpdate :=
  match selected with
  | Received u :: rest => u :: received rest
  | _ => []
  end.

(** The ticks a periodic flush sees before its context is done or its stop
    channel closed. *)
Fixpoint ticks (selected : list FlushSelected) : nat :=
  match selected with
  | Tick :: rest => S (ticks rest)
  | _ => O
  end.

(** Recording an update if its instrument is known, whatever [Record]
    returns. *)
Definition record_known {R} `{SpreadRecorder R} (instruments : gmap string Services.Instrument)
    (r : R) (u : Saxo.PriceUpdate) : R :=
  match mapPriceUpdate instruments u with
  | inl d => fst (sr_Record d r)
  | inr _ => r
  end.

(** The number of updates of known instruments that [Record] accepts, the
    recorder passing from one to the next. *)
Fixpoint count_recorded {R} `{SpreadRecorder R} (instruments : gmap string Services.Instrument)
    (us : list Saxo.PriceUpdate) (r : R) : nat :=
  match us with
  | [] => O
  | u :: rest =>
      match mapPriceUpdate instruments u with
      | inl d =>
          ((match snd (sr_Record d r) with Some _ => 0 | None => 1 end)
           + count_recorded instruments rest (fst (sr_Record d r)))%nat
      | inr _ => count_recorded instruments rest r
      end
  end.

(** The last entry of a list with the ticker [t]. *)
Definition last_with (t : string) (insts : list Main.instrument) : option Main.instrument :=
  find (fun i => String.eqb (Main.Ticker i) t) (rev insts).

(** The steps of [Start] that are not log lines. *)
Definition start_calls (steps : list StartStep) : list StartStep :=
  List.filter (fun s => match s with Printed _ => false | _ => true end) steps.

(* ===================================================================== *)
(** * Sample data for the service                                         *)
(* ===================================================================== *)

(** One configured instrument, an update for it and an update for an
    instrument that is not configured. *)
Definition fx_instruments : gmap string Services.Instrument :=
  <["EURUSD" := Services.mkInstrument "EURUSD" 21 "FxSpot" 4]> ∅.
Definition eurusd_update : Saxo.PriceUpdate :=
  Saxo.mkPriceUpdate "EURUSD" (of_ratio 110000 100000) (of_ratio 110002 100000) noon.
Definition gbpusd_update : Saxo.PriceUpdate :=
  Saxo.mkPriceUpdate "GBPUSD" (of_ratio 130000 100000) (of_ratio 130002 100000) noon.

(** What a price processor may see: an unknown instrument, a known one,
    the end of its context, and an update it no longer reads. *)
Definition two_updates_then_done : list Selected :=
  [Received gbpusd_update; Received eurusd_update; CtxDone; Received eurusd_update].

(** A client that is signed in, and a feed to which no connection can be
    made. *)
Definition signed_in : AuthClient unit :=
  {| auth_IsAuthenticated := fun _ => true;
     auth_Login := fun a => (a, None);
     auth_StartTokenEarlyRefresh := fun _ => true |}.
Definition unreachable_feed : PriceFeed unit :=
  {| ws_SetStateChannels := fun w => w;
     ws_Connect := fun w => (w, Some (ErrSys "dial" "wss://streaming"));
     ws_SubscribeToPrices := fun _ w => (w, None) |}.

(** A new service over a new recorder, flushing every thirty seconds. *)
Definition new_service : WholeService unit unit St unit :=
  mkWholeService tt tt fx_instruments 30000000000
    (mkCollectorService None false false new_recorder tt []) [].

(** A float64 that is a number: a zero or a finite value. *)
Definition is_number (x : float64) : Prop :=
  match x with
  | S754_zero _ | S754_finite _ _ _ => True
  | _ => False
  end.

(** A file of two entries for the same ticker. *)
Definition eurusd_twice : list Main.instrument :=
  [Main.mk_instrument "EURUSD" 21 "FxSpot" 4; Main.mk_instrument "EURUSD" 22 "FxSpot" 5].

(** An update with the bid equal to the ask. *)
Definition locked_update : Saxo.PriceUpdate :=
  Saxo.mkPriceUpdate "EURUSD" (of_ratio 110000 100000) (of_ratio 110000 100000) noon.

(* ===================================================================== *)
(** * Strings                                                             *)
(* ===================================================================== *)

Module StrFacts.

Lemma app_cons c a b : String c a +:+ b = String c (a +:+ b).
Proof. reflexivity. Qed.

Lemma app_nil_l s : "" +:+ s = s.
Proof. reflexivity. Qed.

Lemma app_nil_r s : s +:+ "" = s.
Proof. induction s as [|c s IH]; [reflexivity|]. rewrite app_cons, IH. reflexivity. Qed.

Lemma app_assoc a b c : (a +:+ b) +:+ c = a +:+ (b +:+ c).
Proof. induction a as [|x a IH]; [reflexivity|]. rewrite !app_cons, IH. reflexivity. Qed.

Lemma length_app a b : String.length (a +:+ b) = (String.length a + String.length b)%nat.
Proof. induction a as [|x a IH]; [reflexivity|]. rewrite app_cons. simpl. rewrite IH. reflexivity. Qed.

Lemma all_chars_app P a b : all_chars P (a +:+ b) <-> all_chars P a /\ all_chars P b.
Proof.
  induction a as [|x a IH]; [rewrite app_nil_l; simpl; tauto|].
  rewrite app_cons. simpl. rewrite IH. tauto.
Qed.

Lemma all_chars_impl (P Q : ascii -> bool) s :
  (forall c, P c = true -> Q c = true) -> all_chars P s -> all_chars Q s.
Proof. intros HPQ. induction s as [|c s IH]; simpl; [tauto|]. intros [? ?]. auto. Qed.

(** Two strings that end in tails of the same length agree part by part. *)
Lemma app_inj_tail_len a a' b b' :
  a +:+ b = a' +:+ b' -> String.length b = String.length b' -> a = a' /\ b = b'.
Proof.
  revert a'. induction a as [|x a IH]; intros [|x' a'] Heq Hlen.
  - auto.
  - rewrite app_nil_l in Heq. subst b. rewrite app_cons in Hlen. simpl in Hlen.
    rewrite length_app in Hlen. lia.
  - rewrite app_nil_l in Heq. subst b'. rewrite app_cons in Hlen. simpl in Hlen.
    rewrite length_app in Hlen. lia.
  - rewrite !app_cons in Heq. injection Heq as -> Heq.
    destruct (IH _ Heq Hlen) as [-> ->]. auto.
Qed.

(** Two strings split at a separator that their tails do not contain agree
    part by part: the separator is the last one of each. *)
Lemma split_last_sep (sep : ascii) a a' d d' :
  all_chars (fun c => negb (Ascii.eqb c sep)) d ->
  all_chars (fun c => negb (Ascii.eqb c sep)) d' ->
  a +:+ String sep d = a' +:+ String sep d' -> a = a' /\ d = d'.
Proof.
  intros Hd Hd'. revert a'. induction a as [|x a IH]; intros [|x' a'] Heq.
  - rewrite !app_nil_l in Heq. injection Heq as ->. auto.
  - rewrite app_nil_l, app_cons in Heq. injection Heq as <- ->.
    apply all_chars_app in Hd as [_ Hd]. simpl in Hd. destruct Hd as [Hd _].
    rewrite Ascii.eqb_refl in Hd. discriminate.
  - rewrite app_nil_l, app_cons in Heq. injection Heq as -> <-.
    apply all_chars_app in Hd' as [_ Hd']. simpl in Hd'. destruct Hd' as [Hd' _].
    rewrite Ascii.eqb_refl in Hd'. discriminate.
  - rewrite !app_cons in Heq. injection Heq as -> Heq.
    destruct (IH _ Heq) as [-> ->]. auto.
Qed.

(** Two strings split where a run of characters satisfying [P] ends agree
    part by part. *)
Lemma split_run (P : ascii -> bool) a a' c c' r r' :
  all_chars P a -> all_chars P a' -> P c = false -> P c' = false ->
  a +:+ String c r = a' +:+ String c' r' -> a = a' /\ String c r = String c' r'.
Proof.
  intros Ha Ha' Hc Hc'. revert a' Ha'. induction a as [|x a IH]; intros [|x' a'] Ha' Heq.
  - rewrite !app_nil_l in Heq. auto.
  - rewrite app_nil_l, app_cons in Heq. injection Heq as -> _.
    simpl in Ha'. destruct Ha' as [Hx _]. congruence.
  - rewrite app_nil_l, app_cons in Heq. injection Heq as -> _.
    simpl in Ha. destruct Ha as [Hx _]. congruence.
  - rewrite !app_cons in Heq. injection Heq as -> Heq.
    simpl in Ha, Ha'. destruct Ha as [_ Ha]. destruct Ha' as [_ Ha'].
    destruct (IH Ha _ Ha' Heq) as [-> ?]. auto.
Qed.

Lemma substring_prefix a b : substring 0 (String.length a) (a +:+ b) = a.
Proof.
  induction a as [|x a IH]; [destruct b; reflexivity|].
  rewrite app_cons. simpl. rewrite IH. reflexivity.
Qed.

End StrFacts.

(* ===================================================================== *)
(** * Decimal formatting                                                  *)
(* ===================================================================== *)

Import StrFacts.

Module FmtFacts.

Lemma digit_char_code d : 0 <= d < 10 -> N_of_ascii (digit_char d) = Z.to_N (48 + d).
Proof.
  intros Hd. unfold digit_char. apply N_ascii_embedding. lia.
Qed.

Lemma digit_char_is_digit d : 0 <= d < 10 -> is_digit (digit_char d) = true.
Proof.
  intros Hd. unfold is_digit. rewrite digit_char_code by assumption.
  apply andb_true_intro. split; apply N.leb_le; lia.
Qed.

Lemma digit_char_inj d e : 0 <= d < 10 -> 0 <= e < 10 -> digit_char d = digit_char e -> d = e.
Proof.
  intros Hd He Heq. apply (f_equal N_of_ascii) in Heq.
  rewrite !digit_char_code in Heq by assumption. lia.
Qed.

Lemma fixed_digits_length w u : String.length (fixed_digits w u) = w.
Proof. induction w as [|w IH]; simpl; [reflexivity|]. rewrite IH. reflexivity. Qed.

Lemma fixed_digits_all_digits w u : all_chars is_digit (fixed_digits w u).
Proof.
  induction w as [|w IH]; simpl; [exact I|]. split; [|exact IH].
  apply digit_char_is_digit. apply Z.mod_pos_bound. lia.
Qed.

(** The low [w] digits depend on [u mod 10^w] only, and determine it. *)
Lemma digits_value_fixed w u acc :
  0 <= u -> digits_value (fixed_digits w u) acc = acc * 10 ^ Z.of_nat w + u mod 10 ^ Z.of_nat w.
Proof.
  intros Hu. revert acc. induction w as [|w IH]; intros acc.
  - simpl. rewrite Z.mod_1_r. lia.
  - cbn [fixed_digits digits_value]. rewrite IH.
    rewrite digit_char_code by (apply Z.mod_pos_bound; lia).
    assert (H10 : 0 < 10 ^ Z.of_nat w) by (apply Z.pow_pos_nonneg; lia).
    set (p := 10 ^ Z.of_nat w) in *.
    replace (10 ^ Z.of_nat (S w)) with (p * 10)
      by (rewrite Nat2Z.inj_succ, Z.pow_succ_r by lia; subst p; lia).
    assert (Hd : 0 <= (u / p) mod 10 < 10) by (apply Z.mod_pos_bound; lia).
    rewrite Z2N.id by lia.
    rewrite (Z.rem_mul_r u p 10) by lia. lia.
Qed.

Lemma fixed_digits_inj w u v :
  0 <= u < 10 ^ Z.of_nat w -> 0 <= v < 10 ^ Z.of_nat w ->
  fixed_digits w u = fixed_digits w v -> u = v.
Proof.
  intros Hu Hv Heq. apply (f_equal (fun s => digits_value s 0)) in Heq.
  rewrite !digits_value_fixed in Heq by lia.
  rewrite !Z.mod_small in Heq by lia. lia.
Qed.

Lemma count_digits_le k : forall f u, u < 10 ^ Z.of_nat k -> (count_digits f u <= k)%nat.
Proof.
  induction k as [|k IH]; intros f u Hu.
  - destruct f; simpl; [lia|]. change (10 ^ Z.of_nat 0) with 1 in Hu.
    destruct (Z.leb_spec u 0); lia.
  - destruct f; simpl; [lia|]. destruct (Z.leb_spec u 0); [lia|].
    apply le_n_S, IH. rewrite Nat2Z.inj_succ, Z.pow_succ_r in Hu by lia.
    apply Z.div_lt_upper_bound; lia.
Qed.

Lemma count_digits_bound : forall f u,
  0 <= u < 2 ^ Z.of_nat f -> u < 10 ^ Z.of_nat (count_digits f u).
Proof.
  induction f as [|f IH]; intros u Hu.
  - simpl in *. lia.
  - cbn [count_digits]. destruct (Z.leb_spec u 0); [simpl; lia|].
    rewrite Nat2Z.inj_succ, Z.pow_succ_r in Hu by lia.
    assert (Hq : 0 <= u / 10 < 2 ^ Z.of_nat f).
    { split; [apply Z.div_pos; lia|]. apply Z.div_lt_upper_bound; lia. }
    specialize (IH _ Hq).
    rewrite Nat2Z.inj_succ, Z.pow_succ_r by lia.
    pose proof (Z.div_mod u 10 ltac:(lia)). pose proof (Z.mod_pos_bound u 10 ltac:(lia)). lia.
Qed.

Lemma ndigits_bound u : 0 <= u -> u < 10 ^ Z.of_nat (ndigits u).
Proof.
  intros Hu. unfold ndigits. destruct (Z.eqb_spec u 0) as [->|Hne]; [reflexivity|].
  apply count_digits_bound. split; [lia|].
  rewrite Nat2Z.inj_succ, Z2Nat.id by apply Z.log2_nonneg.
  apply Z.log2_spec. lia.
Qed.

Lemma ndigits_le k u : (1 <= k)%nat -> 0 <= u < 10 ^ Z.of_nat k -> (ndigits u <= k)%nat.
Proof.
  intros Hk Hu. unfold ndigits. destruct (Z.eqb_spec u 0); [lia|].
  apply count_digits_le. lia.
Qed.

(** A value that fits the width is printed with exactly that many digits. *)
Lemma appendInt_small x k :
  (1 <= k)%nat -> 0 <= x < 10 ^ Z.of_nat k -> appendInt x k = fixed_digits k x.
Proof.
  intros Hk Hx. unfold appendInt. destruct (Z.ltb_spec x 0); [lia|].
  rewrite Z.abs_eq by lia. rewrite app_nil_l.
  rewrite Nat.max_l by (apply ndigits_le; assumption). reflexivity.
Qed.


Lemma appendInt_chars x k : all_chars is_digit_or_minus (appendInt x k).
Proof.
  unfold appendInt. apply all_chars_app. split.
  - destruct (x <? 0); simpl; auto.
  - eapply all_chars_impl; [|apply fixed_digits_all_digits].
    intros c Hc. unfold is_digit_or_minus. rewrite Hc. reflexivity.
Qed.

Lemma ndigits_pos u : 0 <= u -> (1 <= ndigits u)%nat.
Proof.
  intros Hu. unfold ndigits. destruct (Z.eqb_spec u 0); [lia|].
  cbn [count_digits]. destruct (Z.leb_spec u 0); lia.
Qed.

Lemma fixed_digits_head w u :
  (1 <= w)%nat -> exists c s, fixed_digits w u = String c s /\ is_digit c = true.
Proof.
  intros Hw. destruct w as [|w]; [lia|]. cbn [fixed_digits]. eexists _, _.
  split; [reflexivity|]. apply digit_char_is_digit, Z.mod_pos_bound. lia.
Qed.

Lemma padded_inj k u v :
  0 <= u -> 0 <= v ->
  fixed_digits (Nat.max k (ndigits u)) u = fixed_digits (Nat.max k (ndigits v)) v -> u = v.
Proof.
  intros Hu Hv Heq.
  assert (Hlen : Nat.max k (ndigits u) = Nat.max k (ndigits v)).
  { apply (f_equal String.length) in Heq. rewrite !fixed_digits_length in Heq. exact Heq. }
  rewrite <- Hlen in Heq.
  assert (Hb : forall z, 0 <= z -> z < 10 ^ Z.of_nat (Nat.max k (ndigits z))).
  { intros z Hz. eapply Z.lt_le_trans; [apply ndigits_bound; assumption|].
    apply Z.pow_le_mono_r; lia. }
  apply (fixed_digits_inj (Nat.max k (ndigits u))); [split; auto| |exact Heq].
  split; [lia|]. rewrite Hlen. auto.
Qed.

(** [appendInt] with a width is one to one. *)
Lemma appendInt_inj x y k : appendInt x k = appendInt y k -> x = y.
Proof.
  unfold appendInt. intros Heq.
  destruct (fixed_digits_head (Nat.max k (ndigits (Z.abs x))) (Z.abs x)) as (cx & sx & Ex & Hcx).
  { pose proof (ndigits_pos (Z.abs x) (Z.abs_nonneg x)). lia. }
  destruct (fixed_digits_head (Nat.max k (ndigits (Z.abs y))) (Z.abs y)) as (cy & sy & Ey & Hcy).
  { pose proof (ndigits_pos (Z.abs y) (Z.abs_nonneg y)). lia. }
  destruct (Z.ltb_spec x 0) as [Hx|Hx]; destruct (Z.ltb_spec y 0) as [Hy|Hy].
  - apply String.app_inj in Heq. apply padded_inj in Heq; lia.
  - rewrite app_nil_l, Ey in Heq. rewrite app_cons in Heq. injection Heq as <- _.
    discriminate Hcy.
  - rewrite app_nil_l, Ex in Heq. rewrite app_cons in Heq. injection Heq as -> _.
    discriminate Hcx.
  - rewrite !app_nil_l in Heq. apply padded_inj in Heq; lia.
Qed.

End FmtFacts.

(* ===================================================================== *)
(** * Partition keys                                                      *)
(* ===================================================================== *)

Import StrFacts FmtFacts.

Module KeyFacts.

Lemma wf_time_spec t :
  wf_time t = true ->
  1 <= t_month t <= 12 /\ 1 <= t_day t <= 31 /\ 0 <= t_hour t < 24 /\
  0 <= t_minute t < 60 /\ 0 <= t_second t < 60 /\ 0 <= t_nsec t < 1000000000 /\
  -86400 < t_offset t < 86400 /\ t_offset t mod 60 = 0.
Proof.
  unfold wf_time. rewrite !andb_true_iff.
  rewrite !Z.leb_le, !Z.ltb_lt, Z.eqb_eq.
  intros H. assert (Hd : days_in_month (t_year t) (t_month t) <= 31).
  { unfold days_in_month. repeat match goal with |- context [if ?b then _ else _] => destruct b end; lia. }
  lia.
Qed.

Lemma two_digits x : 0 <= x < 100 -> appendInt x 2 = fixed_digits 2 x.
Proof. intros Hx. apply appendInt_small; [lia|]. simpl. lia. Qed.

Lemma two_digits_length x : 0 <= x < 100 -> String.length (appendInt x 2) = 2%nat.
Proof. intros Hx. rewrite two_digits by assumption. apply fixed_digits_length. Qed.

Lemma format_hour_length t : wf_time t = true -> String.length (format_hour t) = 2%nat.
Proof. intros Hwf. apply wf_time_spec in Hwf. apply two_digits_length. lia. Qed.


Lemma digit_or_minus_not_underscore c : is_digit_or_minus c = true -> not_underscore c = true.
Proof.
  unfold is_digit_or_minus, is_digit, not_underscore. intros H.
  destruct (Ascii.eqb_spec c "_") as [->|]; [discriminate H|reflexivity].
Qed.

Lemma format_date_no_underscore t : all_chars not_underscore (format_date t).
Proof.
  unfold format_date. rewrite !all_chars_app.
  repeat split; (eapply all_chars_impl; [apply digit_or_minus_not_underscore|apply appendInt_chars]).
Qed.

(** A key determines the ticker, the date text and the hour text it was
    built from. *)
Lemma partition_key_inj t d h t' d' h' :
  all_chars not_underscore d -> all_chars not_underscore d' ->
  String.length h = String.length h' ->
  partition_key t d h = partition_key t' d' h' -> t = t' /\ d = d' /\ h = h'.
Proof.
  unfold partition_key. intros Hd Hd' Hlen Heq.
  replace (t +:+ "_" +:+ d +:+ "_" +:+ h) with ((t +:+ "_" +:+ d +:+ "_") +:+ h) in Heq
    by (rewrite !app_assoc; reflexivity).
  replace (t' +:+ "_" +:+ d' +:+ "_" +:+ h') with ((t' +:+ "_" +:+ d' +:+ "_") +:+ h') in Heq
    by (rewrite !app_assoc; reflexivity).
  apply app_inj_tail_len in Heq as [Heq ->]; [|assumption].
  replace (t +:+ "_" +:+ d +:+ "_") with ((t +:+ "_" +:+ d) +:+ "_") in Heq
    by (rewrite !app_assoc; reflexivity).
  replace (t' +:+ "_" +:+ d' +:+ "_") with ((t' +:+ "_" +:+ d') +:+ "_") in Heq
    by (rewrite !app_assoc; reflexivity).
  apply app_inj_tail_len in Heq as [Heq _]; [|reflexivity].
  apply (split_last_sep "_"%char) in Heq as [-> ->]; auto.
Qed.

Lemma key_of_inj t ts t' ts' :
  wf_time ts = true -> wf_time ts' = true -> key_of t ts = key_of t' ts' ->
  t = t' /\ format_date ts = format_date ts' /\ format_hour ts = format_hour ts'.
Proof.
  intros Hwf Hwf' Heq. unfold key_of in Heq.
  apply partition_key_inj in Heq; auto using format_date_no_underscore.
  rewrite !format_hour_length by assumption. reflexivity.
Qed.

Lemma format_date_inj t t' :
  wf_time t = true -> wf_time t' = true -> format_date t = format_date t' ->
  t_year t = t_year t' /\ t_month t = t_month t' /\ t_day t = t_day t'.
Proof.
  intros Hwf Hwf' Heq. apply wf_time_spec in Hwf, Hwf'. unfold format_date in Heq.
  rewrite <- !app_assoc in Heq.
  apply app_inj_tail_len in Heq as [Heq Hd]; [|rewrite !two_digits_length by lia; reflexivity].
  apply app_inj_tail_len in Heq as [Hy Hm]; [|rewrite !two_digits_length by lia; reflexivity].
  apply appendInt_inj in Hy, Hm, Hd. auto.
Qed.

Lemma format_hour_inj t t' : format_hour t = format_hour t' -> t_hour t = t_hour t'.
Proof. apply appendInt_inj. Qed.

(** Every key of a ticker passes the prefix test of the cleanup, unless it
    is the key being resolved. *)
Lemma is_old_key_same_ticker ticker key d h :
  is_old_key ticker key (partition_key ticker d h)
  = negb (String.eqb (partition_key ticker d h) key).
Proof.
  unfold is_old_key, partition_key. rewrite substring_prefix, String.eqb_refl.
  rewrite length_app, app_cons. simpl String.length.
  replace (_ <? _)%nat with true; [reflexivity|]. symmetry. apply Nat.ltb_lt. lia.
Qed.

End KeyFacts.

Import KeyFacts.

(* ===================================================================== *)
(** * The file objects through the recorder's operations                  *)
(* ===================================================================== *)

Module WorldFacts.

Lemma files_mono_refl w : files_mono w w.
Proof. intros l f Hf. exists f. auto. Qed.

Lemma files_mono_trans w1 w2 w3 : files_mono w1 w2 -> files_mono w2 w3 -> files_mono w1 w3.
Proof.
  intros H12 H23 l f Hf. destruct (H12 _ _ Hf) as (f2 & Hf2 & Hp2 & Hc2).
  destruct (H23 _ _ Hf2) as (f3 & Hf3 & Hp3 & Hc3).
  exists f3. repeat split; [assumption|congruence|auto].
Qed.

Lemma files_mono_same w w' : h_files w' = h_files w -> files_mono w w'.
Proof. intros Heq l f Hf. exists f. rewrite Heq. auto. Qed.

Lemma closed_in_mono w w' l : files_mono w w' -> closed_in l w -> closed_in l w'.
Proof.
  intros Hm (f & Hf & Hc). destruct (Hm _ _ Hf) as (f' & Hf' & _ & Hc').
  exists f'. auto.
Qed.

Lemma valid_mono w w' l :
  files_mono w w' -> is_Some (h_files w !! l) -> is_Some (h_files w' !! l).
Proof. intros Hm [f Hf]. destruct (Hm _ _ Hf) as (f' & Hf' & _). eauto. Qed.

(** *** What each operation leaves of the file objects *)

Lemma file_write_h_files l rows w : h_files (fst (file_write l rows w)) = h_files w.
Proof.
  unfold file_write. destruct (h_files w !! l) as [f|]; [|reflexivity].
  destruct (f_closed f); [reflexivity|]. destruct (decide _); reflexivity.
Qed.

Lemma file_write_h_bufs l rows w : h_bufs (fst (file_write l rows w)) = h_bufs w.
Proof.
  unfold file_write. destruct (h_files w !! l) as [f|]; [|reflexivity].
  destruct (f_closed f); [reflexivity|]. destruct (decide _); reflexivity.
Qed.

Lemma bufio_flush_h_files l w : h_files (fst (bufio_flush l w)) = h_files w.
Proof.
  unfold bufio_flush. destruct (h_bufs w !! l) as [b|]; [|reflexivity].
  destruct (b_err b); [reflexivity|]. destruct (b_buf b) as [|r rows]; [reflexivity|].
  pose proof (file_write_h_files (b_wr b) (r :: rows) w) as Hw.
  destruct (file_write (b_wr b) (r :: rows) w) as [w1 [e|]]; exact Hw.
Qed.

Lemma bufio_write_h_files l row w : h_files (fst (bufio_write l row w)) = h_files w.
Proof.
  unfold bufio_write. destruct (h_bufs w !! l) as [b|]; [|reflexivity].
  destruct (b_err b); [reflexivity|]. destruct (_ <=? _); [reflexivity|].
  pose proof (bufio_flush_h_files l w) as Hf.
  destruct (bufio_flush l w) as [w1 [e|]]; [exact Hf|]. simpl in Hf.
  destruct (_ <=? _); [exact Hf|].
  pose proof (file_write_h_files (b_wr b) [row] w1) as Hw.
  destruct (file_write (b_wr b) [row] w1) as [w2 [e|]]; simpl in *; congruence.
Qed.

Lemma file_close_mono l w : files_mono w (fst (file_close l w)).
Proof.
  unfold file_close. destruct (h_files w !! l) as [f|] eqn:Hl; [|apply files_mono_refl].
  destruct (f_closed f) eqn:Hc; [apply files_mono_same; reflexivity|].
  assert (Hins : files_mono w (set_h_files (<[l := mkOsFile (f_path f) true]> (h_files w)) w)).
  { intros l0 f0 Hf0. simpl. destruct (decide (l = l0)) as [->|Hne].
    - rewrite lookup_insert_eq. eexists. split; [reflexivity|]. simpl.
      assert (f0 = f) by congruence. subst. auto.
    - rewrite lookup_insert_ne by assumption. exists f0. auto. }
  destruct (decide _); exact Hins.
Qed.

Lemma file_close_closed l w : is_Some (h_files w !! l) -> closed_in l (fst (file_close l w)).
Proof.
  intros [f Hf]. unfold file_close, closed_in. rewrite Hf.
  destruct (f_closed f) eqn:Hc; [simpl; eauto|].
  destruct (decide _); simpl; rewrite lookup_insert_eq; eauto.
Qed.

(** A close that reports no error has closed the file. *)
Lemma file_close_ok l w w' : file_close l w = (w', None) -> closed_in l w'.
Proof.
  unfold file_close, closed_in. destruct (h_files w !! l) as [f|]; [|discriminate].
  destruct (f_closed f); [discriminate|]. destruct (decide _); [discriminate|].
  intros [= <-]. simpl. rewrite lookup_insert_eq. eauto.
Qed.

Lemma MkdirAll_h_files d w : h_files (fst (MkdirAll d w)) = h_files w.
Proof. unfold MkdirAll. destruct (decide _); reflexivity. Qed.

Lemma OpenFile_mono p w : files_mono w (fst (OpenFile p w)).
Proof.
  unfold OpenFile. destruct (decide _); [apply files_mono_same; reflexivity|].
  intros l f Hf. simpl. exists f. split; [|auto].
  rewrite lookup_insert_ne; [assumption|].
  intros Heq. pose proof (is_fresh (dom (h_files w))) as Hfr.
  rewrite Heq in Hfr. apply Hfr. apply elem_of_dom. eauto.
Qed.

Lemma csv_flush_h_files cw w : h_files (csv_flush cw w) = h_files w.
Proof. apply bufio_flush_h_files. Qed.

Lemma next_order_h_files w : h_files (snd (next_order w)) = h_files w.
Proof. unfold next_order. destruct (sched w); reflexivity. Qed.

Lemma next_order_h_bufs w : h_bufs (snd (next_order w)) = h_bufs w.
Proof. unfold next_order. destruct (sched w); reflexivity. Qed.

Lemma next_order_fs_files w : fs_files (snd (next_order w)) = fs_files w.
Proof. unfold next_order. destruct (sched w); reflexivity. Qed.

Lemma close_old_mono k cw st : files_mono (snd st) (snd (close_old k cw st)).
Proof.
  destruct st as [r w]. unfold close_old. simpl.
  set (w1 := csv_flush cw w).
  set (w2 := match csv_error cw w1 with Some err => log (LogWarnFlushWriter k err) w1 | None => w1 end).
  assert (H2 : h_files w2 = h_files w).
  { subst w2. destruct (csv_error cw w1); simpl; apply csv_flush_h_files. }
  set (w3 := match buffers r !! k with
             | Some buf => let '(w', res) := bufio_flush buf w2 in
                           match res with Some err => log (LogWarnFlushBuffer k err) w' | None => w' end
             | None => w2 end).
  assert (H3 : h_files w3 = h_files w).
  { subst w3. destruct (buffers r !! k) as [buf|]; [|exact H2].
    pose proof (bufio_flush_h_files buf w2) as Hb.
    destruct (bufio_flush buf w2) as [w' [e|]]; simpl in *; congruence. }
  apply files_mono_trans with w3; [apply files_mono_same; assumption|].
  match goal with
  | |- files_mono _ (log _ ?w4) =>
      apply files_mono_trans with w4; [|apply files_mono_same; reflexivity]
  end.
  destruct (files r !! k) as [file|]; [|apply files_mono_refl].
  pose proof (file_close_mono file w3) as Hc.
  destruct (file_close file w3) as [w' [e|]]; exact Hc.
Qed.

Lemma cleanup_loop_mono t key keys st : files_mono (snd st) (snd (cleanup_loop t key keys st)).
Proof.
  revert st. induction keys as [|k keys IH]; intros st; simpl; [apply files_mono_refl|].
  destruct (writers (fst st) !! k) as [cw|]; [|apply IH].
  destruct (is_old_key t key k); [|apply IH].
  eapply files_mono_trans; [apply close_old_mono|apply IH].
Qed.

End WorldFacts.

Import WorldFacts.

(* ===================================================================== *)
(** * The cleanup loop and getWriter                                      *)
(* ===================================================================== *)

Module RecorderFacts.

Lemma range_keys_complete {A} (m : gmap string A) hint k :
  is_Some (m !! k) -> k ∈ range_keys m hint.
Proof.
  intros [v Hv]. unfold range_keys. apply elem_of_app.
  set (named := remove_dups _).
  destruct (decide (k ∈ named)) as [Hin|Hnin]; [left; exact Hin|right].
  apply list_elem_of_filter. split; [exact Hnin|].
  apply list_elem_of_fmap. exists (k, v). split; [reflexivity|].
  apply elem_of_map_to_list. exact Hv.
Qed.

Lemma is_open_writers r k : same_keys r -> is_open k r <-> is_Some (writers r !! k).
Proof.
  intros Hs. destruct (Hs k) as [Hf Hb]. unfold is_open. tauto.
Qed.

Lemma close_old_fst k cw st : fst (close_old k cw st) = evict k (fst st).
Proof. destruct st as [r w]. reflexivity. Qed.

Lemma same_keys_evict k r : same_keys r -> same_keys (evict k r).
Proof.
  intros Hs k'. simpl. destruct (decide (k = k')) as [->|Hne].
  - rewrite !lookup_delete_eq. split; split; intros [? ?]; discriminate.
  - rewrite !lookup_delete_ne by assumption. apply Hs.
Qed.

Lemma same_keys_register key file buffer cw r :
  same_keys r -> same_keys (register key file buffer cw r).
Proof.
  intros Hs k'. simpl. destruct (decide (key = k')) as [->|Hne].
  - rewrite !lookup_insert_eq. split; split; eauto.
  - rewrite !lookup_insert_ne by assumption. apply Hs.
Qed.

Section Cleanup.
Variables ticker key : string.

Lemma cleanup_baseDir keys st :
  baseDir (fst (cleanup_loop ticker key keys st)) = baseDir (fst st).
Proof.
  revert st. induction keys as [|k0 keys IH]; intros st; simpl; [reflexivity|].
  destruct (writers (fst st) !! k0) as [cw|]; [|apply IH].
  destruct (is_old_key ticker key k0); [|apply IH].
  rewrite IH, close_old_fst. reflexivity.
Qed.

Lemma cleanup_same_keys keys st :
  same_keys (fst st) -> same_keys (fst (cleanup_loop ticker key keys st)).
Proof.
  revert st. induction keys as [|k0 keys IH]; intros st Hs; simpl; [exact Hs|].
  destruct (writers (fst st) !! k0) as [cw|]; [|apply IH, Hs].
  destruct (is_old_key ticker key k0); [|apply IH, Hs].
  apply IH. rewrite close_old_fst. apply same_keys_evict, Hs.
Qed.

(** The loop only removes entries. *)
Lemma cleanup_sub keys st k :
  let r' := fst (cleanup_loop ticker key keys st) in
  (forall v, writers r' !! k = Some v -> writers (fst st) !! k = Some v)
  /\ (forall v, files r' !! k = Some v -> files (fst st) !! k = Some v)
  /\ (forall v, buffers r' !! k = Some v -> buffers (fst st) !! k = Some v).
Proof.
  revert st. induction keys as [|k0 keys IH]; intros st; simpl; [auto|].
  destruct (writers (fst st) !! k0) as [cw|]; [|apply IH].
  destruct (is_old_key ticker key k0); [|apply IH].
  specialize (IH (close_old k0 cw st)). simpl in IH. rewrite close_old_fst in IH.
  destruct IH as (Hw & Hf & Hb). simpl in Hw, Hf, Hb.
  repeat split; intros v Hv;
    [apply Hw in Hv|apply Hf in Hv|apply Hb in Hv];
    apply lookup_delete_Some in Hv as [_ Hv]; exact Hv.
Qed.

(** It leaves alone the keys that fail the test. *)
Lemma cleanup_keeps keys st k :
  is_old_key ticker key k = false ->
  let r' := fst (cleanup_loop ticker key keys st) in
  writers r' !! k = writers (fst st) !! k
  /\ files r' !! k = files (fst st) !! k
  /\ buffers r' !! k = buffers (fst st) !! k.
Proof.
  intros Hk. revert st. induction keys as [|k0 keys IH]; intros st; simpl; [auto|].
  destruct (writers (fst st) !! k0) as [cw|]; [|apply IH].
  destruct (is_old_key ticker key k0) eqn:Hk0; [|apply IH].
  specialize (IH (close_old k0 cw st)). simpl in IH. rewrite close_old_fst in IH.
  destruct IH as (Hw & Hf & Hb). simpl in Hw, Hf, Hb.
  assert (k0 <> k) by congruence.
  rewrite Hw, Hf, Hb. rewrite !lookup_delete_ne by assumption. auto.
Qed.

(** It removes, from the three maps, every visited key that passes it. *)
Lemma cleanup_evicts keys st k :
  same_keys (fst st) -> k ∈ keys -> is_old_key ticker key k = true ->
  ~ is_open k (fst (cleanup_loop ticker key keys st)).
Proof.
  intros Hs Hin Hk. revert st Hs. induction keys as [|k0 keys IH]; intros st Hs.
  - inversion Hin.
  - assert (Hgone : forall st0, same_keys (fst st0) -> ~ is_open k (fst st0) ->
                      ~ is_open k (fst (cleanup_loop ticker key keys st0))).
    { intros st0 Hs0 Hn Ho. apply Hn.
      destruct (cleanup_sub keys st0 k) as (Hw & Hf & Hb).
      destruct Ho as [[v Hv]|[[v Hv]|[v Hv]]]; [left|right; left|right; right]; eauto. }
    simpl. apply elem_of_cons in Hin as [<-|Hin].
    + destruct (writers (fst st) !! k) as [cw|] eqn:Hw.
      * rewrite Hk. apply Hgone.
        { rewrite close_old_fst. apply same_keys_evict, Hs. }
        rewrite close_old_fst. unfold is_open. simpl. rewrite !lookup_delete_eq.
        intros [[? ?]|[[? ?]|[? ?]]]; discriminate.
      * apply Hgone; [exact Hs|]. rewrite is_open_writers by exact Hs.
        rewrite Hw. intros [? ?]; discriminate.
    + destruct (writers (fst st) !! k0) as [cw|]; [|apply IH; assumption].
      destruct (is_old_key ticker key k0); [|apply IH; assumption].
      apply IH; [assumption|]. rewrite close_old_fst. apply same_keys_evict, Hs.
Qed.

(** And it closes their files. *)
Lemma cleanup_closes keys st k l :
  k ∈ keys -> is_old_key ticker key k = true ->
  is_Some (writers (fst st) !! k) -> files (fst st) !! k = Some l ->
  is_Some (h_files (snd st) !! l) ->
  closed_in l (snd (cleanup_loop ticker key keys st)).
Proof.
  intros Hin Hk. revert st. induction keys as [|k0 keys IH]; intros st Hw Hf Hl.
  - inversion Hin.
  - simpl. destruct (decide (k0 = k)) as [->|Hne].
    + destruct Hw as [cw Hw]. rewrite Hw, Hk.
      eapply closed_in_mono; [apply cleanup_loop_mono|].
      destruct st as [r w]. simpl in *. unfold close_old. rewrite Hf. simpl.
      match goal with |- closed_in l (log _ (let '(_, _) := file_close l ?w3 in _)) =>
        assert (Hv : is_Some (h_files w3 !! l)); [|pose proof (file_close_closed l w3 Hv) as Hc;
          destruct (file_close l w3) as [w4 [e|]]; destruct Hc as (f & Hf4 & Hc4);
          exists f; simpl in *; auto] end.
      match goal with |- is_Some (h_files ?w3 !! l) => assert (H3 : h_files w3 = h_files w) end.
      { destruct (buffers r !! k) as [buf|].
        - pose proof (bufio_flush_h_files buf
            (match csv_error cw (csv_flush cw w) with
             | Some err => log (LogWarnFlushWriter k err) (csv_flush cw w)
             | None => csv_flush cw w end)) as Hb.
          destruct (bufio_flush buf _) as [w' [e|]]; simpl in *; rewrite Hb;
            destruct (csv_error cw (csv_flush cw w)); simpl; apply csv_flush_h_files.
        - destruct (csv_error cw (csv_flush cw w)); simpl; apply csv_flush_h_files. }
      rewrite H3. exact Hl.
    + apply elem_of_cons in Hin as [->|Hin]; [congruence|].
      destruct (writers (fst st) !! k0) as [cw|] eqn:Hw0; [|apply IH; assumption].
      destruct (is_old_key ticker key k0); [|apply IH; assumption].
      apply IH; try assumption.
      * rewrite close_old_fst. simpl. rewrite lookup_delete_ne by assumption. exact Hw.
      * rewrite close_old_fst. simpl. rewrite lookup_delete_ne by assumption. exact Hf.
      * eapply valid_mono; [apply close_old_mono|exact Hl].
Qed.

End Cleanup.

End RecorderFacts.

Import RecorderFacts.
Module GetWriterFacts.

Lemma getWriter_open t ts st cw :
  writers (fst st) !! key_of t ts = Some cw -> getWriter t ts st = (st, inl cw).
Proof. intros Hw. unfold getWriter. fold (key_of t ts). rewrite Hw. reflexivity. Qed.

Lemma MkdirAll_fields d w w' res :
  MkdirAll d w = (w', res) ->
  h_files w' = h_files w /\ h_bufs w' = h_bufs w /\ fs_files w' = fs_files w
  /\ faults w' = faults w.
Proof. unfold MkdirAll. destruct (decide _); intros [= <- <-]; auto. Qed.

Lemma Stat_fields p w w' found :
  Stat p w = (w', found) ->
  h_files w' = h_files w /\ h_bufs w' = h_bufs w /\ fs_files w' = fs_files w
  /\ faults w' = faults w /\ found = bool_decide (is_Some (fs_files w !! p)).
Proof. unfold Stat. intros [= <- <-]. auto. Qed.

Lemma OpenFile_ok p w w' l :
  OpenFile p w = (w', inl l) ->
  h_files w' = <[l := mkOsFile p false]> (h_files w) /\ h_files w !! l = None
  /\ h_bufs w' = h_bufs w
  /\ fs_files w' !! p = Some (default [] (fs_files w !! p)).
Proof.
  unfold OpenFile. destruct (decide _); [discriminate|]. intros [= <- <-]. simpl.
  repeat split.
  - apply not_elem_of_dom, is_fresh.
  - destruct (fs_files w !! p) eqn:E; simpl; [exact E|apply lookup_insert_eq].
Qed.

Lemma OpenFile_err p w w' e :
  OpenFile p w = (w', inr e) -> h_files w' = h_files w.
Proof. unfold OpenFile. destruct (decide _); [|discriminate]. intros [= <- <-]. reflexivity. Qed.

Lemma bufio_new_fields file w w' l :
  bufio_new file w = (w', l) ->
  h_bufs w' = <[l := mkBufWriter file [] None]> (h_bufs w)
  /\ h_files w' = h_files w /\ fs_files w' = fs_files w.
Proof. unfold bufio_new. intros [= <- <-]. auto. Qed.

(** The header always fits the empty buffer of a new writer. *)
Lemma csv_write_header_fresh l file w :
  h_bufs w !! l = Some (mkBufWriter file [] None) ->
  csv_write (csv_new l) header w
  = (set_h_bufs (<[l := mkBufWriter file [header] None]> (h_bufs w)) w, None).
Proof. intros Hb. unfold csv_write, bufio_write. simpl. rewrite Hb. reflexivity. Qed.

Lemma getWriter_new t ts st st' res :
  writers (fst st) !! key_of t ts = None -> getWriter t ts st = (st', res) ->
  let st1 := rotated t ts st in
  let path := partition_path (baseDir (fst st)) t ts in
  let existing := fs_files (snd st1) !! path in
  files_mono (snd st1) (snd st')
  /\ ((fst st' = fst st1 /\ exists e, res = inr e)
      \/ exists file buffer,
           res = inl (csv_new buffer)
           /\ fst st' = register (key_of t ts) file buffer (csv_new buffer) (fst st1)
           /\ h_files (snd st') !! file = Some (mkOsFile path false)
           /\ h_bufs (snd st') !! buffer
              = Some (mkBufWriter file
                        (match existing with Some _ => [] | None => [header] end) None)
           /\ fs_files (snd st') !! path = Some (default [] existing)).
Proof.
  intros Hw Hg. unfold getWriter in Hg. fold (key_of t ts) in Hg. rewrite Hw in Hg.
  cbv zeta. unfold rotated, partition_path.
  destruct (next_order (snd st)) as [ord w0].
  pose proof (cleanup_baseDir t (key_of t ts) (range_keys (writers (fst st)) ord) (fst st, w0)) as Hbase.
  destruct (cleanup_loop t (key_of t ts) (range_keys (writers (fst st)) ord) (fst st, w0))
    as [r1 w1]. simpl in Hbase. rewrite <- Hbase. simpl fst. simpl snd.
  set (dirPath := path_join (baseDir r1) (format_date ts)) in *.
  set (filePath := path_join dirPath (t +:+ "_" +:+ format_hour ts +:+ ".csv")) in *.
  destruct (MkdirAll _ _) as [w2 res2] eqn:E2.
  apply MkdirAll_fields in E2 as (Hf2 & Hb2 & Hs2 & _). simpl in Hf2, Hb2, Hs2.
  destruct res2 as [err|].
  { injection Hg as <- <-. split; [apply files_mono_same; assumption|]. left. eauto. }
  destruct (Stat _ _) as [w3 fileExists] eqn:E3.
  apply Stat_fields in E3 as (Hf3 & Hb3 & Hs3 & _ & Hex).
  destruct (OpenFile _ _) as [w4 [file|err]] eqn:E4.
  2:{ injection Hg as <- <-. apply OpenFile_err in E4. simpl in E4.
      split; [apply files_mono_same; simpl; congruence|]. left. eauto. }
  pose proof (OpenFile_mono filePath (log (LogOpening filePath fileExists) w3)) as Hm4.
  rewrite E4 in Hm4. simpl in Hm4.
  apply OpenFile_ok in E4 as (Hf4 & Hfresh & Hb4 & Hs4). simpl in Hf4, Hfresh, Hb4, Hs4.
  destruct (bufio_new file w4) as [w5 buffer] eqn:E5.
  apply bufio_new_fields in E5 as (Hb5 & Hf5 & Hs5).
  assert (Hm5 : files_mono w1 w5).
  { apply files_mono_trans with w4; [|apply files_mono_same; assumption].
    eapply files_mono_trans; [|exact Hm4]. apply files_mono_same. simpl. congruence. }
  rewrite Hs2 in Hex. rewrite Hs3, Hs2 in Hs4.
  assert (Hbuf5 : h_bufs w5 !! buffer = Some (mkBufWriter file [] None)).
  { rewrite Hb5. apply lookup_insert_eq. }
  assert (Hfile5 : h_files w5 !! file = Some (mkOsFile filePath false)).
  { rewrite Hf5, Hf4. apply lookup_insert_eq. }
  assert (Hfs5 : fs_files w5 !! filePath = Some (default [] (fs_files w1 !! filePath))).
  { rewrite Hs5. exact Hs4. }
  destruct fileExists.
  - symmetry in Hex. apply bool_decide_eq_true in Hex.
    destruct (fs_files w1 !! filePath) as [c|] eqn:Hc; [|destruct Hex; discriminate].
    injection Hg as <- <-. simpl. split; [exact Hm5|]. right.
    exists file, buffer. repeat split; assumption.
  - symmetry in Hex. apply bool_decide_eq_false in Hex.
    destruct (fs_files w1 !! filePath) as [c|] eqn:Hc;
      [exfalso; apply Hex; eauto|].
    rewrite (csv_write_header_fresh _ _ _ Hbuf5) in Hg.
    injection Hg as <- <-. simpl. split; [exact Hm5|]. right.
    exists file, buffer. repeat split; try assumption.
    apply lookup_insert_eq.
Qed.

End GetWriterFacts.

(* ===================================================================== *)
(** * The invariant of the recorder                                       *)
(* ===================================================================== *)

Import GetWriterFacts.
Module InvFacts.

Lemma rotated_eq t ts st :
  rotated t ts st
  = cleanup_loop t (key_of t ts)
      (range_keys (writers (fst st)) (fst (next_order (snd st))))
      (fst st, snd (next_order (snd st))).
Proof. unfold rotated. destruct (next_order (snd st)); reflexivity. Qed.

Lemma rotated_mono t ts st : files_mono (snd st) (snd (rotated t ts st)).
Proof.
  rewrite rotated_eq. eapply files_mono_trans; [|apply cleanup_loop_mono].
  apply files_mono_same. simpl. apply next_order_h_files.
Qed.

Lemma rotated_same_keys t ts st : same_keys (fst st) -> same_keys (fst (rotated t ts st)).
Proof. intros Hs. rewrite rotated_eq. apply cleanup_same_keys. exact Hs. Qed.

Lemma rotated_sub_open t ts st k :
  is_open k (fst (rotated t ts st)) -> is_open k (fst st).
Proof.
  rewrite rotated_eq. intros Ho.
  destruct (cleanup_sub t (key_of t ts) (range_keys (writers (fst st)) (fst (next_order (snd st))))
              (fst st, snd (next_order (snd st))) k) as (Hw & Hf & Hb).
  destruct Ho as [[v Hv]|[[v Hv]|[v Hv]]]; [left|right; left|right; right]; eauto.
Qed.

Lemma rotated_sub_files t ts st k l :
  files (fst (rotated t ts st)) !! k = Some l -> files (fst st) !! k = Some l.
Proof.
  rewrite rotated_eq. intros Hl.
  destruct (cleanup_sub t (key_of t ts) (range_keys (writers (fst st)) (fst (next_order (snd st))))
              (fst st, snd (next_order (snd st))) k) as (_ & Hf & _). auto.
Qed.

(** Past the cleanup no other partition of the ticker is open. *)
Lemma rotated_evicts t ts st ts' :
  same_keys (fst st) -> key_of t ts' <> key_of t ts ->
  ~ is_open (key_of t ts') (fst (rotated t ts st)).
Proof.
  intros Hs Hne Ho. pose proof (rotated_sub_open _ _ _ _ Ho) as Ho0.
  revert Ho. rewrite rotated_eq. apply cleanup_evicts.
  - exact Hs.
  - apply range_keys_complete. apply is_open_writers; assumption.
  - unfold key_of at 2. rewrite is_old_key_same_ticker. fold (key_of t ts').
    apply negb_true_iff, String.eqb_neq. exact Hne.
Qed.

(** And the file of every other partition of the ticker has been closed. *)
Lemma rotated_closes t ts st ts' l :
  same_keys (fst st) -> files_valid st -> key_of t ts' <> key_of t ts ->
  files (fst st) !! key_of t ts' = Some l ->
  closed_in l (snd (rotated t ts st)).
Proof.
  intros Hs Hv Hne Hl. rewrite rotated_eq.
  assert (Hw : is_Some (writers (fst st) !! key_of t ts')).
  { destruct (Hs (key_of t ts')) as [[_ Hfw] _]. apply Hfw. eauto. }
  apply cleanup_closes with (k := key_of t ts').
  - apply range_keys_complete. exact Hw.
  - unfold key_of at 2. rewrite is_old_key_same_ticker. fold (key_of t ts').
    apply negb_true_iff, String.eqb_neq. exact Hne.
  - exact Hw.
  - exact Hl.
  - simpl. rewrite next_order_h_files. eapply Hv. exact Hl.
Qed.

Lemma is_open_register k key file buffer cw r :
  is_open k (register key file buffer cw r) <-> k = key \/ is_open k r.
Proof.
  unfold is_open. simpl. destruct (decide (key = k)) as [->|Hne].
  - rewrite !lookup_insert_eq. split; [auto|]. intros _. left. eauto.
  - rewrite !lookup_insert_ne by assumption. split; [auto|].
    intros [->|Ho]; [congruence|exact Ho].
Qed.

Lemma inv_rotated t ts st : inv st -> inv (rotated t ts st).
Proof.
  intros (Hs & Hv & Ho). split; [apply rotated_same_keys, Hs|]. split.
  - intros k l Hl. eapply valid_mono; [apply rotated_mono|].
    eapply Hv, rotated_sub_files, Hl.
  - intros t0 ts1 ts2 H1 H2 Ho1 Ho2. apply Ho; try assumption;
      eapply rotated_sub_open; eassumption.
Qed.

Lemma getWriter_inv t ts st : wf_time ts = true -> inv st -> inv (fst (getWriter t ts st)).
Proof.
  intros Hwf Hinv. destruct (writers (fst st) !! key_of t ts) as [cw|] eqn:Hw.
  { rewrite (getWriter_open _ _ _ _ Hw). exact Hinv. }
  destruct (getWriter t ts st) as [st' res] eqn:Hg.
  destruct (getWriter_new _ _ _ _ _ Hw Hg) as (Hm & Hcase).
  pose proof (inv_rotated t ts st Hinv) as (Hs1 & Hv1 & Ho1).
  destruct Hinv as (Hs & Hv & Ho). simpl.
  destruct Hcase as [[Hfst _]|(file & buffer & _ & Hfst & Hfile & _)].
  - split; [rewrite Hfst; exact Hs1|]. split.
    + intros k l Hl. rewrite Hfst in Hl. eapply valid_mono; [exact Hm|]. eapply Hv1, Hl.
    + rewrite Hfst. exact Ho1.
  - split; [rewrite Hfst; apply same_keys_register, Hs1|]. split.
    + intros k l Hl. rewrite Hfst in Hl. simpl in Hl.
      destruct (decide (key_of t ts = k)) as [<-|Hne].
      * rewrite lookup_insert_eq in Hl. injection Hl as <-. rewrite Hfile. eauto.
      * rewrite lookup_insert_ne in Hl by assumption.
        eapply valid_mono; [exact Hm|]. eapply Hv1, Hl.
    + rewrite Hfst. intros t0 ts1 ts2 H1 H2 Hop1 Hop2.
      apply is_open_register in Hop1, Hop2.
      assert (Hnew : forall tsa tsb, wf_time tsa = true -> wf_time tsb = true ->
                key_of t0 tsa = key_of t ts -> is_open (key_of t0 tsb) (fst (rotated t ts st)) ->
                key_of t0 tsb = key_of t ts).
      { intros tsa tsb Ha Hb Heq Hopen.
        apply key_of_inj in Heq as (-> & _); try assumption.
        destruct (decide (key_of t tsb = key_of t ts)) as [|Hne]; [assumption|].
        exfalso. exact (rotated_evicts t ts st tsb Hs Hne Hopen). }
      destruct Hop1 as [E1|Hop1], Hop2 as [E2|Hop2].
      * congruence.
      * rewrite E1. symmetry. exact (Hnew ts1 ts2 H1 H2 E1 Hop2).
      * rewrite E2. exact (Hnew ts2 ts1 H2 H1 E2 Hop1).
      * apply Ho1; assumption.
Qed.

Lemma inv_world r w w' : files_mono w w' -> inv (r, w) -> inv (r, w').
Proof.
  intros Hm (Hs & Hv & Ho). split; [exact Hs|]. split; [|exact Ho].
  intros k l Hl. eapply valid_mono; [exact Hm|]. eapply Hv, Hl.
Qed.

End InvFacts.

Import InvFacts.
Module ReachFacts.

Lemma csv_write_mono cw row w : files_mono w (fst (csv_write cw row w)).
Proof. apply files_mono_same, bufio_write_h_files. Qed.

Lemma Record_inv `{Strconv} d st :
  wf_time (Timestamp d) = true -> inv st -> inv (fst (Record_ d st)).
Proof.
  intros Hwf Hinv. unfold Record_.
  pose proof (getWriter_inv (Ticker d) (Timestamp d) st Hwf Hinv) as Hi.
  destruct (getWriter (Ticker d) (Timestamp d) st) as [[r1 w1] [cw|e]]; [|exact Hi].
  pose proof (csv_write_mono cw (record_of d) w1) as Hm. simpl in *.
  destruct (csv_write cw (record_of d) w1) as [w2 [e|]]; simpl in *;
    eapply inv_world; eassumption.
Qed.

Lemma RecordBatch_inv `{Strconv} ds st :
  Forall (fun d => wf_time (Timestamp d) = true) ds -> inv st ->
  inv (fst (RecordBatch ds st)).
Proof.
  intros Hall. revert st. induction Hall as [|d ds Hwf _ IH]; intros st Hinv; [exact Hinv|].
  cbn [RecordBatch].
  pose proof (getWriter_inv (Ticker d) (Timestamp d) st Hwf Hinv) as Hi.
  destruct (getWriter (Ticker d) (Timestamp d) st) as [[r1 w1] [cw|e]]; [|exact Hi].
  pose proof (csv_write_mono cw (record_of d) w1) as Hm. simpl in *.
  destruct (csv_write cw (record_of d) w1) as [w2 [e|]]; simpl in *.
  - eapply inv_world; eassumption.
  - apply IH. eapply inv_world; eassumption.
Qed.

Lemma flush_loop_h_files keys r w : h_files (fst (flush_loop keys r w)) = h_files w.
Proof.
  revert w. induction keys as [|k keys IH]; intros w; simpl; [reflexivity|].
  destruct (writers r !! k) as [cw|]; [|apply IH].
  destruct (csv_error cw (csv_flush cw w)); [apply csv_flush_h_files|].
  assert (Hb : forall w0, h_files (fst (match buffers r !! k with
                                        | Some buf => bufio_flush buf w0
                                        | None => (w0, None) end)) = h_files w0).
  { intros w0. destruct (buffers r !! k); [apply bufio_flush_h_files|reflexivity]. }
  specialize (Hb (csv_flush cw w)).
  destruct (match buffers r !! k with Some buf => _ | None => _ end) as [w1 [e|]];
    simpl in *.
  - rewrite Hb. apply csv_flush_h_files.
  - rewrite IH. simpl. rewrite Hb. apply csv_flush_h_files.
Qed.

Lemma Flush_fst st : fst (fst (Flush st)) = fst st.
Proof.
  destruct st as [r w]. unfold Flush.
  destruct (next_order _) as [ord w1]. destruct (flush_loop _ r w1) as [w2 [e|]]; reflexivity.
Qed.

Lemma Flush_mono st : files_mono (snd st) (snd (fst (Flush st))).
Proof.
  destruct st as [r w]. unfold Flush. apply files_mono_same.
  pose proof (next_order_h_files (log (LogFlushing (size (writers r))) w)) as Hn.
  destruct (next_order _) as [ord w1].
  pose proof (flush_loop_h_files (range_keys (writers r) ord) r w1) as Hf.
  destruct (flush_loop _ r w1) as [w2 [e|]]; simpl in *; congruence.
Qed.

Lemma close_writers_loop_h_files keys r w :
  h_files (fst (close_writers_loop keys r w)) = h_files w.
Proof.
  revert w. induction keys as [|k keys IH]; intros w; simpl; [reflexivity|].
  destruct (writers r !! k) as [cw|]; [|apply IH].
  destruct (csv_error cw (csv_flush cw w)); [apply csv_flush_h_files|].
  rewrite IH. apply csv_flush_h_files.
Qed.

Lemma close_buffers_loop_h_files keys r w :
  h_files (fst (close_buffers_loop keys r w)) = h_files w.
Proof.
  revert w. induction keys as [|k keys IH]; intros w; simpl; [reflexivity|].
  destruct (buffers r !! k) as [buf|]; [|apply IH].
  pose proof (bufio_flush_h_files buf w) as Hb.
  destruct (bufio_flush buf w) as [w1 [e|]]; simpl in *; [exact Hb|].
  rewrite IH. exact Hb.
Qed.

Lemma close_files_loop_mono keys r w : files_mono w (fst (close_files_loop keys r w)).
Proof.
  revert w. induction keys as [|k keys IH]; intros w; simpl; [apply files_mono_refl|].
  destruct (files r !! k) as [file|]; [|apply IH].
  pose proof (file_close_mono file w) as Hc.
  destruct (file_close file w) as [w1 [e|]]; simpl in *; [exact Hc|].
  eapply files_mono_trans; [exact Hc|apply IH].
Qed.

(** [Close] hands back the recorder as it was, or emptied. *)
Lemma Close_cases st :
  files_mono (snd st) (snd (fst (Close st)))
  /\ ((fst (fst (Close st)) = fst st /\ is_Some (snd (Close st)))
      \/ (fst (fst (Close st)) = mkRecorder (baseDir (fst st)) ∅ ∅ ∅ (bufferSize (fst st))
          /\ snd (Close st) = None)).
Proof.
  destruct st as [r w]. unfold Close.
  pose proof (next_order_h_files w) as Hn1.
  destruct (next_order w) as [o1 w1].
  pose proof (close_writers_loop_h_files (range_keys (writers r) o1) r w1) as H1.
  destruct (close_writers_loop _ r w1) as [w2 [e|]]; simpl in *.
  { split; [apply files_mono_same; congruence|]. left. eauto. }
  pose proof (next_order_h_files w2) as Hn2.
  destruct (next_order w2) as [o2 w3].
  pose proof (close_buffers_loop_h_files (range_keys (buffers r) o2) r w3) as H2.
  destruct (close_buffers_loop _ r w3) as [w4 [e|]]; simpl in *.
  { split; [apply files_mono_same; congruence|]. left. eauto. }
  pose proof (next_order_h_files w4) as Hn3.
  destruct (next_order w4) as [o3 w5].
  pose proof (close_files_loop_mono (range_keys (files r) o3) r w5) as H3.
  assert (Hm : files_mono w w5) by (apply files_mono_same; simpl in *; congruence).
  destruct (close_files_loop _ r w5) as [w6 [e|]]; simpl in *.
  - split; [eapply files_mono_trans; eassumption|]. left. eauto.
  - split; [eapply files_mono_trans; eassumption|]. right. auto.
Qed.

Lemma inv_empty baseDir bs w : inv (mkRecorder baseDir ∅ ∅ ∅ bs, w).
Proof.
  split; [|split].
  - intros k. simpl. rewrite !lookup_empty. split; split; intros [? ?]; discriminate.
  - intros k l Hl. simpl in Hl. rewrite lookup_empty in Hl. discriminate.
  - intros t ts1 ts2 _ _ Ho. exfalso. unfold is_open in Ho. simpl in Ho.
    rewrite !lookup_empty in Ho. destruct Ho as [[? ?]|[[? ?]|[? ?]]]; discriminate.
Qed.

Lemma reachable_inv `{Strconv} st : reachable st -> inv st.
Proof.
  induction 1 as [baseDir w|d st _ IH Hwf|ds st _ IH Hall|st _ IH|st _ IH|fs dirs flt sch st _ IH].
  - apply inv_empty.
  - apply Record_inv; assumption.
  - apply RecordBatch_inv; assumption.
  - pose proof (Flush_fst st) as Hf. pose proof (Flush_mono st) as Hm.
    destruct (Flush st) as [[r' w'] e]. simpl in *. subst r'.
    destruct st as [r w]. eapply inv_world; eassumption.
  - destruct (Close_cases st) as (Hm & [[Hf _]|[Hf _]]);
      destruct (Close st) as [[r' w'] e]; simpl in *; subst r'.
    + destruct st as [r w]. eapply inv_world; eassumption.
    + apply inv_empty.
  - destruct st as [r w]. unfold environment. simpl.
    eapply inv_world; [|exact IH]. apply files_mono_same. reflexivity.
Qed.

End ReachFacts.

Import ReachFacts.

Module RotationFacts.

(** Resolving a partition of a ticker leaves no other partition of the
    ticker open, and the file of the one that was open closed. *)
Lemma getWriter_rotates t ts ts' l st :
  inv st -> wf_time ts = true -> wf_time ts' = true ->
  key_of t ts' <> key_of t ts -> files (fst st) !! key_of t ts' = Some l ->
  ~ is_open (key_of t ts') (fst (fst (getWriter t ts st)))
  /\ closed_in l (snd (fst (getWriter t ts st))).
Proof.
  intros (Hs & Hv & Ho) Hwf Hwf' Hne Hl.
  assert (Hopen' : is_open (key_of t ts') (fst st)) by (right; left; eauto).
  destruct (writers (fst st) !! key_of t ts) as [cw|] eqn:Hw.
  { exfalso. apply Hne. apply Ho; try assumption. left. eauto. }
  destruct (getWriter t ts st) as [st' res] eqn:Hg.
  destruct (getWriter_new _ _ _ _ _ Hw Hg) as (Hm & Hcase). simpl.
  split.
  - pose proof (rotated_evicts t ts st ts' Hs Hne) as Hgone.
    destruct Hcase as [[-> _]|(file & buffer & _ & -> & _)]; [exact Hgone|].
    rewrite is_open_register. intros [E|Hopen]; [exact (Hne E)|exact (Hgone Hopen)].
  - eapply closed_in_mono; [exact Hm|]. eapply rotated_closes; eassumption.
Qed.

(** A successful [getWriter] leaves the partition registered with the
    writer it returns. *)
Lemma getWriter_registered t ts st st' cw :
  getWriter t ts st = (st', inl cw) -> writers (fst st') !! key_of t ts = Some cw.
Proof.
  intros Hg. destruct (writers (fst st) !! key_of t ts) as [cw0|] eqn:Hw.
  - rewrite (getWriter_open _ _ _ _ Hw) in Hg. injection Hg as <- <-. exact Hw.
  - destruct (getWriter_new _ _ _ _ _ Hw Hg) as (_ & [[_ [e He]]|(file & buffer & He & -> & _)]).
    + discriminate He.
    + injection He as ->. simpl. apply lookup_insert_eq.
Qed.

(** A successful [Record] was written with the writer [getWriter] returned,
    which stays registered. *)
Lemma Record_ok `{Strconv} d st st' :
  Record_ d st = (st', None) ->
  exists cw, snd (getWriter (Ticker d) (Timestamp d) st) = inl cw
             /\ fst st' = fst (fst (getWriter (Ticker d) (Timestamp d) st))
             /\ csv_write cw (record_of d) (snd (fst (getWriter (Ticker d) (Timestamp d) st)))
                = (snd st', None)
             /\ writers (fst st') !! key_of (Ticker d) (Timestamp d) = Some cw.
Proof.
  unfold Record_. intros Hr.
  destruct (getWriter (Ticker d) (Timestamp d) st) as [st1 [cw|e]] eqn:Hg; [|discriminate].
  destruct (csv_write cw (record_of d) (snd st1)) as [w2 [e|]] eqn:Hc; [discriminate|].
  injection Hr as <-. exists cw. simpl. repeat split; try reflexivity.
  - exact Hc.
  - eapply getWriter_registered. exact Hg.
Qed.

Lemma key_of_same_hour t ts1 ts2 : same_hour ts1 ts2 -> key_of t ts1 = key_of t ts2.
Proof.
  intros (Hy & Hm & Hd & Hh). unfold key_of, format_date, format_hour.
  rewrite Hy, Hm, Hd, Hh. reflexivity.
Qed.

Lemma key_of_other_hour t ts1 ts2 :
  wf_time ts1 = true -> wf_time ts2 = true ->
  key_of t ts1 = key_of t ts2 -> same_hour ts1 ts2.
Proof.
  intros H1 H2 Heq. apply key_of_inj in Heq as (_ & Hd & Hh); try assumption.
  apply format_date_inj in Hd as (? & ? & ?); try assumption.
  apply format_hour_inj in Hh. repeat split; assumption.
Qed.

End RotationFacts.

Import RotationFacts.


Module StreamFacts.

Lemma file_write_ok l rows w w' :
  file_write l rows w = (w', None) ->
  exists f, h_files w !! l = Some f /\ h_files w' = h_files w /\ h_bufs w' = h_bufs w
            /\ fs_files w' = <[f_path f := default [] (fs_files w !! f_path f) ++ rows]> (fs_files w).
Proof.
  unfold file_write. destruct (h_files w !! l) as [f|]; [|discriminate].
  destruct (f_closed f); [discriminate|]. destruct (decide _); [discriminate|].
  intros [= <-]. exists f. auto.
Qed.

(** A flush that succeeds empties the buffer into the file: the stream is
    the same. *)
Lemma bufio_flush_ok l w w' :
  bufio_flush l w = (w', None) ->
  exists b, h_bufs w !! l = Some b /\ b_err b = None
            /\ h_bufs w' !! l = Some (mkBufWriter (b_wr b) [] None)
            /\ h_files w' = h_files w
            /\ stream_at l w' = stream_at l w.
Proof.
  unfold bufio_flush. destruct (h_bufs w !! l) as [b|] eqn:Hb; [|discriminate].
  destruct (b_err b) eqn:He; [discriminate|].
  destruct (b_buf b) as [|r rows] eqn:Hbuf.
  - intros [= <-]. exists b. repeat split; try assumption.
    rewrite Hb. destruct b; simpl in *; congruence.
  - destruct (file_write (b_wr b) (r :: rows) w) as [w1 [e|]] eqn:Hw; [discriminate|].
    intros [= <-]. apply file_write_ok in Hw as (f & Hf & Hhf & Hhb & Hfs).
    exists b. simpl. repeat split; try assumption.
    + apply lookup_insert_eq.
    + unfold stream_at. simpl. rewrite lookup_insert_eq, Hb. simpl.
      rewrite Hhf, Hf, Hfs, lookup_insert_eq, Hbuf. simpl. rewrite List.app_nil_r. reflexivity.
Qed.

(** A write that succeeds appends the record to the stream. *)
Lemma bufio_write_ok l row w w' :
  bufio_write l row w = (w', None) -> stream_at l w' = stream_at l w ++ [row].
Proof.
  unfold bufio_write. destruct (h_bufs w !! l) as [b|] eqn:Hb; [|discriminate].
  destruct (b_err b) eqn:He; [discriminate|].
  destruct (_ <=? _).
  - intros [= <-]. unfold stream_at. simpl. rewrite lookup_insert_eq, Hb. simpl.
    destruct (h_files w !! b_wr b); [rewrite List.app_assoc|]; reflexivity.
  - destruct (bufio_flush l w) as [w1 [e|]] eqn:Hfl; [discriminate|].
    apply bufio_flush_ok in Hfl as (b' & Hb' & _ & Hb1 & Hhf1 & Hst).
    assert (b' = b) by congruence. subst b'. rewrite <- Hst.
    destruct (_ <=? _).
    + intros [= <-]. unfold stream_at. simpl. rewrite lookup_insert_eq, Hb1. simpl.
      destruct (h_files w1 !! b_wr b); [rewrite List.app_nil_r|]; reflexivity.
    + destruct (file_write (b_wr b) [row] w1) as [w2 [e|]] eqn:Hw; [discriminate|].
      intros [= <-]. apply file_write_ok in Hw as (f & Hf & Hhf & Hhb & Hfs).
      unfold stream_at. rewrite Hhb, Hb1. simpl. rewrite Hhf, Hf, Hfs, lookup_insert_eq.
      rewrite !List.app_nil_r. reflexivity.
Qed.

End StreamFacts.

Import StreamFacts.


Module FlushFacts.

(** What a flush leaves at the buffer it flushed: empty, unless under an
    error. *)
Lemma bufio_flush_post l w b :
  h_bufs (fst (bufio_flush l w)) !! l = Some b -> b_err b = None -> b_buf b = [].
Proof.
  unfold bufio_flush. destruct (h_bufs w !! l) as [b0|] eqn:Hb; simpl; [|congruence].
  destruct (b_err b0) eqn:He; simpl; [congruence|].
  destruct (b_buf b0) as [|r rows] eqn:Hbuf; simpl; [congruence|].
  pose proof (file_write_h_bufs (b_wr b0) (r :: rows) w) as Hh.
  destruct (file_write (b_wr b0) (r :: rows) w) as [w1 [e|]]; simpl;
    rewrite lookup_insert_eq; intros [= <-]; simpl; [discriminate|reflexivity].
Qed.

(** A flushed buffer stays flushed through the flush of any buffer. *)
Lemma bufio_flush_keeps_flushed l cw w :
  flushed cw w -> flushed cw (fst (bufio_flush l w)).
Proof.
  intros (b & Hb & Hbuf & He). unfold bufio_flush.
  destruct (h_bufs w !! l) as [b0|] eqn:Hb0; [|exists b; auto].
  destruct (b_err b0) eqn:He0; [exists b; auto|].
  destruct (b_buf b0) as [|r rows] eqn:Hbuf0; [exists b; auto|].
  assert (Hne : l <> cw_w cw) by (intros ->; congruence).
  pose proof (file_write_h_bufs (b_wr b0) (r :: rows) w) as Hh.
  destruct (file_write (b_wr b0) (r :: rows) w) as [w1 [e|]]; simpl in *;
    exists b; simpl; rewrite lookup_insert_ne by assumption; rewrite Hh; auto.
Qed.

Lemma csv_flush_flushes cw w :
  csv_error cw (csv_flush cw w) = None -> flushed cw (csv_flush cw w).
Proof.
  unfold csv_error, csv_flush. intros He.
  destruct (h_bufs (fst (bufio_flush (cw_w cw) w)) !! cw_w cw) as [b|] eqn:Hb; [|discriminate].
  exists b. split; [exact Hb|]. split; [|exact He].
  eapply bufio_flush_post; eassumption.
Qed.

Lemma flushed_emit cw e w : flushed cw w -> flushed cw (emit e w).
Proof. intros H. exact H. Qed.

Lemma flush_loop_keeps_flushed keys r w cw :
  flushed cw w -> flushed cw (fst (flush_loop keys r w)).
Proof.
  revert w. induction keys as [|k keys IH]; intros w Hfl; simpl; [exact Hfl|].
  destruct (writers r !! k) as [cw0|]; [|apply IH, Hfl].
  pose proof (bufio_flush_keeps_flushed (cw_w cw0) cw w Hfl) as H1.
  fold (csv_flush cw0 w) in H1.
  destruct (csv_error cw0 (csv_flush cw0 w)); [exact H1|].
  assert (H2 : flushed cw (fst (match buffers r !! k with
                                | Some buf => bufio_flush buf (csv_flush cw0 w)
                                | None => (csv_flush cw0 w, None) end))).
  { destruct (buffers r !! k); [apply bufio_flush_keeps_flushed|]; exact H1. }
  destruct (match buffers r !! k with Some buf => _ | None => _ end) as [w2 [e|]];
    simpl in *; [exact H2|]. apply IH. exact H2.
Qed.

(** A loop that reports no error has flushed every writer it visited. *)
Lemma flush_loop_ok keys r w w' k cw :
  flush_loop keys r w = (w', None) -> k ∈ keys -> writers r !! k = Some cw ->
  flushed cw w'.
Proof.
  revert w. induction keys as [|k0 keys IH]; intros w Hloop Hin Hw; [inversion Hin|].
  simpl in Hloop.
  destruct (writers r !! k0) as [cw0|] eqn:Hw0.
  2:{ apply elem_of_cons in Hin as [->|Hin]; [congruence|]. eapply IH; eassumption. }
  destruct (csv_error cw0 (csv_flush cw0 w)) eqn:He; [discriminate|].
  pose proof (csv_flush_flushes cw0 w He) as Hfl0.
  assert (Hkeep : forall c, flushed c (csv_flush cw0 w) ->
            flushed c (fst (match buffers r !! k0 with
                            | Some buf => bufio_flush buf (csv_flush cw0 w)
                            | None => (csv_flush cw0 w, None) end))).
  { intros c Hc. destruct (buffers r !! k0); [apply bufio_flush_keeps_flushed|]; exact Hc. }
  destruct (match buffers r !! k0 with Some buf => _ | None => _ end) as [w2 [e|]];
    [discriminate|]. simpl in Hkeep.
  apply elem_of_cons in Hin as [->|Hin].
  - assert (cw0 = cw) by congruence. subst cw0.
    replace w' with (fst (flush_loop keys r (log (LogFlushed k0) w2)))
      by (rewrite Hloop; reflexivity).
    apply flush_loop_keeps_flushed. apply Hkeep, Hfl0.
  - eapply IH; eassumption.
Qed.

(** A loop that reports an error stopped at the key of the error: the keys
    before it were flushed without error, and the keys after it play no
    part in the result. *)
Lemma flush_loop_stops keys r w w' e :
  flush_loop keys r w = (w', Some e) ->
  exists pre k post e0,
    keys = pre ++ k :: post
    /\ snd (flush_loop pre r w) = None
    /\ flush_loop (pre ++ [k]) r w = (w', Some e)
    /\ (e = ErrWrap ("failed to flush writer for " +:+ k) e0
        \/ e = ErrWrap ("failed to flush buffer for " +:+ k) e0).
Proof.
  revert w. induction keys as [|k0 keys IH]; intros w Hloop; [discriminate|].
  simpl in Hloop.
  destruct (writers r !! k0) as [cw0|] eqn:Hw0.
  2:{ destruct (IH _ Hloop) as (pre & k & post & e0 & -> & Hpre & Hk & He).
      exists (k0 :: pre), k, post, e0. simpl. rewrite Hw0. auto. }
  destruct (csv_error cw0 (csv_flush cw0 w)) as [err|] eqn:He.
  { injection Hloop as <- <-. exists [], k0, keys, err. simpl. rewrite Hw0, He. auto. }
  destruct (match buffers r !! k0 with Some buf => _ | None => _ end) as [w2 [err|]] eqn:Hb.
  { injection Hloop as <- <-. exists [], k0, keys, err. simpl. rewrite Hw0, He, Hb. auto. }
  destruct (IH _ Hloop) as (pre & k & post & e0 & -> & Hpre & Hk & Herr).
  exists (k0 :: pre), k, post, e0. simpl. rewrite Hw0, He, Hb. auto.
Qed.

Lemma next_order_fst w : fst (next_order w) = hd [] (sched w).
Proof. unfold next_order. destruct (sched w); reflexivity. Qed.

Lemma Flush_eq st :
  Flush st
  = match flush_loop (flush_order st) (fst st) (flush_start st) with
    | (w, Some err) => ((fst st, w), Some err)
    | (w, None) => ((fst st, log LogAllFlushed w), None)
    end.
Proof.
  destruct st as [r w]. unfold Flush, flush_order, flush_start. simpl.
  rewrite <- (next_order_fst w). unfold next_order. simpl.
  destruct (sched w); reflexivity.
Qed.

End FlushFacts.

Import FlushFacts.


Module CloseFacts.

Lemma close_writers_loop_keeps_flushed keys r w cw :
  flushed cw w -> flushed cw (fst (close_writers_loop keys r w)).
Proof.
  revert w. induction keys as [|k keys IH]; intros w Hfl; simpl; [exact Hfl|].
  destruct (writers r !! k) as [cw0|]; [|apply IH, Hfl].
  pose proof (bufio_flush_keeps_flushed (cw_w cw0) cw w Hfl) as H1.
  fold (csv_flush cw0 w) in H1.
  destruct (csv_error cw0 (csv_flush cw0 w)); [exact H1|]. apply IH, H1.
Qed.

Lemma close_writers_loop_ok keys r w w' k cw :
  close_writers_loop keys r w = (w', None) -> k ∈ keys -> writers r !! k = Some cw ->
  flushed cw w'.
Proof.
  revert w. induction keys as [|k0 keys IH]; intros w Hloop Hin Hw; [inversion Hin|].
  simpl in Hloop.
  destruct (writers r !! k0) as [cw0|] eqn:Hw0.
  2:{ apply elem_of_cons in Hin as [->|Hin]; [congruence|]. eapply IH; eassumption. }
  destruct (csv_error cw0 (csv_flush cw0 w)) eqn:He; [discriminate|].
  apply elem_of_cons in Hin as [->|Hin].
  - assert (cw0 = cw) by congruence. subst cw0.
    replace w' with (fst (close_writers_loop keys r (csv_flush cw w)))
      by (rewrite Hloop; reflexivity).
    apply close_writers_loop_keeps_flushed, csv_flush_flushes, He.
  - eapply IH; eassumption.
Qed.

Lemma close_buffers_loop_keeps_flushed keys r w cw :
  flushed cw w -> flushed cw (fst (close_buffers_loop keys r w)).
Proof.
  revert w. induction keys as [|k keys IH]; intros w Hfl; simpl; [exact Hfl|].
  destruct (buffers r !! k) as [buf|]; [|apply IH, Hfl].
  pose proof (bufio_flush_keeps_flushed buf cw w Hfl) as H1.
  destruct (bufio_flush buf w) as [w1 [e|]]; simpl in *; [exact H1|]. apply IH, H1.
Qed.

Lemma file_close_h_bufs l w : h_bufs (fst (file_close l w)) = h_bufs w.
Proof.
  unfold file_close. destruct (h_files w !! l) as [f|]; [|reflexivity].
  destruct (f_closed f); [reflexivity|]. destruct (decide _); reflexivity.
Qed.

Lemma close_files_loop_h_bufs keys r w : h_bufs (fst (close_files_loop keys r w)) = h_bufs w.
Proof.
  revert w. induction keys as [|k keys IH]; intros w; simpl; [reflexivity|].
  destruct (files r !! k) as [file|]; [|apply IH].
  pose proof (file_close_h_bufs file w) as Hc.
  destruct (file_close file w) as [w1 [e|]]; simpl in *; [exact Hc|].
  rewrite IH. exact Hc.
Qed.

(** A loop over the files that reports no error has closed every file it
    visited. *)
Lemma close_files_loop_ok keys r w w' k l :
  close_files_loop keys r w = (w', None) -> k ∈ keys -> files r !! k = Some l ->
  closed_in l w'.
Proof.
  revert w. induction keys as [|k0 keys IH]; intros w Hloop Hin Hl; [inversion Hin|].
  simpl in Hloop.
  destruct (files r !! k0) as [file|] eqn:Hf0.
  2:{ apply elem_of_cons in Hin as [->|Hin]; [congruence|]. eapply IH; eassumption. }
  destruct (file_close file w) as [w1 [e|]] eqn:Hc; [discriminate|].
  apply elem_of_cons in Hin as [->|Hin].
  - assert (file = l) by congruence. subst file.
    apply file_close_ok in Hc.
    replace w' with (fst (close_files_loop keys r w1)) by (rewrite Hloop; reflexivity).
    eapply closed_in_mono; [apply close_files_loop_mono|exact Hc].
  - eapply IH; eassumption.
Qed.

Lemma flushed_same_bufs cw w w' : h_bufs w' = h_bufs w -> flushed cw w -> flushed cw w'.
Proof. intros Heq (b & Hb & H). exists b. rewrite Heq. auto. Qed.

End CloseFacts.

Import CloseFacts.


Module StopFacts.
Section WithCollaborators.
Context {R W : Type} `{SpreadRecorder R} `{WebSocketClient W}.

Lemma stop_rest_spec (cs : CollectorService R W) :
  snd (stop_rest cs) = Returned None
  /\ history (fst (stop_rest cs))
     = history cs
       ++ [CancelContext; Logged LogFinalFlush; FinalFlush]
       ++ logged_error LogFinalFlushError (snd (sr_Flush (spreadRecorder cs)))
       ++ [Logged LogClosingWebSocket; CloseSource]
       ++ logged_error LogWebSocketCloseError (snd (ws_Close (wsClient cs)))
       ++ [Logged LogClosingRecorder; CloseWriter]
       ++ logged_error LogRecorderCloseError
            (snd (sr_Close (fst (sr_Flush (spreadRecorder cs)))))
       ++ [Logged LogStopped]
  /\ spreadRecorder (fst (stop_rest cs)) = fst (sr_Close (fst (sr_Flush (spreadRecorder cs))))
  /\ wsClient (fst (stop_rest cs)) = fst (ws_Close (wsClient cs))
  /\ ctx_cancelled (fst (stop_rest cs)) = true.
Proof.
  unfold stop_rest, recorder_Flush, wsClient_Close, recorder_Close. simpl.
  destruct (sr_Flush (spreadRecorder cs)) as [r1 [e1|]]; simpl;
    destruct (ws_Close (wsClient cs)) as [c2 [e2|]]; simpl;
    destruct (sr_Close r1) as [r3 [e3|]]; simpl;
    repeat split; rewrite <- ?List.app_assoc; reflexivity.
Qed.

(** A [Stop] on a service not stopped before runs to its end. *)
Lemma Stop_completes (cs : CollectorService R W) :
  not_stopped cs ->
  snd (Stop cs) = Returned None
  /\ history (fst (Stop cs)) = history cs ++ stop_steps cs
  /\ spreadRecorder (fst (Stop cs)) = fst (sr_Close (fst (sr_Flush (spreadRecorder cs))))
  /\ wsClient (fst (Stop cs)) = fst (ws_Close (wsClient cs))
  /\ ctx_cancelled (fst (Stop cs)) = true.
Proof.
  intros Hns. unfold Stop, stop_steps. simpl.
  destruct (flushTicker cs) as [tk|] eqn:Htk.
  - destruct Hns as [Hns|Hns]; [congruence|].
    unfold close_stopFlush. simpl. rewrite Hns.
    match goal with |- context [stop_rest ?c] =>
      destruct (stop_rest_spec c) as (Ho & Hh & Hr & Hw & Hc) end.
    simpl in *. rewrite Ho, Hh, Hr, Hw, Hc. repeat split.
    rewrite <- !List.app_assoc. reflexivity.
  - match goal with |- context [stop_rest ?c] =>
      destruct (stop_rest_spec c) as (Ho & Hh & Hr & Hw & Hc) end.
    simpl in *. rewrite Ho, Hh, Hr, Hw, Hc. repeat split.
    rewrite <- !List.app_assoc. reflexivity.
Qed.

(** A [Stop] on a started service stopped before panics on the stop
    channel, after the timer and before the cancellation. *)
Lemma Stop_again (cs : CollectorService R W) :
  ~ not_stopped cs ->
  snd (Stop cs) = Panicked "close of closed channel"
  /\ history (fst (Stop cs)) = history cs ++ [Logged LogStopping; StopTimer].
Proof.
  intros Hns. unfold Stop. simpl.
  destruct (flushTicker cs) as [tk|] eqn:Htk.
  - unfold close_stopFlush. simpl.
    destruct (stopFlush_closed cs) eqn:Hc.
    + simpl. split; [reflexivity|]. rewrite <- List.app_assoc. reflexivity.
    + exfalso. apply Hns. right. exact Hc.
  - exfalso. apply Hns. left. exact Htk.
Qed.

Lemma shutdown_steps_stop_steps (cs : CollectorService R W) :
  shutdown_steps (stop_steps cs)
  = (match flushTicker cs with Some _ => [StopTimer] | None => [] end)
    ++ [CancelContext; FinalFlush; CloseSource; CloseWriter].
Proof.
  unfold stop_steps.
  destruct (flushTicker cs); destruct (snd (sr_Flush (spreadRecorder cs)));
    destruct (snd (ws_Close (wsClient cs)));
    destruct (snd (sr_Close (fst (sr_Flush (spreadRecorder cs))))); reflexivity.
Qed.

Lemma not_stopped_dec (cs : CollectorService R W) : not_stopped cs \/ ~ not_stopped cs.
Proof.
  unfold not_stopped. destruct (flushTicker cs); destruct (stopFlush_closed cs); auto.
  right. intros [?|?]; discriminate.
Qed.

End WithCollaborators.
End StopFacts.

Import StopFacts.


Module OrderFacts.

Lemma ascii_compare_refl c : Ascii.compare c c = Eq.
Proof. unfold Ascii.compare. apply N.compare_refl. Qed.

Lemma compare_refl s : String.compare s s = Eq.
Proof. induction s as [|c s IH]; simpl; [reflexivity|]. rewrite ascii_compare_refl. exact IH. Qed.

Lemma compare_cons c s s' : String.compare (String c s) (String c s') = String.compare s s'.
Proof. simpl. rewrite ascii_compare_refl. reflexivity. Qed.

Lemma digit_char_compare d e :
  0 <= d < 10 -> 0 <= e < 10 -> Ascii.compare (digit_char d) (digit_char e) = (d ?= e).
Proof.
  intros Hd He. unfold Ascii.compare. rewrite !digit_char_code by assumption.
  rewrite (Z2N.inj_compare (48 + d) (48 + e)) by lia. apply Z.add_compare_mono_l.
Qed.

Lemma fixed_digits_compare_mod n : forall u v s s',
  String.compare (fixed_digits n u +:+ s) (fixed_digits n v +:+ s')
  = match u mod 10 ^ Z.of_nat n ?= v mod 10 ^ Z.of_nat n with
    | Eq => String.compare s s'
    | c => c
    end.
Proof.
  induction n as [|n IH]; intros u v s s'.
  - simpl. rewrite !Z.mod_1_r. reflexivity.
  - cbn [fixed_digits]. rewrite !app_cons. cbn [String.compare].
    assert (Hp : 0 < 10 ^ Z.of_nat n) by (apply Z.pow_pos_nonneg; lia).
    rewrite Nat2Z.inj_succ, Z.pow_succ_r by lia.
    set (p := 10 ^ Z.of_nat n) in *.
    pose proof (Z.mod_pos_bound (u / p) 10 ltac:(lia)) as Bdu.
    pose proof (Z.mod_pos_bound (v / p) 10 ltac:(lia)) as Bdv.
    pose proof (Z.mod_pos_bound u p Hp) as Bu. pose proof (Z.mod_pos_bound v p Hp) as Bv.
    rewrite digit_char_compare by assumption. rewrite IH. fold p.
    rewrite (Z.mul_comm 10 p), !(Z.rem_mul_r _ p 10) by lia.
    set (du := (u / p) mod 10) in *. set (dv := (v / p) mod 10) in *.
    set (ru := u mod p) in *. set (rv := v mod p) in *.
    clearbody du dv ru rv p.
    destruct (Z.compare_spec du dv) as [Hd|Hd|Hd].
    + subst dv. destruct (Z.compare_spec ru rv) as [Hr|Hr|Hr];
        destruct (Z.compare_spec (ru + p * du) (rv + p * du)); try reflexivity; lia.
    + destruct (Z.compare_spec (ru + p * du) (rv + p * dv)); try reflexivity; nia.
    + destruct (Z.compare_spec (ru + p * du) (rv + p * dv)); try reflexivity; nia.
Qed.

(** Fields of the same width compare as their values, and the texts after
    them only count when the fields are equal. *)
Lemma fixed_digits_compare n u v s s' :
  0 <= u < 10 ^ Z.of_nat n -> 0 <= v < 10 ^ Z.of_nat n ->
  String.compare (fixed_digits n u +:+ s) (fixed_digits n v +:+ s')
  = match u ?= v with Eq => String.compare s s' | c => c end.
Proof.
  intros Hu Hv. rewrite fixed_digits_compare_mod. rewrite !Z.mod_small by assumption.
  reflexivity.
Qed.

End OrderFacts.

Module CalendarFacts.

Lemma days_in_month_le y m : 28 <= days_in_month y m <= 31.
Proof.
  unfold days_in_month.
  repeat match goal with |- context [if ?b then _ else _] => destruct b end; lia.
Qed.

Lemma days_from_civil_sum y m d :
  days_from_civil y m d
  = year_days (if m <=? 2 then y - 1 else y)
    + (153 * (if m <=? 2 then m + 9 else m - 3) + 2) / 5 + d - 719469.
Proof.
  unfold days_from_civil, year_days. generalize (if m <=? 2 then y - 1 else y). intros z.
  generalize ((153 * (if m <=? 2 then m + 9 else m - 3) + 2) / 5). intros k.
  Z.div_mod_to_equations. lia.
Qed.

Ltac month_cases m :=
  let H := fresh in
  assert (H : m = 1 \/ m = 2 \/ m = 3 \/ m = 4 \/ m = 5 \/ m = 6 \/ m = 7 \/ m = 8
              \/ m = 9 \/ m = 10 \/ m = 11 \/ m = 12) by lia;
  destruct H as [->|[->|[->|[->|[->|[->|[->|[->|[->|[->|[->| ->]]]]]]]]]]].

(** Evaluates the tests and the quotient on a month that is a numeral. *)
Ltac month_calc :=
  repeat match goal with
         | |- context [?a <=? 2] => let v := eval vm_compute in (a <=? 2) in change (a <=? 2) with v
         | H : context [?a =? ?b] |- _ =>
             let v := eval vm_compute in (a =? b) in
             lazymatch v with true => idtac | false => idtac end;
             change (a =? b) with v in H
         | |- context [(153 * ?x + 2) / 5] =>
             let v := eval vm_compute in ((153 * x + 2) / 5) in
             change ((153 * x + 2) / 5) with v
         end;
  cbv iota in *; cbn [orb andb negb] in *.

Ltac leap_cases y :=
  unfold days_in_month, is_leap in *;
  destruct (Z.eqb_spec (y mod 4) 0); destruct (Z.eqb_spec (y mod 100) 0);
  destruct (Z.eqb_spec (y mod 400) 0); cbn [orb andb negb] in *.

(** Within a year the day count grows with the month. *)
Lemma days_from_civil_month y m d m' d' :
  1 <= m -> m < m' -> m' <= 12 -> 1 <= d <= days_in_month y m -> 1 <= d' ->
  days_from_civil y m d < days_from_civil y m' d'.
Proof.
  intros H1 H2 H3 Hd Hd'. rewrite !days_from_civil_sum. unfold year_days.
  month_cases m; month_cases m'; try lia;
    leap_cases y; month_calc; Z.div_mod_to_equations; lia.
Qed.

(** It grows with the year. *)
Lemma days_from_civil_year y m d y' m' d' :
  y < y' -> 1 <= m <= 12 -> 1 <= m' <= 12 -> 1 <= d <= days_in_month y m -> 1 <= d' ->
  days_from_civil y m d < days_from_civil y' m' d'.
Proof.
  intros Hy Hm Hm' Hd Hd'. rewrite !days_from_civil_sum. unfold year_days.
  assert (Hlast : year_days (if m <=? 2 then y - 1 else y)
                  + (153 * (if m <=? 2 then m + 9 else m - 3) + 2) / 5 + d
                  <= year_days y + 306).
  { unfold year_days. month_cases m; leap_cases y; month_calc;
      Z.div_mod_to_equations; lia. }
  assert (Hfirst : year_days (y' - 1) + 306
                   <= year_days (if m' <=? 2 then y' - 1 else y')
                      + (153 * (if m' <=? 2 then m' + 9 else m' - 3) + 2) / 5).
  { unfold year_days. month_cases m'; month_calc; Z.div_mod_to_equations; lia. }
  assert (Hmono : year_days y <= year_days (y' - 1)).
  { unfold year_days. Z.div_mod_to_equations. lia. }
  unfold year_days in *. lia.
Qed.

End CalendarFacts.

Import OrderFacts CalendarFacts.

Module SortFacts.

Lemma wf_time_day t : wf_time t = true -> 1 <= t_day t <= days_in_month (t_year t) (t_month t).
Proof.
  unfold wf_time. rewrite !andb_true_iff, !Z.leb_le. tauto.
Qed.

Lemma lex_Lt c1 c2 : lex c1 c2 = Lt <-> c1 = Lt \/ (c1 = Eq /\ c2 = Lt).
Proof. destruct c1, c2; simpl; intuition congruence. Qed.

(** The date and clock order is the order of the seconds. *)
Lemma civil_compare_Lt t u :
  wf_time t = true -> wf_time u = true -> civil_compare t u = Lt ->
  civil_seconds t < civil_seconds u.
Proof.
  intros Ht Hu Hc.
  pose proof (wf_time_day t Ht) as Dt. pose proof (wf_time_day u Hu) as Du.
  apply wf_time_spec in Ht, Hu. unfold civil_compare in Hc. unfold civil_seconds.
  rewrite !lex_Lt in Hc. rewrite !Z.compare_lt_iff, !Z.compare_eq_iff in Hc.
  destruct Hc as [Hy|[Hy [Hm|[Hm Hc]]]].
  - pose proof (days_from_civil_year (t_year t) (t_month t) (t_day t)
                  (t_year u) (t_month u) (t_day u)). lia.
  - rewrite <- Hy in *.
    pose proof (days_from_civil_month (t_year t) (t_month t) (t_day t) (t_month u) (t_day u)).
    lia.
  - rewrite !days_from_civil_sum. rewrite <- Hy, <- Hm.
    generalize (year_days (if t_month t <=? 2 then t_year t - 1 else t_year t)).
    generalize ((153 * (if t_month t <=? 2 then t_month t + 9 else t_month t - 3) + 2) / 5).
    intros k z. lia.
Qed.

Lemma civil_compare_antisym t u : civil_compare u t = CompOpp (civil_compare t u).
Proof.
  unfold civil_compare.
  rewrite (Z.compare_antisym (t_year t)), (Z.compare_antisym (t_month t)),
    (Z.compare_antisym (t_day t)), (Z.compare_antisym (t_hour t)),
    (Z.compare_antisym (t_minute t)), (Z.compare_antisym (t_second t)).
  destruct (t_year t ?= t_year u), (t_month t ?= t_month u), (t_day t ?= t_day u),
    (t_hour t ?= t_hour u), (t_minute t ?= t_minute u), (t_second t ?= t_second u);
    reflexivity.
Qed.

Lemma civil_compare_Eq t u : civil_compare t u = Eq -> same_second t u.
Proof.
  unfold civil_compare, same_second, same_hour.
  destruct (Z.compare_spec (t_year t) (t_year u)); simpl; try discriminate.
  destruct (Z.compare_spec (t_month t) (t_month u)); simpl; try discriminate.
  destruct (Z.compare_spec (t_day t) (t_day u)); simpl; try discriminate.
  destruct (Z.compare_spec (t_hour t) (t_hour u)); simpl; try discriminate.
  destruct (Z.compare_spec (t_minute t) (t_minute u)); simpl; try discriminate.
  destruct (Z.compare_spec (t_second t) (t_second u)); simpl; try discriminate.
  auto.
Qed.

Lemma unix_nano_civil t :
  unix_nano t = (civil_seconds t - t_offset t) * 1000000000 + t_nsec t.
Proof. reflexivity. Qed.

(** With one offset, two times that differ by the second are in the order
    of their dates and clocks. *)
Lemma before_civil_compare t u :
  wf_time t = true -> wf_time u = true -> t_offset t = t_offset u ->
  civil_compare t u <> Eq ->
  before t u = match civil_compare t u with Lt => true | _ => false end.
Proof.
  intros Ht Hu Hoff Hne. unfold before. rewrite !unix_nano_civil, Hoff.
  pose proof (wf_time_spec t Ht) as St. pose proof (wf_time_spec u Hu) as Su.
  destruct (civil_compare t u) eqn:Hc; [congruence| |].
  - apply civil_compare_Lt in Hc; try assumption. apply Z.ltb_lt. lia.
  - assert (Hc' : civil_compare u t = Lt) by (rewrite civil_compare_antisym, Hc; reflexivity).
    apply civil_compare_Lt in Hc'; try assumption. apply Z.ltb_ge. lia.
Qed.

Lemma sep_app c s : String c "" +:+ s = String c s.
Proof. reflexivity. Qed.

(** The texts of two times with four-digit years compare as their dates
    and clocks, and as their fractions and zones within one second. *)
Lemma format_compare t u :
  wf_time t = true -> wf_time u = true ->
  0 <= t_year t <= 9999 -> 0 <= t_year u <= 9999 ->
  String.compare (format_RFC3339Nano t) (format_RFC3339Nano u)
  = lex (civil_compare t u)
        (String.compare (appendNano (t_nsec t) +:+ format_zone (t_offset t))
                        (appendNano (t_nsec u) +:+ format_zone (t_offset u))).
Proof.
  intros Ht Hu Yt Yu. apply wf_time_spec in Ht, Hu.
  unfold format_RFC3339Nano, civil_compare.
  rewrite !(appendInt_small _ 4) by (simpl; lia).
  rewrite !two_digits by lia.
  rewrite !sep_app.
  rewrite fixed_digits_compare by (simpl; lia).
  destruct (t_year t ?= t_year u); try reflexivity. simpl lex. rewrite compare_cons.
  rewrite fixed_digits_compare by (simpl; lia).
  destruct (t_month t ?= t_month u); try reflexivity. simpl lex. rewrite compare_cons.
  rewrite fixed_digits_compare by (simpl; lia).
  destruct (t_day t ?= t_day u); try reflexivity. simpl lex. rewrite compare_cons.
  rewrite fixed_digits_compare by (simpl; lia).
  destruct (t_hour t ?= t_hour u); try reflexivity. simpl lex. rewrite compare_cons.
  rewrite fixed_digits_compare by (simpl; lia).
  destruct (t_minute t ?= t_minute u); try reflexivity. simpl lex. rewrite compare_cons.
  rewrite fixed_digits_compare by (simpl; lia).
  destruct (t_second t ?= t_second u); reflexivity.
Qed.

End SortFacts.

Import SortFacts.

Module ParseFacts.

(** Two strings that begin with heads of the same length agree part by
    part. *)
Lemma app_inj_head_len a a' s s' :
  String.length a = String.length a' -> a +:+ s = a' +:+ s' -> a = a' /\ s = s'.
Proof.
  revert a'. induction a as [|c a IH]; intros [|c' a'] Hlen Heq; try discriminate Hlen.
  - auto.
  - rewrite !app_cons in Heq. injection Heq as -> Heq. simpl in Hlen.
    destruct (IH a' ltac:(lia) Heq) as [-> ->]. auto.
Qed.

Lemma trim_zeros_split s : exists z, all_chars is_zero z /\ s = trim_zeros s +:+ z.
Proof.
  induction s as [|c s (z & Hz & IH)]; [exists ""; simpl; auto|].
  cbn [trim_zeros]. destruct (Ascii.eqb c "0" && String.eqb (trim_zeros s) "") eqn:E.
  - apply andb_true_iff in E as [Ec Et]. apply String.eqb_eq in Et.
    rewrite Et in IH. rewrite app_nil_l in IH. subst s.
    exists (String c z). simpl. auto.
  - exists z. split; [exact Hz|]. rewrite app_cons. f_equal. exact IH.
Qed.

Lemma zeros_eq z z' :
  all_chars is_zero z -> all_chars is_zero z' -> String.length z = String.length z' -> z = z'.
Proof.
  revert z'. induction z as [|c z IH]; intros [|c' z'] Hz Hz' Hlen; try discriminate Hlen.
  - reflexivity.
  - simpl in Hz, Hz'. destruct Hz as [Hc Hz]. destruct Hz' as [Hc' Hz'].
    apply Ascii.eqb_eq in Hc, Hc'. subst. f_equal. apply IH; auto.
Qed.

Lemma trim_zeros_inj s s' :
  String.length s = String.length s' -> trim_zeros s = trim_zeros s' -> s = s'.
Proof.
  intros Hlen Heq. destruct (trim_zeros_split s) as (z & Hz & Hs).
  destruct (trim_zeros_split s') as (z' & Hz' & Hs').
  rewrite Hs, Hs', Heq. f_equal. apply zeros_eq; try assumption.
  rewrite Hs, Hs', Heq, !length_app in Hlen. lia.
Qed.

Lemma all_chars_trim_zeros P s : all_chars P s -> all_chars P (trim_zeros s).
Proof.
  induction s as [|c s IH]; simpl; [auto|]. intros [Hc Hs].
  destruct (Ascii.eqb c "0" && String.eqb (trim_zeros s) ""); simpl; auto.
Qed.

Lemma nine_digits n : 0 <= n < 1000000000 -> appendInt n 9 = fixed_digits 9 n.
Proof. intros Hn. apply appendInt_small; [lia|]. simpl. lia. Qed.

(** The fraction of a non-zero nanosecond count: the dot and the digits
    without their trailing zeros, at least one. *)
Lemma appendNano_nonzero n :
  0 < n < 1000000000 ->
  exists d, appendNano n = String "." d /\ d = trim_zeros (fixed_digits 9 n) /\ d <> "".
Proof.
  intros Hn. unfold appendNano. destruct (Z.eqb_spec n 0); [lia|].
  rewrite nine_digits by lia. rewrite sep_app. cbn [trim_zeros]. simpl andb.
  assert (Hne : trim_zeros (fixed_digits 9 n) <> "").
  { intros Hempty. destruct (trim_zeros_split (fixed_digits 9 n)) as (z & Hz & Hs).
    rewrite Hempty, app_nil_l in Hs.
    assert (Hz0 : fixed_digits 9 n = fixed_digits 9 0).
    { apply zeros_eq.
      - rewrite Hs. exact Hz.
      - simpl. repeat split.
      - rewrite !fixed_digits_length. reflexivity. }
    apply fixed_digits_inj in Hz0; simpl; lia. }
  exists (trim_zeros (fixed_digits 9 n)). split; [|auto].
  destruct (trim_zeros (fixed_digits 9 n)) as [|c d]; [congruence|]. reflexivity.
Qed.

Lemma appendNano_inj n n' :
  0 <= n < 1000000000 -> 0 <= n' < 1000000000 -> appendNano n = appendNano n' -> n = n'.
Proof.
  intros Hn Hn' Heq.
  destruct (Z.eq_dec n 0) as [->|Hnz]; destruct (Z.eq_dec n' 0) as [->|Hnz'].
  - reflexivity.
  - destruct (appendNano_nonzero n' ltac:(lia)) as (d & Hd & _). rewrite Hd in Heq.
    discriminate Heq.
  - destruct (appendNano_nonzero n ltac:(lia)) as (d & Hd & _). rewrite Hd in Heq.
    discriminate Heq.
  - destruct (appendNano_nonzero n ltac:(lia)) as (d & Hd & Hd2 & _).
    destruct (appendNano_nonzero n' ltac:(lia)) as (d' & Hd' & Hd2' & _).
    rewrite Hd, Hd' in Heq. injection Heq as Heq. rewrite Hd2, Hd2' in Heq.
    apply trim_zeros_inj in Heq; [|rewrite !fixed_digits_length; reflexivity].
    apply fixed_digits_inj in Heq; simpl; lia.
Qed.

Lemma is_digit_is_digit_or_dot c : is_digit c = true -> is_digit_or_dot c = true.
Proof. unfold is_digit_or_dot. intros ->. reflexivity. Qed.

Lemma appendNano_chars n : 0 <= n < 1000000000 -> all_chars is_digit_or_dot (appendNano n).
Proof.
  intros Hn. destruct (Z.eq_dec n 0) as [->|Hnz]; [exact I|].
  destruct (appendNano_nonzero n ltac:(lia)) as (d & -> & -> & _).
  cbn [all_chars]. split; [reflexivity|]. apply all_chars_trim_zeros.
  eapply all_chars_impl; [apply is_digit_is_digit_or_dot|apply fixed_digits_all_digits].
Qed.

(** The zone begins with a character that is neither a digit nor a dot. *)
Lemma format_zone_head o :
  exists c r, format_zone o = String c r /\ is_digit_or_dot c = false.
Proof.
  unfold format_zone. destruct (o =? 0); [exists "Z"%char, ""; auto|].
  destruct (_ <? 0); rewrite sep_app; eexists _, _; split; reflexivity.
Qed.

Lemma format_zone_inj o o' :
  -86400 < o < 86400 -> o mod 60 = 0 -> -86400 < o' < 86400 -> o' mod 60 = 0 ->
  format_zone o = format_zone o' -> o = o'.
Proof.
  intros Ho Hm Ho' Hm' Heq. unfold format_zone in Heq.
  assert (Hq : forall x, x mod 60 = 0 -> x = 60 * Z.quot x 60).
  { intros x Hx. apply Z.mod_divide in Hx; [|lia]. destruct Hx as [k ->].
    rewrite Z.quot_mul by lia. lia. }
  pose proof (Hq o Hm) as Eo. pose proof (Hq o' Hm') as Eo'.
  set (z := Z.quot o 60) in *. set (z' := Z.quot o' 60) in *.
  assert (Hz : 0 <= Z.abs z < 1440) by lia. assert (Hz' : 0 <= Z.abs z' < 1440) by lia.
  pose proof (Z.quot_rem' (Z.abs z) 60) as Qz. pose proof (Z.quot_rem' (Z.abs z') 60) as Qz'.
  pose proof (Z.rem_bound_pos (Z.abs z) 60 ltac:(lia) ltac:(lia)) as Rz.
  pose proof (Z.rem_bound_pos (Z.abs z') 60 ltac:(lia) ltac:(lia)) as Rz'.
  pose proof (Z.quot_pos (Z.abs z) 60 ltac:(lia) ltac:(lia)) as Pz.
  pose proof (Z.quot_pos (Z.abs z') 60 ltac:(lia) ltac:(lia)) as Pz'.
  destruct (Z.eqb_spec o 0) as [->|Hnz]; destruct (Z.eqb_spec o' 0) as [->|Hnz'].
  - reflexivity.
  - destruct (z' <? 0); discriminate Heq.
  - destruct (z <? 0); discriminate Heq.
  - assert (Hs : (z <? 0) = (z' <? 0)).
    { destruct (z <? 0), (z' <? 0); try reflexivity; discriminate Heq. }
    assert (Hrest : appendInt (Z.quot (Z.abs z) 60) 2 +:+ ":" +:+ appendInt (Z.rem (Z.abs z) 60) 2
                    = appendInt (Z.quot (Z.abs z') 60) 2 +:+ ":" +:+ appendInt (Z.rem (Z.abs z') 60) 2).
    { destruct (z <? 0), (z' <? 0); try discriminate Hs;
        rewrite !sep_app in Heq; injection Heq as Heq; exact Heq. }
    apply app_inj_head_len in Hrest as [Hh Hrest];
      [|rewrite !two_digits_length by lia; reflexivity].
    rewrite !sep_app in Hrest. injection Hrest as Hmm.
    apply appendInt_inj in Hh, Hmm.
    assert (Habs : Z.abs z = Z.abs z') by lia.
    destruct (Z.ltb_spec z 0), (Z.ltb_spec z' 0); try discriminate Hs; lia.
Qed.

(** The year is read back from the text up to the dash that follows it. *)
Lemma year_inj y y' r r' :
  appendInt y 4 +:+ String "-" r = appendInt y' 4 +:+ String "-" r' -> y = y' /\ r = r'.
Proof.
  intros Heq.
  assert (Hshape : forall x, exists c d, fixed_digits (Nat.max 4 (ndigits (Z.abs x))) (Z.abs x)
                                          = String c d /\ is_digit c = true
                                          /\ all_chars is_digit (String c d)).
  { intros x. destruct (fixed_digits_head (Nat.max 4 (ndigits (Z.abs x))) (Z.abs x) ltac:(lia))
      as (c & d & E & Hc).
    exists c, d. split; [exact E|]. split; [exact Hc|]. rewrite <- E.
    apply fixed_digits_all_digits. }
  assert (Hdash : is_digit "-" = false) by reflexivity.
  assert (Hsame : forall D D', all_chars is_digit D -> all_chars is_digit D' ->
            D +:+ String "-" r = D' +:+ String "-" r' -> D = D' /\ r = r').
  { intros D D' HD HD' E. apply (split_run is_digit) in E as [-> E]; try assumption.
    injection E as ->. auto. }
  unfold appendInt in Heq |- *.
  destruct (Hshape y) as (c & d & E & Hc & Hall). destruct (Hshape y') as (c' & d' & E' & Hc' & Hall').
  assert (Hinj : forall a b, appendInt a 4 = appendInt b 4 -> a = b) by (intros; eapply appendInt_inj; eauto).
  unfold appendInt in Hinj.
  destruct (Z.ltb_spec y 0) as [Hy|Hy]; destruct (Z.ltb_spec y' 0) as [Hy'|Hy'].
  - rewrite !app_assoc, !sep_app in Heq. injection Heq as Heq.
    rewrite E, E' in Heq. apply Hsame in Heq as [Hd ->]; try assumption.
    split; [|reflexivity]. apply Hinj.
    destruct (Z.ltb_spec y 0); [|lia]. destruct (Z.ltb_spec y' 0); [|lia].
    rewrite E, E', Hd. reflexivity.
  - rewrite !app_assoc, sep_app, app_nil_l, E' in Heq. rewrite app_cons in Heq.
    injection Heq as <- _. discriminate Hc'.
  - rewrite !app_assoc, sep_app, app_nil_l, E in Heq. rewrite app_cons in Heq.
    injection Heq as -> _. discriminate Hc.
  - rewrite !app_nil_l in Heq. rewrite E, E' in Heq.
    apply Hsame in Heq as [Hd ->]; try assumption.
    split; [|reflexivity]. apply Hinj.
    destruct (Z.ltb_spec y 0); [lia|]. destruct (Z.ltb_spec y' 0); [lia|].
    rewrite !app_nil_l, E, E', Hd. reflexivity.
Qed.

(** The text determines the time. *)
Lemma format_RFC3339Nano_inj t u :
  wf_time t = true -> wf_time u = true ->
  format_RFC3339Nano t = format_RFC3339Nano u -> t = u.
Proof.
  intros Ht Hu Heq. apply wf_time_spec in Ht, Hu. unfold format_RFC3339Nano in Heq.
  rewrite !sep_app in Heq.
  apply year_inj in Heq as [Hy Heq].
  apply app_inj_head_len in Heq as [Hmo Heq]; [|rewrite !two_digits_length by lia; reflexivity].
  injection Heq as Heq.
  apply app_inj_head_len in Heq as [Hd Heq]; [|rewrite !two_digits_length by lia; reflexivity].
  injection Heq as Heq.
  apply app_inj_head_len in Heq as [Hh Heq]; [|rewrite !two_digits_length by lia; reflexivity].
  injection Heq as Heq.
  apply app_inj_head_len in Heq as [Hmi Heq]; [|rewrite !two_digits_length by lia; reflexivity].
  injection Heq as Heq.
  apply app_inj_head_len in Heq as [Hs Heq]; [|rewrite !two_digits_length by lia; reflexivity].
  apply appendInt_inj in Hmo, Hd, Hh, Hmi, Hs.
  destruct (format_zone_head (t_offset t)) as (c & r & Ez & Hc).
  destruct (format_zone_head (t_offset u)) as (c' & r' & Ez' & Hc').
  rewrite Ez, Ez' in Heq.
  apply (split_run is_digit_or_dot) in Heq as [Hn Hz]; try assumption;
    try (apply appendNano_chars; lia).
  rewrite <- Ez, <- Ez' in Hz.
  apply appendNano_inj in Hn; [|lia|lia].
  apply format_zone_inj in Hz; try lia.
  destruct t, u. simpl in *. congruence.
Qed.

End ParseFacts.

Import ParseFacts.

(* ===================================================================== *)
(** * The model at work                                                   *)
(* ===================================================================== *)

Module Examples.

Example appendInt_ex :
  appendInt 7 2 = "07" /\ appendInt 2025 4 = "2025" /\ appendInt (-5) 4 = "-0005"
  /\ appendInt 12345 4 = "12345" /\ Itoa 0 = "0" /\ Itoa (-21) = "-21".
Proof. repeat split; reflexivity. Qed.

Example format_ex :
  format_date half_past_noon = "20251118" /\ format_hour half_past_noon = "12"
  /\ format_RFC3339Nano half_past_noon = "2025-11-18T12:00:00.5Z"
  /\ format_RFC3339Nano (mkTime 2025 11 18 12 0 0 0 (-19800)) = "2025-11-18T12:00:00-05:30"
  /\ unix_nano (mkTime 1970 1 1 0 0 0 0 0) = 0
  /\ unix_nano noon = 1763467200 * 1000000000.
Proof. repeat split; vm_compute; reflexivity. Qed.

(** Bid 1.100005 with four decimals is written 1.1000; 1.005 is the double
    just below it, and with two decimals is written 1.00; 2.5 with no
    decimal is written 2. *)
Example rounding_ex `{Strconv} :
  FormatFloat (roundPrice (of_ratio 1100005 1000000) 4) 4 = "1.1000"
  /\ FormatFloat (roundPrice (of_ratio 1005 1000) 2) 2 = "1.00"
  /\ FormatFloat (roundPrice (of_ratio 150003 1000) 2) 2 = "150.00"
  /\ FormatFloat (of_ratio 5 2) 0 = "2"
  /\ FormatFloat (of_ratio (-1) 1000) 2 = "-0.00".
Proof. repeat split; vm_compute; reflexivity. Qed.

(** Record one observation of EURUSD, Flush, Close: the file holds the
    header and the record, it is closed, and the recorder is empty. *)
Example record_flush_close `{Strconv} :
  let st := fst (Close (fst (Flush (fst (Record_ eurusd_at_three new_recorder))))) in
  fs_files (snd st) !! "data/20251118/EURUSD_15.csv"
    = Some [header;
            ["2025-11-18T15:00:00Z"; "21"; "EURUSD"; "FxSpot"; "1.1000"; "1.1000"; "0.0000"]]
  /\ h_files (snd st) !! 1%positive = Some (mkOsFile "data/20251118/EURUSD_15.csv" true)
  /\ writers (fst st) = ∅ /\ files (fst st) = ∅ /\ buffers (fst st) = ∅.
Proof. repeat split; vm_compute; reflexivity. Qed.

(** A batch over two series in one hour opens two partitions. *)
Example batch_two_series `{Strconv} :
  let st := fst (RecordBatch [audusd_noon; usdjpy_noon; audusd_noon] new_recorder) in
  is_Some (writers (fst st) !! "AUDUSD_20251118_12")
  /\ is_Some (writers (fst st) !! "USDJPY_20251118_12")
  /\ size (writers (fst st)) = 2%nat.
Proof. repeat split; vm_compute; eauto. Qed.

End Examples.

(* ===================================================================== *)
(** * The properties of the recorder                                      *)
(* ===================================================================== *)

(** C1. In every state a recorder reaches through Record, RecordBatch,
    Flush and Close, whatever the environment does in between, at most one
    partition per series identifier is open; and resolving another
    partition of a series removes the one that was open from the three maps
    and closes its file before getWriter returns. *)
Theorem one_triple_per_series `{Strconv} (st : St) :
  reachable st ->
  (forall t ts1 ts2, wf_time ts1 = true -> wf_time ts2 = true ->
     is_open (key_of t ts1) (fst st) -> is_open (key_of t ts2) (fst st) ->
     key_of t ts1 = key_of t ts2)
  /\ (forall t ts ts' l, wf_time ts = true -> wf_time ts' = true ->
        key_of t ts' <> key_of t ts -> files (fst st) !! key_of t ts' = Some l ->
        ~ is_open (key_of t ts') (fst (fst (getWriter t ts st)))
        /\ closed_in l (snd (fst (getWriter t ts st)))).
Proof.
  intros Hreach. pose proof (reachable_inv st Hreach) as Hinv.
  split; [apply Hinv|].
  intros t ts ts' l Hwf Hwf' Hne Hl. apply getWriter_rotates; assumption.
Qed.


Lemma one_triple_per_series_witness :
  files (fst (fst (Record_ (H := no_shortest) eurusd_noon new_recorder))) !! key_of "EURUSD" noon
    = Some 1%positive
  /\ ~ is_open (key_of "EURUSD" noon)
        (fst (fst (getWriter "EURUSD" one_pm
                     (fst (Record_ (H := no_shortest) eurusd_noon new_recorder)))))
  /\ closed_in 1%positive
        (snd (fst (getWriter "EURUSD" one_pm
                     (fst (Record_ (H := no_shortest) eurusd_noon new_recorder))))).
Proof.
  split; [vm_compute; reflexivity|].
  apply (one_triple_per_series (H := no_shortest)).
  - apply reach_Record; [apply reach_new|reflexivity].
  - reflexivity.
  - reflexivity.
  - vm_compute. discriminate.
  - vm_compute. reflexivity.
Defined.

(** C6. Two observations of one series in the same hour of the same date
    have the same partition key and the same file, and once the first has
    been recorded, resolving the second returns the writer the first was
    written with and leaves the recorder and the world as they are.  Two
    observations of one series in different hours have different keys, and
    resolving the second removes the first's partition from the maps and
    closes its file. *)
Theorem partition_identity_and_hourly_boundary `{Strconv} (d1 d2 : PriceData) (st st1 : St) :
  Ticker d1 = Ticker d2 ->
  wf_time (Timestamp d1) = true -> wf_time (Timestamp d2) = true ->
  reachable st ->
  Record_ d1 st = (st1, None) ->
  (same_hour (Timestamp d1) (Timestamp d2) ->
     key_of (Ticker d1) (Timestamp d1) = key_of (Ticker d2) (Timestamp d2)
     /\ partition_path (baseDir (fst st)) (Ticker d1) (Timestamp d1)
        = partition_path (baseDir (fst st)) (Ticker d2) (Timestamp d2)
     /\ exists cw, snd (getWriter (Ticker d1) (Timestamp d1) st) = inl cw
                   /\ getWriter (Ticker d2) (Timestamp d2) st1 = (st1, inl cw))
  /\ (~ same_hour (Timestamp d1) (Timestamp d2) ->
        key_of (Ticker d1) (Timestamp d1) <> key_of (Ticker d2) (Timestamp d2)
        /\ exists l, files (fst st1) !! key_of (Ticker d1) (Timestamp d1) = Some l
                     /\ ~ is_open (key_of (Ticker d1) (Timestamp d1))
                          (fst (fst (getWriter (Ticker d2) (Timestamp d2) st1)))
                     /\ closed_in l (snd (fst (getWriter (Ticker d2) (Timestamp d2) st1)))).
Proof.
  intros Ht Hwf1 Hwf2 Hreach Hrec.
  destruct (Record_ok _ _ _ Hrec) as (cw & Hcw & Hfst & _ & Hreg).
  assert (Hinv1 : inv st1).
  { replace st1 with (fst (Record_ d1 st)) by (rewrite Hrec; reflexivity).
    apply Record_inv; [assumption|]. apply reachable_inv, Hreach. }
  rewrite <- Ht. split.
  - intros Hsame. pose proof (key_of_same_hour (Ticker d1) _ _ Hsame) as Hk.
    split; [exact Hk|]. split.
    { destruct Hsame as (Hy & Hm & Hd & Hh).
      unfold partition_path, format_date, format_hour. rewrite Hy, Hm, Hd, Hh. reflexivity. }
    exists cw. split; [exact Hcw|].
    apply getWriter_open. rewrite <- Hk. exact Hreg.
  - intros Hdiff.
    assert (Hne : key_of (Ticker d1) (Timestamp d1) <> key_of (Ticker d1) (Timestamp d2)).
    { intros Hk. apply Hdiff. exact (key_of_other_hour _ _ _ Hwf1 Hwf2 Hk). }
    split; [exact Hne|].
    pose proof Hinv1 as (Hs & _ & _).
    destruct (proj1 (proj1 (Hs (key_of (Ticker d1) (Timestamp d1)))) ltac:(eauto)) as [l Hl].
    exists l. split; [exact Hl|].
    exact (getWriter_rotates _ _ _ _ _ Hinv1 Hwf2 Hwf1 Hne Hl).
Qed.

Lemma partition_identity_and_hourly_boundary_witness :
  key_of "EURUSD" (Timestamp eurusd_before_three) <> key_of "EURUSD" (Timestamp eurusd_at_three)
  /\ exists l,
       files (fst (fst (Record_ (H := no_shortest) eurusd_before_three new_recorder)))
         !! key_of "EURUSD" (Timestamp eurusd_before_three) = Some l
       /\ ~ is_open (key_of "EURUSD" (Timestamp eurusd_before_three))
            (fst (fst (getWriter "EURUSD" (Timestamp eurusd_at_three)
                         (fst (Record_ (H := no_shortest) eurusd_before_three new_recorder)))))
       /\ closed_in l
            (snd (fst (getWriter "EURUSD" (Timestamp eurusd_at_three)
                         (fst (Record_ (H := no_shortest) eurusd_before_three new_recorder))))).
Proof.
  apply (partition_identity_and_hourly_boundary (H := no_shortest)
           eurusd_before_three eurusd_at_three new_recorder
           (fst (Record_ (H := no_shortest) eurusd_before_three new_recorder))).
  - reflexivity.
  - reflexivity.
  - reflexivity.
  - apply reach_new.
  - vm_compute. reflexivity.
  - intros (_ & _ & _ & Hh). vm_compute in Hh. discriminate Hh.
Defined.

(** C7. The header is the row of the seven column names.  A Record that
    succeeds on a partition that is already open appends its record and
    nothing else to the partition's stream.  A Record that succeeds on a
    partition it has to open leaves the stream holding the header followed
    by its record when the file did not exist, and the file's content
    followed by its record, without a header, when the file existed. *)
Theorem header_written_once `{Strconv} (d : PriceData) (st st' : St) :
  Record_ d st = (st', None) ->
  String.concat "," header = "timestamp,uic,ticker,asset_type,bid,ask,spread"
  /\ exists cw,
       writers (fst st') !! key_of (Ticker d) (Timestamp d) = Some cw
       /\ match writers (fst st) !! key_of (Ticker d) (Timestamp d) with
          | Some cw0 =>
              cw = cw0 /\ stream_of cw (snd st') = stream_of cw (snd st) ++ [record_of d]
          | None =>
              match fs_files (snd (rotated (Ticker d) (Timestamp d) st))
                      !! partition_path (baseDir (fst st)) (Ticker d) (Timestamp d) with
              | Some content => stream_of cw (snd st') = content ++ [record_of d]
              | None => stream_of cw (snd st') = [header; record_of d]
              end
          end.
Proof.
  intros Hrec. split; [reflexivity|].
  destruct (Record_ok _ _ _ Hrec) as (cw & Hcw & Hfst & Hwr & Hreg).
  exists cw. split; [exact Hreg|].
  apply bufio_write_ok in Hwr. fold (stream_of cw (snd st')) in Hwr.
  destruct (writers (fst st) !! key_of (Ticker d) (Timestamp d)) as [cw0|] eqn:Hw.
  - rewrite (getWriter_open _ _ _ _ Hw) in Hcw, Hwr. simpl in Hcw, Hwr.
    injection Hcw as <-. split; [reflexivity|exact Hwr].
  - destruct (getWriter (Ticker d) (Timestamp d) st) as [st1 res] eqn:Hg.
    destruct (getWriter_new _ _ _ _ _ Hw Hg) as (_ & [[_ [e He]]|(file & buffer & He & _ & Hf & Hb & Hfs)]);
      simpl in Hcw; subst res; [discriminate|].
    injection He as ->. simpl in Hwr. rewrite Hwr.
    unfold stream_at. simpl. rewrite Hb. simpl. rewrite Hf. simpl. rewrite Hfs. simpl.
    destruct (fs_files _ !! _) as [content|]; simpl; [rewrite List.app_nil_r|]; reflexivity.
Qed.

Lemma header_written_once_witness :
  exists cw,
    writers (fst (fst (Record_ (H := no_shortest) eurusd_noon new_recorder)))
      !! key_of "EURUSD" noon = Some cw
    /\ stream_of cw (snd (fst (Record_ (H := no_shortest) eurusd_noon new_recorder)))
       = [header; record_of (H := no_shortest) eurusd_noon].
Proof.
  apply (header_written_once (H := no_shortest) eurusd_noon new_recorder
           (fst (Record_ (H := no_shortest) eurusd_noon new_recorder))).
  vm_compute. reflexivity.
Defined.







(** C2, on the code: the test of the cleanup loop compares prefixes of
    keys, so recording for the series EUR evicts the open partition of the
    series EURUSD and closes its file. *)
Theorem cleanup_evicts_prefixed_series `{Strconv} :
  is_old_key "EUR" (key_of "EUR" noon) (key_of "EURUSD" noon) = true
  /\ is_open (key_of "EURUSD" noon) (fst (fst (Record_ eurusd_noon new_recorder)))
  /\ snd (Record_ eur_noon (fst (Record_ eurusd_noon new_recorder))) = None
  /\ ~ is_open (key_of "EURUSD" noon)
       (fst (fst (Record_ eur_noon (fst (Record_ eurusd_noon new_recorder)))))
  /\ closed_in 1%positive
       (snd (fst (Record_ eur_noon (fst (Record_ eurusd_noon new_recorder))))).
Proof.
  split; [reflexivity|]. split; [left; vm_compute; eauto|].
  split; [vm_compute; reflexivity|]. split.
  - unfold is_open. vm_compute. intros [[? ?]|[[? ?]|[? ?]]]; discriminate.
  - eexists. split; vm_compute; reflexivity.
Qed.

(** C5, on the code: with precision 0 roundPrice hands the price back as
    it is, and FormatFloat then prints it with no fractional digit, rounded
    to an integer: the observation of the recorder's own test, bid 1.10000,
    ask 1.10002 and spread 0.00002 with no Decimals, is written as 1, 1
    and 0. *)
Theorem zero_precision_rounds_to_integer `{Strconv} :
  roundPrice (Bid eurusd_noon) (Decimals eurusd_noon) = Bid eurusd_noon
  /\ Bid eurusd_noon = SpecFloat.S754_finite false 4953959590107546 (-52)
  /\ record_of eurusd_noon
     = ["2025-11-18T12:00:00Z"; "21"; "EURUSD"; "FxSpot"; "1"; "1"; "0"]
  /\ FormatFloat (of_ratio 3 2) 0 = "2".
Proof. repeat split; vm_compute; reflexivity. Qed.




(* ===================================================================== *)
(** * The properties of the collector service                             *)
(* ===================================================================== *)






(* ===================================================================== *)
(** * The wiring of the recorder's objects                                *)
(* ===================================================================== *)

Module WiringFacts.

Lemma bufs_mono_refl w : bufs_mono w w.
Proof. intros l b Hb. exists b. auto. Qed.

Lemma bufs_mono_trans w1 w2 w3 : bufs_mono w1 w2 -> bufs_mono w2 w3 -> bufs_mono w1 w3.
Proof.
  intros H12 H23 l b Hb. destruct (H12 _ _ Hb) as (b2 & Hb2 & Hw2).
  destruct (H23 _ _ Hb2) as (b3 & Hb3 & Hw3). exists b3. split; [assumption|congruence].
Qed.

Lemma bufs_mono_same w w' : h_bufs w' = h_bufs w -> bufs_mono w w'.
Proof. intros Heq l b Hb. exists b. rewrite Heq. auto. Qed.

Lemma bufs_mono_insert l b0 wr buf err w w' :
  h_bufs w !! l = Some b0 -> wr = b_wr b0 ->
  h_bufs w' = <[l := mkBufWriter wr buf err]> (h_bufs w) -> bufs_mono w w'.
Proof.
  intros Hl -> Heq l' b Hb. rewrite Heq. destruct (decide (l = l')) as [->|Hne].
  - rewrite lookup_insert_eq. eexists. split; [reflexivity|]. simpl. congruence.
  - rewrite lookup_insert_ne by assumption. exists b. auto.
Qed.

Lemma bufio_flush_bufs_mono l w : bufs_mono w (fst (bufio_flush l w)).
Proof.
  unfold bufio_flush. destruct (h_bufs w !! l) as [b|] eqn:Hb; [|apply bufs_mono_refl].
  destruct (b_err b); [apply bufs_mono_refl|].
  destruct (b_buf b) as [|r rows]; [apply bufs_mono_refl|].
  pose proof (file_write_h_bufs (b_wr b) (r :: rows) w) as Hh.
  destruct (file_write (b_wr b) (r :: rows) w) as [w1 [e|]]; simpl in *;
    (eapply bufs_mono_trans; [apply bufs_mono_same; exact Hh|]);
    eapply bufs_mono_insert; try reflexivity; rewrite Hh; exact Hb.
Qed.

Lemma bufio_write_bufs_mono l row w : bufs_mono w (fst (bufio_write l row w)).
Proof.
  unfold bufio_write. destruct (h_bufs w !! l) as [b|] eqn:Hb; [|apply bufs_mono_refl].
  destruct (b_err b); [apply bufs_mono_refl|].
  destruct (_ <=? _).
  { simpl. eapply bufs_mono_insert; [exact Hb|reflexivity|reflexivity]. }
  pose proof (bufio_flush_bufs_mono l w) as Hf.
  destruct (bufio_flush l w) as [w1 [e|]]; [exact Hf|]. simpl in Hf.
  destruct (Hf _ _ Hb) as (b1 & Hb1 & Hw1).
  destruct (_ <=? _).
  { simpl. eapply bufs_mono_trans; [exact Hf|].
    eapply bufs_mono_insert; [exact Hb1|symmetry; exact Hw1|reflexivity]. }
  pose proof (file_write_h_bufs (b_wr b) [row] w1) as Hh.
  destruct (file_write (b_wr b) [row] w1) as [w2 [e|]]; simpl in *.
  - eapply bufs_mono_trans; [exact Hf|].
    eapply bufs_mono_trans; [apply bufs_mono_same; exact Hh|].
    eapply bufs_mono_insert; [rewrite Hh; exact Hb1|symmetry; exact Hw1|reflexivity].
  - eapply bufs_mono_trans; [exact Hf|]. apply bufs_mono_same. exact Hh.
Qed.

Lemma csv_flush_bufs_mono cw w : bufs_mono w (csv_flush cw w).
Proof. apply bufio_flush_bufs_mono. Qed.

Lemma close_old_bufs_mono k cw st : bufs_mono (snd st) (snd (close_old k cw st)).
Proof.
  destruct st as [r w]. unfold close_old. simpl.
  set (w1 := csv_flush cw w).
  set (w2 := match csv_error cw w1 with Some err => log (LogWarnFlushWriter k err) w1 | None => w1 end).
  assert (H2 : bufs_mono w w2).
  { subst w2. destruct (csv_error cw w1); simpl; apply csv_flush_bufs_mono. }
  set (w3 := match buffers r !! k with
             | Some buf => let '(w', res) := bufio_flush buf w2 in
                           match res with Some err => log (LogWarnFlushBuffer k err) w' | None => w' end
             | None => w2 end).
  assert (H3 : bufs_mono w w3).
  { subst w3. destruct (buffers r !! k) as [buf|]; [|exact H2].
    pose proof (bufio_flush_bufs_mono buf w2) as Hb.
    destruct (bufio_flush buf w2) as [w' [e|]]; simpl in *;
      eapply bufs_mono_trans; eassumption. }
  apply bufs_mono_trans with w3; [assumption|].
  match goal with
  | |- bufs_mono _ (log _ ?w4) =>
      apply bufs_mono_trans with w4; [|apply bufs_mono_same; reflexivity]
  end.
  destruct (files r !! k) as [file|]; [|apply bufs_mono_refl].
  pose proof (file_close_h_bufs file w3) as Hc.
  destruct (file_close file w3) as [w' [e|]]; apply bufs_mono_same; exact Hc.
Qed.

Lemma cleanup_loop_bufs_mono t key keys st :
  bufs_mono (snd st) (snd (cleanup_loop t key keys st)).
Proof.
  revert st. induction keys as [|k keys IH]; intros st; simpl; [apply bufs_mono_refl|].
  destruct (writers (fst st) !! k) as [cw|]; [|apply IH].
  destruct (is_old_key t key k); [|apply IH].
  eapply bufs_mono_trans; [apply close_old_bufs_mono|apply IH].
Qed.

Lemma rotated_bufs_mono t ts st : bufs_mono (snd st) (snd (rotated t ts st)).
Proof.
  rewrite rotated_eq. eapply bufs_mono_trans; [|apply cleanup_loop_bufs_mono].
  apply bufs_mono_same. simpl. apply next_order_h_bufs.
Qed.


Lemma bufio_new_bufs_mono file w : bufs_mono w (fst (bufio_new file w)).
Proof.
  unfold bufio_new. simpl. intros l b Hb. exists b. split; [|reflexivity].
  simpl. rewrite lookup_insert_ne; [exact Hb|].
  intros Heq. pose proof (is_fresh (dom (h_bufs w))) as Hfr.
  rewrite Heq in Hfr. apply Hfr. apply elem_of_dom. eauto.
Qed.

Lemma getWriter_new_bufs t ts st st' res :
  writers (fst st) !! key_of t ts = None -> getWriter t ts st = (st', res) ->
  bufs_mono (snd (rotated t ts st)) (snd st').
Proof.
  intros Hw Hg. unfold getWriter in Hg. fold (key_of t ts) in Hg. rewrite Hw in Hg.
  unfold rotated.
  destruct (next_order (snd st)) as [ord w0].
  destruct (cleanup_loop t (key_of t ts) (range_keys (writers (fst st)) ord) (fst st, w0))
    as [r1 w1]. simpl snd.
  destruct (MkdirAll _ _) as [w2 res2] eqn:E2.
  apply MkdirAll_fields in E2 as (_ & Hb2 & _). simpl in Hb2.
  destruct res2 as [err|].
  { injection Hg as <- <-. apply bufs_mono_same. exact Hb2. }
  destruct (Stat _ _) as [w3 fileExists] eqn:E3.
  apply Stat_fields in E3 as (_ & Hb3 & _).
  destruct (OpenFile _ _) as [w4 [file|err]] eqn:E4.
  2:{ injection Hg as <- <-. unfold OpenFile in E4. destruct (decide _); [|discriminate].
      injection E4 as <- _. apply bufs_mono_same. simpl. congruence. }
  apply OpenFile_ok in E4 as (_ & _ & Hb4 & _). simpl in Hb4.
  pose proof (bufio_new_bufs_mono file w4) as Hm5.
  destruct (bufio_new file w4) as [w5 buffer] eqn:E5. simpl in Hm5.
  apply bufio_new_fields in E5 as (Hb5 & _ & _).
  assert (Hm : bufs_mono w1 w5).
  { eapply bufs_mono_trans; [|exact Hm5]. apply bufs_mono_same. congruence. }
  assert (Hbuf5 : h_bufs w5 !! buffer = Some (mkBufWriter file [] None)).
  { rewrite Hb5. apply lookup_insert_eq. }
  destruct fileExists.
  - injection Hg as <- <-. exact Hm.
  - rewrite (csv_write_header_fresh _ _ _ Hbuf5) in Hg. injection Hg as <- <-. simpl.
    eapply bufs_mono_trans; [exact Hm|].
    eapply bufs_mono_insert; [exact Hbuf5|reflexivity|reflexivity].
Qed.

Lemma getWriter_bufs_mono t ts st : bufs_mono (snd st) (snd (fst (getWriter t ts st))).
Proof.
  destruct (writers (fst st) !! key_of t ts) as [cw|] eqn:Hw.
  { rewrite (getWriter_open _ _ _ _ Hw). apply bufs_mono_refl. }
  destruct (getWriter t ts st) as [st' res] eqn:Hg.
  eapply bufs_mono_trans; [apply rotated_bufs_mono|].
  eapply getWriter_new_bufs; eassumption.
Qed.

(** *** The csv writers share the buffers *)

Lemma shared_buffer_evict k r : shared_buffer r -> shared_buffer (evict k r).
Proof.
  intros Hs k' cw. simpl. intros Hw. apply lookup_delete_Some in Hw as [Hne Hw].
  rewrite lookup_delete_ne by assumption. apply Hs, Hw.
Qed.

Lemma shared_buffer_register key file buffer r :
  shared_buffer r -> shared_buffer (register key file buffer (csv_new buffer) r).
Proof.
  intros Hs k' cw. simpl. destruct (decide (key = k')) as [->|Hne].
  - rewrite !lookup_insert_eq. intros [= <-]. reflexivity.
  - rewrite !lookup_insert_ne by assumption. apply Hs.
Qed.

Lemma cleanup_shared_buffer t key keys st :
  shared_buffer (fst st) -> shared_buffer (fst (cleanup_loop t key keys st)).
Proof.
  revert st. induction keys as [|k0 keys IH]; intros st Hs; simpl; [exact Hs|].
  destruct (writers (fst st) !! k0) as [cw|]; [|apply IH, Hs].
  destruct (is_old_key t key k0); [|apply IH, Hs].
  apply IH. rewrite close_old_fst. apply shared_buffer_evict, Hs.
Qed.

Lemma rotated_shared_buffer t ts st :
  shared_buffer (fst st) -> shared_buffer (fst (rotated t ts st)).
Proof. intros Hs. rewrite rotated_eq. apply cleanup_shared_buffer. exact Hs. Qed.

Lemma getWriter_shared_buffer t ts st :
  shared_buffer (fst st) -> shared_buffer (fst (fst (getWriter t ts st))).
Proof.
  intros Hs. destruct (writers (fst st) !! key_of t ts) as [cw|] eqn:Hw.
  { rewrite (getWriter_open _ _ _ _ Hw). exact Hs. }
  destruct (getWriter t ts st) as [st' res] eqn:Hg.
  simpl.
  destruct (getWriter_new _ _ _ _ _ Hw Hg) as (_ & [[-> _]|(file & buffer & _ & -> & _)]).
  - apply rotated_shared_buffer, Hs.
  - apply shared_buffer_register, rotated_shared_buffer, Hs.
Qed.

Lemma Record_fst `{Strconv} d st :
  fst (fst (Record_ d st)) = fst (fst (getWriter (Ticker d) (Timestamp d) st)).
Proof.
  unfold Record_. destruct (getWriter _ _ st) as [st1 [cw|e]]; [|reflexivity].
  destruct (csv_write _ _ _) as [w [e|]]; reflexivity.
Qed.

Lemma RecordBatch_shared_buffer `{Strconv} ds st :
  shared_buffer (fst st) -> shared_buffer (fst (fst (RecordBatch ds st))).
Proof.
  revert st. induction ds as [|d ds IH]; intros st Hs; [exact Hs|].
  cbn [RecordBatch].
  pose proof (getWriter_shared_buffer (Ticker d) (Timestamp d) st Hs) as Hg.
  destruct (getWriter _ _ st) as [st1 [cw|e]]; [|exact Hg].
  destruct (csv_write _ _ _) as [w [e|]]; [exact Hg|]. apply IH. exact Hg.
Qed.

Lemma reachable_shared_buffer `{Strconv} st : reachable st -> shared_buffer (fst st).
Proof.
  induction 1 as [baseDir w|d st _ IH Hwf|ds st _ IH Hall|st _ IH|st _ IH|fs dirs flt sch st _ IH].
  - intros k cw Hw. simpl in Hw. rewrite lookup_empty in Hw. discriminate.
  - rewrite Record_fst. apply getWriter_shared_buffer, IH.
  - apply RecordBatch_shared_buffer, IH.
  - rewrite Flush_fst. exact IH.
  - destruct (Close_cases st) as (_ & [[-> _]|[-> _]]); [exact IH|].
    intros k cw Hw. simpl in Hw. rewrite lookup_empty in Hw. discriminate.
  - exact IH.
Qed.


(** *** The wiring of the partitions *)

Lemma wired_world r w w' :
  files_mono w w' -> bufs_mono w w' -> wired (r, w) -> wired (r, w').
Proof.
  intros Hf Hb Hwd k cw Hw. destruct (Hwd k cw Hw) as (b & f & t & ts & H1 & H2 & H3 & H4 & H5 & H6).
  simpl in *. destruct (Hb _ _ H1) as (b' & Hb' & Hwr). destruct (Hf _ _ H3) as (f' & Hf' & Hp & _).
  exists b', f', t, ts. simpl. rewrite Hwr. repeat split; try assumption. congruence.
Qed.

Lemma wired_evict k r w : wired (r, w) -> wired (evict k r, w).
Proof.
  intros Hwd k' cw Hw. simpl in Hw. apply lookup_delete_Some in Hw as [Hne Hw].
  destruct (Hwd k' cw Hw) as (b & f & t & ts & H1 & H2 & H3 & H4 & H5 & H6).
  exists b, f, t, ts. simpl in *. rewrite lookup_delete_ne by assumption.
  repeat split; assumption.
Qed.

Lemma cleanup_wired t key keys st : wired st -> wired (cleanup_loop t key keys st).
Proof.
  revert st. induction keys as [|k0 keys IH]; intros st Hwd; simpl; [exact Hwd|].
  destruct (writers (fst st) !! k0) as [cw|]; [|apply IH, Hwd].
  destruct (is_old_key t key k0); [|apply IH, Hwd].
  apply IH. pose proof (close_old_mono k0 cw st) as Hf.
  pose proof (close_old_bufs_mono k0 cw st) as Hb.
  pose proof (close_old_fst k0 cw st) as Hr.
  destruct (close_old k0 cw st) as [r1 w1]. simpl in *. subst r1.
  destruct st as [r w]. simpl in *. eapply wired_world; [exact Hf|exact Hb|].
  apply wired_evict, Hwd.
Qed.

Lemma rotated_wired t ts st : wired st -> wired (rotated t ts st).
Proof.
  intros Hwd. rewrite rotated_eq. apply cleanup_wired.
  destruct st as [r w]. simpl. eapply wired_world; [| |exact Hwd].
  - apply files_mono_same, next_order_h_files.
  - apply bufs_mono_same, next_order_h_bufs.
Qed.

Lemma rotated_baseDir t ts st : baseDir (fst (rotated t ts st)) = baseDir (fst st).
Proof. rewrite rotated_eq, cleanup_baseDir. reflexivity. Qed.

Lemma getWriter_wired t ts st : wf_time ts = true -> wired st -> wired (fst (getWriter t ts st)).
Proof.
  intros Hwf Hwd. destruct (writers (fst st) !! key_of t ts) as [cw|] eqn:Hw.
  { rewrite (getWriter_open _ _ _ _ Hw). exact Hwd. }
  destruct (getWriter t ts st) as [st' res] eqn:Hg.
  pose proof (getWriter_new_bufs _ _ _ _ _ Hw Hg) as Hbm.
  destruct (getWriter_new _ _ _ _ _ Hw Hg) as (Hfm & Hcase).
  pose proof (rotated_wired t ts st Hwd) as Hwd1.
  pose proof (rotated_baseDir t ts st) as Hbase.
  simpl. destruct (rotated t ts st) as [r1 w1]. destruct st' as [r' w']. simpl in *.
  destruct Hcase as [[-> _]|(file & buffer & _ & -> & Hfile & Hbuf & _)].
  - eapply wired_world; eassumption.
  - intros k cw Hk. simpl in Hk. destruct (decide (key_of t ts = k)) as [<-|Hne].
    + rewrite lookup_insert_eq in Hk. injection Hk as <-.
      eexists _, _, t, ts. split; [exact Hbuf|]. simpl.
      split; [apply lookup_insert_eq|]. split; [exact Hfile|].
      split; [exact Hwf|]. split; [reflexivity|]. simpl. rewrite Hbase. reflexivity.
    + rewrite lookup_insert_ne in Hk by assumption.
      destruct (wired_world r1 w1 w' Hfm Hbm Hwd1 k cw Hk) as (b & f & t0 & ts0 & H1 & H2 & H3 & H4 & H5 & H6).
      exists b, f, t0, ts0. simpl in *. rewrite lookup_insert_ne by assumption.
      repeat split; assumption.
Qed.

Lemma csv_write_bufs_mono cw row w : bufs_mono w (fst (csv_write cw row w)).
Proof. apply bufio_write_bufs_mono. Qed.

Lemma Record_wired `{Strconv} d st :
  wf_time (Timestamp d) = true -> wired st -> wired (fst (Record_ d st)).
Proof.
  intros Hwf Hwd. unfold Record_.
  pose proof (getWriter_wired (Ticker d) (Timestamp d) st Hwf Hwd) as Hi.
  destruct (getWriter (Ticker d) (Timestamp d) st) as [[r1 w1] [cw|e]]; [|exact Hi].
  pose proof (csv_write_mono cw (record_of d) w1) as Hm.
  pose proof (csv_write_bufs_mono cw (record_of d) w1) as Hb. simpl in *.
  destruct (csv_write cw (record_of d) w1) as [w2 [e|]]; simpl in *;
    eapply wired_world; eassumption.
Qed.

Lemma RecordBatch_wired `{Strconv} ds st :
  Forall (fun d => wf_time (Timestamp d) = true) ds -> wired st ->
  wired (fst (RecordBatch ds st)).
Proof.
  intros Hall. revert st. induction Hall as [|d ds Hwf _ IH]; intros st Hwd; [exact Hwd|].
  cbn [RecordBatch].
  pose proof (getWriter_wired (Ticker d) (Timestamp d) st Hwf Hwd) as Hi.
  destruct (getWriter (Ticker d) (Timestamp d) st) as [[r1 w1] [cw|e]]; [|exact Hi].
  pose proof (csv_write_mono cw (record_of d) w1) as Hm.
  pose proof (csv_write_bufs_mono cw (record_of d) w1) as Hb. simpl in *.
  destruct (csv_write cw (record_of d) w1) as [w2 [e|]]; simpl in *.
  - eapply wired_world; eassumption.
  - apply IH. eapply wired_world; eassumption.
Qed.

Lemma flush_loop_bufs_mono keys r w : bufs_mono w (fst (flush_loop keys r w)).
Proof.
  revert w. induction keys as [|k keys IH]; intros w; simpl; [apply bufs_mono_refl|].
  destruct (writers r !! k) as [cw|]; [|apply IH].
  pose proof (csv_flush_bufs_mono cw w) as H1.
  destruct (csv_error cw (csv_flush cw w)); [exact H1|].
  assert (Hb : forall w0, bufs_mono w0 (fst (match buffers r !! k with
                                        | Some buf => bufio_flush buf w0
                                        | None => (w0, None) end))).
  { intros w0. destruct (buffers r !! k); [apply bufio_flush_bufs_mono|apply bufs_mono_refl]. }
  specialize (Hb (csv_flush cw w)).
  destruct (match buffers r !! k with Some buf => _ | None => _ end) as [w1 [e|]];
    simpl in *.
  - eapply bufs_mono_trans; eassumption.
  - eapply bufs_mono_trans; [exact H1|]. eapply bufs_mono_trans; [exact Hb|].
    eapply bufs_mono_trans; [|apply IH]. apply bufs_mono_same. reflexivity.
Qed.

Lemma Flush_bufs_mono st : bufs_mono (snd st) (snd (fst (Flush st))).
Proof.
  rewrite Flush_eq.
  pose proof (flush_loop_bufs_mono (flush_order st) (fst st) (flush_start st)) as Hl.
  assert (Hs : bufs_mono (snd st) (flush_start st)).
  { apply bufs_mono_same. unfold flush_start. rewrite next_order_h_bufs. reflexivity. }
  destruct (flush_loop _ _ _) as [w [e|]]; simpl in *.
  - eapply bufs_mono_trans; eassumption.
  - eapply bufs_mono_trans; [exact Hs|]. eapply bufs_mono_trans; [exact Hl|].
    apply bufs_mono_same. reflexivity.
Qed.

Lemma close_writers_loop_bufs_mono keys r w : bufs_mono w (fst (close_writers_loop keys r w)).
Proof.
  revert w. induction keys as [|k keys IH]; intros w; simpl; [apply bufs_mono_refl|].
  destruct (writers r !! k) as [cw|]; [|apply IH].
  pose proof (csv_flush_bufs_mono cw w) as H1.
  destruct (csv_error cw (csv_flush cw w)); [exact H1|].
  eapply bufs_mono_trans; [exact H1|apply IH].
Qed.

Lemma close_buffers_loop_bufs_mono keys r w : bufs_mono w (fst (close_buffers_loop keys r w)).
Proof.
  revert w. induction keys as [|k keys IH]; intros w; simpl; [apply bufs_mono_refl|].
  destruct (buffers r !! k) as [buf|]; [|apply IH].
  pose proof (bufio_flush_bufs_mono buf w) as Hb.
  destruct (bufio_flush buf w) as [w1 [e|]]; simpl in *; [exact Hb|].
  eapply bufs_mono_trans; [exact Hb|apply IH].
Qed.

Lemma Close_bufs_mono st : bufs_mono (snd st) (snd (fst (Close st))).
Proof.
  destruct st as [r w]. unfold Close.
  pose proof (next_order_h_bufs w) as Hn1.
  destruct (next_order w) as [o1 w1].
  pose proof (close_writers_loop_bufs_mono (range_keys (writers r) o1) r w1) as H1.
  assert (Hm1 : bufs_mono w (fst (close_writers_loop (range_keys (writers r) o1) r w1))).
  { eapply bufs_mono_trans; [|exact H1]. apply bufs_mono_same. exact Hn1. }
  destruct (close_writers_loop _ r w1) as [w2 [e|]]; simpl in *; [exact Hm1|].
  pose proof (next_order_h_bufs w2) as Hn2.
  destruct (next_order w2) as [o2 w3].
  pose proof (close_buffers_loop_bufs_mono (range_keys (buffers r) o2) r w3) as H2.
  assert (Hm2 : bufs_mono w (fst (close_buffers_loop (range_keys (buffers r) o2) r w3))).
  { eapply bufs_mono_trans; [exact Hm1|]. eapply bufs_mono_trans; [|exact H2].
    apply bufs_mono_same. exact Hn2. }
  destruct (close_buffers_loop _ r w3) as [w4 [e|]]; simpl in *; [exact Hm2|].
  pose proof (next_order_h_bufs w4) as Hn3.
  destruct (next_order w4) as [o3 w5].
  pose proof (close_files_loop_h_bufs (range_keys (files r) o3) r w5) as H3.
  assert (Hm3 : bufs_mono w (fst (close_files_loop (range_keys (files r) o3) r w5))).
  { eapply bufs_mono_trans; [exact Hm2|]. apply bufs_mono_same. simpl in *. congruence. }
  destruct (close_files_loop _ r w5) as [w6 [e|]]; simpl in *; exact Hm3.
Qed.

Lemma wired_empty baseDir bs w : wired (mkRecorder baseDir ∅ ∅ ∅ bs, w).
Proof. intros k cw Hw. simpl in Hw. rewrite lookup_empty in Hw. discriminate. Qed.

Lemma reachable_wired `{Strconv} st : reachable st -> wired st.
Proof.
  induction 1 as [baseDir w|d st _ IH Hwf|ds st _ IH Hall|st _ IH|st _ IH|fs dirs flt sch st _ IH].
  - apply wired_empty.
  - apply Record_wired; assumption.
  - apply RecordBatch_wired; assumption.
  - pose proof (Flush_fst st) as Hf. pose proof (Flush_mono st) as Hm.
    pose proof (Flush_bufs_mono st) as Hb.
    destruct (Flush st) as [[r' w'] e]. simpl in *. subst r'.
    destruct st as [r w]. eapply wired_world; eassumption.
  - pose proof (Close_bufs_mono st) as Hb.
    destruct (Close_cases st) as (Hm & [[Hf _]|[Hf _]]);
      destruct (Close st) as [[r' w'] e]; simpl in *; subst r'.
    + destruct st as [r w]. eapply wired_world; eassumption.
    + apply wired_empty.
  - destruct st as [r w]. unfold environment. simpl.
    eapply wired_world; [| |exact IH]; [apply files_mono_same|apply bufs_mono_same]; reflexivity.
Qed.

End WiringFacts.

Import WiringFacts.
(* ===================================================================== *)
(** * What reaches the files                                              *)
(* ===================================================================== *)

Module DurableFacts.

Lemma fs_grows_refl w : fs_grows w w.
Proof. intros p c Hc. exists []. rewrite List.app_nil_r. exact Hc. Qed.

Lemma fs_grows_trans w1 w2 w3 : fs_grows w1 w2 -> fs_grows w2 w3 -> fs_grows w1 w3.
Proof.
  intros H12 H23 p c Hc. destruct (H12 _ _ Hc) as (m1 & H1).
  destruct (H23 _ _ H1) as (m2 & H2). exists (m1 ++ m2). rewrite List.app_assoc. exact H2.
Qed.

Lemma fs_grows_same w w' : fs_files w' = fs_files w -> fs_grows w w'.
Proof. intros Heq p c Hc. exists []. rewrite List.app_nil_r, Heq. exact Hc. Qed.

Lemma file_write_fs_grows l rows w : fs_grows w (fst (file_write l rows w)).
Proof.
  unfold file_write. destruct (h_files w !! l) as [f|]; [|apply fs_grows_refl].
  destruct (f_closed f); [apply fs_grows_same; reflexivity|].
  destruct (decide _); [apply fs_grows_same; reflexivity|].
  intros p c Hc. simpl. destruct (decide (f_path f = p)) as [->|Hne].
  - rewrite lookup_insert_eq, Hc. simpl. eauto.
  - rewrite lookup_insert_ne by assumption. exists []. rewrite List.app_nil_r. exact Hc.
Qed.

Lemma bufio_flush_fs_grows l w : fs_grows w (fst (bufio_flush l w)).
Proof.
  unfold bufio_flush. destruct (h_bufs w !! l) as [b|]; [|apply fs_grows_refl].
  destruct (b_err b); [apply fs_grows_refl|].
  destruct (b_buf b) as [|r rows]; [apply fs_grows_refl|].
  pose proof (file_write_fs_grows (b_wr b) (r :: rows) w) as Hw.
  destruct (file_write (b_wr b) (r :: rows) w) as [w1 [e|]]; exact Hw.
Qed.

(** A record of a stream stays in it through the flush of any buffer. *)
Lemma stream_bufio_flush l l' row w :
  In row (stream_at l w) -> In row (stream_at l (fst (bufio_flush l' w))).
Proof.
  intros Hin. destruct (decide (l' = l)) as [->|Hne].
  - destruct (bufio_flush l w) as [w1 [e|]] eqn:Hfl.
    + simpl. unfold bufio_flush in Hfl.
      destruct (h_bufs w !! l) as [b|] eqn:Hb; [|injection Hfl as <- _; exact Hin].
      destruct (b_err b) eqn:He; [injection Hfl as <- _; exact Hin|].
      destruct (b_buf b) as [|r rows] eqn:Hbuf; [discriminate|].
      unfold file_write in Hfl. unfold stream_at in *. rewrite Hb in Hin.
      destruct (h_files w !! b_wr b) as [f|] eqn:Hf.
      * destruct (f_closed f); [|destruct (decide _)];
          try (injection Hfl as <- _; simpl; rewrite lookup_insert_eq; simpl;
               rewrite Hf, <- Hbuf; exact Hin).
        discriminate.
      * injection Hfl as <- _. simpl. rewrite lookup_insert_eq. simpl.
        rewrite Hf, <- Hbuf. exact Hin.
    + apply bufio_flush_ok in Hfl as (_ & _ & _ & _ & _ & Hst). simpl. rewrite Hst. exact Hin.
  - pose proof (bufio_flush_h_files l' w) as Hhf.
    pose proof (bufio_flush_fs_grows l' w) as Hg.
    assert (Hhb : h_bufs (fst (bufio_flush l' w)) !! l = h_bufs w !! l).
    { unfold bufio_flush. destruct (h_bufs w !! l') as [b|]; [|reflexivity].
      destruct (b_err b); [reflexivity|]. destruct (b_buf b) as [|r rows]; [reflexivity|].
      pose proof (file_write_h_bufs (b_wr b) (r :: rows) w) as Hh.
      destruct (file_write (b_wr b) (r :: rows) w) as [w1 [e|]]; simpl in *;
        rewrite lookup_insert_ne by assumption; rewrite Hh; reflexivity. }
    unfold stream_at in *. rewrite Hhb, Hhf.
    destruct (h_bufs w !! l) as [b|]; [|exact Hin].
    destruct (h_files w !! b_wr b) as [f|]; [|exact Hin].
    apply in_app_or in Hin as [Hin|Hin]; apply in_or_app; [left|right; exact Hin].
    destruct (fs_files w !! f_path f) as [c|] eqn:Hc; [|destruct Hin].
    destruct (Hg _ _ Hc) as (more & ->). simpl in *. apply in_or_app. left. exact Hin.
Qed.

Lemma stream_flush_loop l row keys r w :
  In row (stream_at l w) -> In row (stream_at l (fst (flush_loop keys r w))).
Proof.
  revert w. induction keys as [|k keys IH]; intros w Hin; simpl; [exact Hin|].
  destruct (writers r !! k) as [cw|]; [|apply IH, Hin].
  pose proof (stream_bufio_flush l (cw_w cw) row w Hin) as H1. fold (csv_flush cw w) in H1.
  destruct (csv_error cw (csv_flush cw w)); [exact H1|].
  assert (H2 : In row (stream_at l (fst (match buffers r !! k with
                                | Some buf => bufio_flush buf (csv_flush cw w)
                                | None => (csv_flush cw w, None) end)))).
  { destruct (buffers r !! k); [apply stream_bufio_flush|]; exact H1. }
  destruct (match buffers r !! k with Some buf => _ | None => _ end) as [w2 [e|]];
    simpl in *; [exact H2|]. apply IH. exact H2.
Qed.

Lemma getWriter_baseDir t ts st : baseDir (fst (fst (getWriter t ts st))) = baseDir (fst st).
Proof.
  destruct (writers (fst st) !! key_of t ts) as [cw|] eqn:Hw.
  { rewrite (getWriter_open _ _ _ _ Hw). reflexivity. }
  destruct (getWriter t ts st) as [st' res] eqn:Hg. simpl.
  destruct (getWriter_new _ _ _ _ _ Hw Hg) as (_ & [[-> _]|(file & buffer & _ & -> & _)]);
    simpl; apply rotated_baseDir.
Qed.

(** The path of a partition is the one of its key. *)
Lemma partition_path_key base t ts t' ts' :
  wf_time ts = true -> wf_time ts' = true -> key_of t ts = key_of t' ts' ->
  partition_path base t ts = partition_path base t' ts'.
Proof.
  intros Hwf Hwf' Heq. apply key_of_inj in Heq as (-> & Hd & Hh); try assumption.
  unfold partition_path. rewrite Hd, Hh. reflexivity.
Qed.

End DurableFacts.

Import DurableFacts.
(* ===================================================================== *)
(** * Flushed and broken buffers through Flush and Close                  *)
(* ===================================================================== *)

Module StuckFacts.

(** Flushing a flushed buffer does nothing. *)
Lemma bufio_flush_flushed cw w : flushed cw w -> bufio_flush (cw_w cw) w = (w, None).
Proof.
  intros (b & Hb & Hbuf & He). unfold bufio_flush. rewrite Hb, He, Hbuf. reflexivity.
Qed.

Lemma csv_flush_flushed cw w : flushed cw w -> csv_flush cw w = w.
Proof. intros Hf. unfold csv_flush. rewrite (bufio_flush_flushed _ _ Hf). reflexivity. Qed.

Lemma csv_error_flushed cw w : flushed cw w -> csv_error cw w = None.
Proof. intros (b & Hb & _ & He). unfold csv_error. rewrite Hb. exact He. Qed.

Lemma syscalls_app a b : syscalls (a ++ b) = syscalls a ++ syscalls b.
Proof. apply List.filter_app. Qed.

Lemma syscalls_log m w : syscalls (trace (log m w)) = syscalls (trace w).
Proof. simpl. rewrite syscalls_app. simpl. apply List.app_nil_r. Qed.

Lemma next_order_trace w : trace (snd (next_order w)) = trace w.
Proof. unfold next_order. destruct (sched w); reflexivity. Qed.

(** A loop over an empty map visits nothing. *)
Lemma range_keys_empty {A} hint : range_keys (∅ : gmap string A) hint = [].
Proof.
  unfold range_keys. rewrite map_to_list_empty. simpl.
  assert (Hf : filter (fun k => is_Some ((∅ : gmap string A) !! k)) hint = []).
  { induction hint as [|k hint IH]; [reflexivity|].
    rewrite filter_cons_False; [exact IH|]. rewrite lookup_empty. intros [? ?]. discriminate. }
  rewrite Hf. reflexivity.
Qed.

(** The buffer of a partition is the one its csv writer writes into. *)
Lemma shared_buffer_inv r k buf :
  same_keys r -> shared_buffer r -> buffers r !! k = Some buf ->
  writers r !! k = Some (mkCsvWriter buf).
Proof.
  intros Hs Hsh Hb. destruct (Hs k) as [_ [_ Hbw]].
  destruct Hbw as [cw Hw]; [eauto|]. pose proof (Hsh _ _ Hw) as Hb'.
  rewrite Hb in Hb'. injection Hb' as ->. destruct cw. exact Hw.
Qed.

(** *** The loop of Flush *)

(** With every writer flushed the loop writes nothing and reports no
    error. *)
Lemma flush_loop_idle keys r w :
  shared_buffer r -> (forall k cw, writers r !! k = Some cw -> flushed cw w) ->
  snd (flush_loop keys r w) = None
  /\ syscalls (trace (fst (flush_loop keys r w))) = syscalls (trace w)
  /\ h_bufs (fst (flush_loop keys r w)) = h_bufs w
  /\ h_files (fst (flush_loop keys r w)) = h_files w
  /\ fs_files (fst (flush_loop keys r w)) = fs_files w.
Proof.
  intros Hsh. revert w. induction keys as [|k keys IH]; intros w Hall; simpl; [auto|].
  destruct (writers r !! k) as [cw|] eqn:Hw; [|apply IH, Hall].
  pose proof (Hall _ _ Hw) as Hfl.
  rewrite (csv_flush_flushed _ _ Hfl), (csv_error_flushed _ _ Hfl), (Hsh _ _ Hw).
  rewrite (bufio_flush_flushed _ _ Hfl).
  destruct (IH (log (LogFlushed k) w)) as (H1 & H2 & H3 & H4 & H5); [exact Hall|].
  rewrite H1, H2, H3, H4, H5, syscalls_log. auto.
Qed.

(** The loop fails at a writer: its second flush, of the buffer the writer
    has just flushed, finds nothing to do. *)
Lemma flush_loop_err keys r w w' e :
  shared_buffer r -> flush_loop keys r w = (w', Some e) ->
  exists k cw e0,
    k ∈ keys /\ writers r !! k = Some cw
    /\ e = ErrWrap ("failed to flush writer for " +:+ k) e0
    /\ csv_error cw w' = Some e0.
Proof.
  intros Hsh. revert w. induction keys as [|k0 keys IH]; intros w Hloop; [discriminate|].
  simpl in Hloop.
  destruct (writers r !! k0) as [cw0|] eqn:Hw0.
  2:{ destruct (IH _ Hloop) as (k & cw & e0 & Hin & H). exists k, cw, e0.
      split; [apply elem_of_cons; auto|exact H]. }
  destruct (csv_error cw0 (csv_flush cw0 w)) as [err|] eqn:He.
  { injection Hloop as <- <-. exists k0, cw0, err.
    split; [apply elem_of_cons; auto|]. auto. }
  rewrite (Hsh _ _ Hw0) in Hloop.
  rewrite (bufio_flush_flushed _ _ (csv_flush_flushes _ _ He)) in Hloop.
  destruct (IH _ Hloop) as (k & cw & e0 & Hin & H). exists k, cw, e0.
  split; [apply elem_of_cons; auto|exact H].
Qed.

(** *** Broken buffers *)

Lemma broken_same_bufs cw w w' : h_bufs w' = h_bufs w -> broken cw w -> broken cw w'.
Proof. intros Heq (b & e & Hb & He). exists b, e. rewrite Heq. auto. Qed.

Lemma broken_bufio_flush l cw w : broken cw w -> broken cw (fst (bufio_flush l w)).
Proof.
  intros (b & e & Hb & He). unfold bufio_flush.
  destruct (h_bufs w !! l) as [b0|] eqn:Hb0; [|exists b, e; auto].
  destruct (b_err b0) eqn:He0; [exists b, e; auto|].
  destruct (b_buf b0) as [|r rows]; [exists b, e; auto|].
  assert (Hne : l <> cw_w cw) by (intros ->; congruence).
  pose proof (file_write_h_bufs (b_wr b0) (r :: rows) w) as Hh.
  destruct (file_write (b_wr b0) (r :: rows) w) as [w1 [e1|]]; simpl in *;
    exists b, e; simpl; rewrite lookup_insert_ne by assumption; rewrite Hh; auto.
Qed.

Lemma broken_csv_error cw w : broken cw w -> is_Some (csv_error cw w).
Proof. intros (b & e & Hb & He). unfold csv_error. rewrite Hb, He. eauto. Qed.

(** An error of a writer whose buffer is an object of the heap is the
    error its buffer carries. *)
Lemma csv_error_broken cw w e :
  is_Some (h_bufs w !! cw_w cw) -> csv_error cw w = Some e -> broken cw w.
Proof.
  intros [b Hb] He. unfold csv_error in He. rewrite Hb in He. exists b, e. auto.
Qed.

(** A flush that fails leaves the buffer broken. *)
Lemma bufio_flush_err l w w' e :
  is_Some (h_bufs w !! l) -> bufio_flush l w = (w', Some e) -> broken (mkCsvWriter l) w'.
Proof.
  intros [b Hb]. unfold bufio_flush. rewrite Hb.
  destruct (b_err b) as [e0|] eqn:He0.
  { intros [= <- <-]. exists b, e0. auto. }
  destruct (b_buf b) as [|r rows]; [discriminate|].
  destruct (file_write (b_wr b) (r :: rows) w) as [w1 [e1|]]; [|discriminate].
  intros [= <- <-]. eexists _, e1. simpl. rewrite lookup_insert_eq. auto.
Qed.

(** The loop of Flush fails when it is to visit a broken writer. *)
Lemma flush_loop_broken keys r w k cw :
  k ∈ keys -> writers r !! k = Some cw -> broken cw w ->
  is_Some (snd (flush_loop keys r w)).
Proof.
  intros Hin Hw. revert w. induction keys as [|k0 keys IH]; intros w Hbr; [inversion Hin|].
  simpl. destruct (writers r !! k0) as [cw0|] eqn:Hw0.
  2:{ apply elem_of_cons in Hin as [->|Hin]; [congruence|]. apply IH; assumption. }
  pose proof (broken_bufio_flush (cw_w cw0) cw w Hbr) as H1. fold (csv_flush cw0 w) in H1.
  destruct (csv_error cw0 (csv_flush cw0 w)) as [err|] eqn:He; [simpl; eauto|].
  assert (H2 : broken cw (fst (match buffers r !! k0 with
                                | Some buf => bufio_flush buf (csv_flush cw0 w)
                                | None => (csv_flush cw0 w, None) end))).
  { destruct (buffers r !! k0); [apply broken_bufio_flush|]; exact H1. }
  destruct (match buffers r !! k0 with Some buf => _ | None => _ end) as [w2 [err|]];
    simpl in *; [eauto|].
  apply elem_of_cons in Hin as [->|Hin].
  - assert (cw0 = cw) by congruence. subst cw0.
    apply broken_csv_error in H1. rewrite He in H1. destruct H1; discriminate.
  - apply IH; assumption.
Qed.

(** *** The loops of Close *)

Lemma close_writers_loop_broken keys r w k cw :
  k ∈ keys -> writers r !! k = Some cw -> broken cw w ->
  is_Some (snd (close_writers_loop keys r w)).
Proof.
  intros Hin Hw. revert w. induction keys as [|k0 keys IH]; intros w Hbr; [inversion Hin|].
  simpl. destruct (writers r !! k0) as [cw0|] eqn:Hw0.
  2:{ apply elem_of_cons in Hin as [->|Hin]; [congruence|]. apply IH; assumption. }
  pose proof (broken_bufio_flush (cw_w cw0) cw w Hbr) as H1. fold (csv_flush cw0 w) in H1.
  destruct (csv_error cw0 (csv_flush cw0 w)) as [err|] eqn:He; [simpl; eauto|].
  apply elem_of_cons in Hin as [->|Hin].
  - assert (cw0 = cw) by congruence. subst cw0.
    apply broken_csv_error in H1. rewrite He in H1. destruct H1; discriminate.
  - apply IH; assumption.
Qed.

Lemma close_writers_loop_err keys r w w' e :
  close_writers_loop keys r w = (w', Some e) ->
  exists k cw e0,
    k ∈ keys /\ writers r !! k = Some cw
    /\ e = ErrWrap ("failed to flush writer for " +:+ k +:+ " during close") e0
    /\ csv_error cw w' = Some e0.
Proof.
  revert w. induction keys as [|k0 keys IH]; intros w Hloop; [discriminate|].
  simpl in Hloop.
  destruct (writers r !! k0) as [cw0|] eqn:Hw0.
  2:{ destruct (IH _ Hloop) as (k & cw & e0 & Hin & H). exists k, cw, e0.
      split; [apply elem_of_cons; auto|exact H]. }
  destruct (csv_error cw0 (csv_flush cw0 w)) as [err|] eqn:He.
  { injection Hloop as <- <-. exists k0, cw0, err.
    split; [apply elem_of_cons; auto|]. auto. }
  destruct (IH _ Hloop) as (k & cw & e0 & Hin & H). exists k, cw, e0.
  split; [apply elem_of_cons; auto|exact H].
Qed.

(** With every buffer flushed the second loop of Close does nothing. *)
Lemma close_buffers_loop_idle keys r w :
  (forall k buf, buffers r !! k = Some buf -> flushed (mkCsvWriter buf) w) ->
  close_buffers_loop keys r w = (w, None).
Proof.
  intros Hall. induction keys as [|k keys IH]; simpl; [reflexivity|].
  destruct (buffers r !! k) as [buf|] eqn:Hb; [|exact IH].
  pose proof (bufio_flush_flushed (mkCsvWriter buf) w (Hall _ _ Hb)) as Hfl.
  simpl in Hfl. rewrite Hfl. exact IH.
Qed.

Lemma close_buffers_loop_err keys r w w' e :
  (forall k buf, buffers r !! k = Some buf -> is_Some (h_bufs w !! buf)) ->
  close_buffers_loop keys r w = (w', Some e) ->
  exists k buf, buffers r !! k = Some buf /\ broken (mkCsvWriter buf) w'.
Proof.
  revert w. induction keys as [|k0 keys IH]; intros w Hv Hloop; [discriminate|].
  simpl in Hloop. destruct (buffers r !! k0) as [buf|] eqn:Hb; [|eapply IH; eassumption].
  pose proof (bufio_flush_bufs_mono buf w) as Hm.
  destruct (bufio_flush buf w) as [w1 [err|]] eqn:Hfl.
  - injection Hloop as <- <-. exists k0, buf. split; [exact Hb|].
    eapply bufio_flush_err; [|exact Hfl]. eapply Hv, Hb.
  - eapply IH; [|exact Hloop]. intros k1 buf1 Hb1.
    destruct (Hv _ _ Hb1) as [b1 H1]. destruct (Hm _ _ H1) as (b' & Hb' & _). eauto.
Qed.

(** The loop over the files fails when it is to visit a closed file. *)
Lemma close_files_loop_closed keys r w k l :
  k ∈ keys -> files r !! k = Some l -> closed_in l w ->
  is_Some (snd (close_files_loop keys r w)).
Proof.
  intros Hin Hl. revert w. induction keys as [|k0 keys IH]; intros w Hc; [inversion Hin|].
  simpl. destruct (files r !! k0) as [file|] eqn:Hf0.
  2:{ apply elem_of_cons in Hin as [->|Hin]; [congruence|]. apply IH; assumption. }
  pose proof (file_close_mono file w) as Hm.
  destruct (file_close file w) as [w1 [err|]] eqn:Hfc; [simpl; eauto|].
  apply elem_of_cons in Hin as [->|Hin].
  - assert (file = l) by congruence. subst file. exfalso.
    destruct Hc as (f & Hf & Hcl). unfold file_close in Hfc. rewrite Hf, Hcl in Hfc.
    discriminate.
  - apply IH; [assumption|]. eapply closed_in_mono; [exact Hm|exact Hc].
Qed.

Lemma close_files_loop_err keys r w w' e :
  (forall k l, files r !! k = Some l -> is_Some (h_files w !! l)) ->
  close_files_loop keys r w = (w', Some e) ->
  exists k l e0, files r !! k = Some l
    /\ e = ErrWrap ("failed to close file for " +:+ k) e0 /\ closed_in l w'.
Proof.
  revert w. induction keys as [|k0 keys IH]; intros w Hv Hloop; [discriminate|].
  simpl in Hloop. destruct (files r !! k0) as [file|] eqn:Hf0; [|eapply IH; eassumption].
  pose proof (file_close_mono file w) as Hm.
  pose proof (file_close_closed file w (Hv _ _ Hf0)) as Hcl.
  destruct (file_close file w) as [w1 [err|]] eqn:Hfc.
  - injection Hloop as <- <-. exists k0, file, err. auto.
  - eapply IH; [|exact Hloop]. intros k1 l1 H1. eapply valid_mono; [exact Hm|]. eapply Hv, H1.
Qed.

(** The three ways in which [Close] ends in an error, and the one in which
    it does not. *)
Lemma Close_eq st :
  let w1 := snd (next_order (snd st)) in
  let o1 := fst (next_order (snd st)) in
  let l1 := close_writers_loop (range_keys (writers (fst st)) o1) (fst st) w1 in
  let w3 := snd (next_order (fst l1)) in
  let o2 := fst (next_order (fst l1)) in
  let l2 := close_buffers_loop (range_keys (buffers (fst st)) o2) (fst st) w3 in
  let w5 := snd (next_order (fst l2)) in
  let o3 := fst (next_order (fst l2)) in
  let l3 := close_files_loop (range_keys (files (fst st)) o3) (fst st) w5 in
  Close st
  = match snd l1 with
    | Some err => ((fst st, fst l1), Some err)
    | None =>
        match snd l2 with
        | Some err => ((fst st, fst l2), Some err)
        | None =>
            match snd l3 with
            | Some err => ((fst st, fst l3), Some err)
            | None => ((mkRecorder (baseDir (fst st)) ∅ ∅ ∅ (bufferSize (fst st)), fst l3), None)
            end
        end
    end.
Proof.
  destruct st as [r w]. unfold Close. cbn [fst snd].
  destruct (next_order w) as [o1 w1]. cbn [fst snd].
  destruct (close_writers_loop _ r w1) as [w2 [e|]]; cbn [fst snd]; [reflexivity|].
  destruct (next_order w2) as [o2 w3]. cbn [fst snd].
  destruct (close_buffers_loop _ r w3) as [w4 [e|]]; cbn [fst snd]; [reflexivity|].
  destruct (next_order w4) as [o3 w5]. cbn [fst snd].
  destruct (close_files_loop _ r w5) as [w6 [e|]]; reflexivity.
Qed.

(** Close fails on a recorder that holds a broken writer, without closing
    any file and without removing anything from the maps. *)
Lemma Close_broken st k cw :
  writers (fst st) !! k = Some cw -> broken cw (snd st) ->
  is_Some (snd (Close st)) /\ fst (fst (Close st)) = fst st
  /\ h_files (snd (fst (Close st))) = h_files (snd st).
Proof.
  intros Hw Hbr. rewrite Close_eq. cbv zeta.
  assert (Hbr1 : broken cw (snd (next_order (snd st)))).
  { eapply broken_same_bufs; [apply next_order_h_bufs|exact Hbr]. }
  pose proof (close_writers_loop_broken
                (range_keys (writers (fst st)) (fst (next_order (snd st)))) (fst st) _ k cw
                (range_keys_complete _ _ _ (ex_intro _ cw Hw)) Hw Hbr1) as [e He].
  pose proof (close_writers_loop_h_files
                (range_keys (writers (fst st)) (fst (next_order (snd st)))) (fst st)
                (snd (next_order (snd st)))) as Hh.
  rewrite He. simpl. split; [eauto|]. split; [reflexivity|].
  rewrite Hh. apply next_order_h_files.
Qed.

Lemma Flush_broken st k cw :
  writers (fst st) !! k = Some cw -> broken cw (snd st) -> is_Some (snd (Flush st)).
Proof.
  intros Hw Hbr. rewrite Flush_eq.
  assert (Hbr1 : broken cw (flush_start st)).
  { eapply broken_same_bufs; [|exact Hbr]. unfold flush_start.
    rewrite next_order_h_bufs. reflexivity. }
  pose proof (flush_loop_broken (flush_order st) (fst st) _ k cw
                (range_keys_complete _ _ _ (ex_intro _ cw Hw)) Hw Hbr1) as [e He].
  destruct (flush_loop _ _ _) as [w' [e'|]]; simpl in *; [eauto|discriminate].
Qed.

(** Close fails on a recorder that holds a closed file. *)
Lemma Close_closed st k l :
  files (fst st) !! k = Some l -> closed_in l (snd st) -> is_Some (snd (Close st)).
Proof.
  intros Hl Hc. rewrite Close_eq. cbv zeta.
  set (l1 := close_writers_loop _ _ _).
  pose proof (close_writers_loop_h_files
                (range_keys (writers (fst st)) (fst (next_order (snd st)))) (fst st)
                (snd (next_order (snd st)))) as H1. fold l1 in H1.
  destruct (snd l1) as [e|]; [eauto|].
  set (l2 := close_buffers_loop _ _ _).
  pose proof (close_buffers_loop_h_files
                (range_keys (buffers (fst st)) (fst (next_order (fst l1)))) (fst st)
                (snd (next_order (fst l1)))) as H2. fold l2 in H2.
  destruct (snd l2) as [e|]; [eauto|].
  assert (Hc5 : closed_in l (snd (next_order (fst l2)))).
  { destruct Hc as (f & Hf & Hcl). exists f. split; [|exact Hcl].
    rewrite next_order_h_files, H2, next_order_h_files, H1, next_order_h_files. exact Hf. }
  pose proof (close_files_loop_closed
                (range_keys (files (fst st)) (fst (next_order (fst l2)))) (fst st) _ k l
                (range_keys_complete _ _ _ (ex_intro _ l Hl)) Hl Hc5) as [e He].
  rewrite He. eauto.
Qed.

Lemma Close_stuck st : stuck st -> is_Some (snd (Close st)).
Proof.
  intros [(k & cw & Hw & Hbr)|(k & l & Hl & Hc)].
  - eapply Close_broken; eassumption.
  - eapply Close_closed; eassumption.
Qed.

Lemma reachable_bufferSize `{Strconv} st : reachable st -> bufferSize (fst st) = 100.
Proof.
  assert (Hcl : forall t key keys st0,
            bufferSize (fst (cleanup_loop t key keys st0)) = bufferSize (fst st0)).
  { intros t key keys. induction keys as [|k0 keys IH]; intros st0; simpl; [reflexivity|].
    destruct (writers (fst st0) !! k0) as [cw|]; [|apply IH].
    destruct (is_old_key t key k0); [|apply IH]. rewrite IH, close_old_fst. reflexivity. }
  assert (Hg : forall t ts st0,
            bufferSize (fst (fst (getWriter t ts st0))) = bufferSize (fst st0)).
  { intros t ts st0. destruct (writers (fst st0) !! key_of t ts) as [cw|] eqn:Hw.
    { rewrite (getWriter_open _ _ _ _ Hw). reflexivity. }
    destruct (getWriter t ts st0) as [st' res] eqn:Hgw. simpl.
    destruct (getWriter_new _ _ _ _ _ Hw Hgw) as (_ & [[-> _]|(file & buffer & _ & -> & _)]);
      simpl; rewrite rotated_eq, Hcl; reflexivity. }
  induction 1 as [baseDir w|d st _ IH Hwf|ds st _ IH Hall|st _ IH|st _ IH|fs dirs flt sch st _ IH].
  - reflexivity.
  - rewrite Record_fst, Hg. exact IH.
  - clear Hall. revert st IH. induction ds as [|d ds IHd]; intros st IH; [exact IH|].
    cbn [RecordBatch]. pose proof (Hg (Ticker d) (Timestamp d) st) as Hg1.
    destruct (getWriter _ _ st) as [st1 [cw|e]]; simpl in *; [|congruence].
    destruct (csv_write _ _ _) as [w [e|]]; simpl; [congruence|]. apply IHd. simpl. congruence.
  - rewrite Flush_fst. exact IH.
  - destruct (Close_cases st) as (_ & [[-> _]|[-> _]]); exact IH.
  - exact IH.
Qed.

End StuckFacts.

Import StuckFacts.
(* ===================================================================== *)
(** * Where the errors of Flush and Close come from                       *)
(* ===================================================================== *)

Module ErrorFacts.

Lemma Flush_err_cases `{Strconv} st st' e :
  reachable st -> Flush st = (st', Some e) ->
  exists k cw e0,
    writers (fst st) !! k = Some cw
    /\ e = ErrWrap ("failed to flush writer for " +:+ k) e0
    /\ csv_error cw (snd st') = Some e0.
Proof.
  intros Hreach. rewrite Flush_eq.
  destruct (flush_loop (flush_order st) (fst st) (flush_start st)) as [w [e1|]] eqn:Hloop;
    [|discriminate].
  intros [= <- <-].
  destruct (flush_loop_err _ _ _ _ _ (reachable_shared_buffer _ Hreach) Hloop)
    as (k & cw & e0 & _ & Hw & He & Hc).
  exists k, cw, e0. auto.
Qed.

Lemma Close_err_cases `{Strconv} st st' e :
  reachable st -> Close st = (st', Some e) ->
  fst st' = fst st
  /\ ((exists k cw e0,
         writers (fst st) !! k = Some cw
         /\ e = ErrWrap ("failed to flush writer for " +:+ k +:+ " during close") e0
         /\ csv_error cw (snd st') = Some e0)
      \/ (exists k l e0,
            files (fst st) !! k = Some l
            /\ e = ErrWrap ("failed to close file for " +:+ k) e0
            /\ closed_in l (snd st'))).
Proof.
  intros Hreach. rewrite Close_eq. cbv zeta.
  pose proof (reachable_shared_buffer _ Hreach) as Hsh.
  destruct (reachable_inv _ Hreach) as (Hsk & Hval & _).
  set (o1 := fst (next_order (snd st))).
  set (w1 := snd (next_order (snd st))).
  destruct (close_writers_loop (range_keys (writers (fst st)) o1) (fst st) w1)
    as [w2 [e1|]] eqn:H1; simpl.
  { intros [= <- <-]. split; [reflexivity|]. left.
    destruct (close_writers_loop_err _ _ _ _ _ H1) as (k & cw & e0 & _ & Hw & He & Hc).
    exists k, cw, e0. auto. }
  assert (Hfl : forall k buf, buffers (fst st) !! k = Some buf ->
                  flushed (mkCsvWriter buf) (snd (next_order w2))).
  { intros k buf Hb. apply (flushed_same_bufs _ w2); [apply next_order_h_bufs|].
    eapply close_writers_loop_ok; [exact H1| |apply shared_buffer_inv; eassumption].
    apply range_keys_complete. eexists. apply shared_buffer_inv; eassumption. }
  rewrite (close_buffers_loop_idle _ _ _ Hfl). simpl.
  set (o3 := fst (next_order (snd (next_order w2)))).
  set (w5 := snd (next_order (snd (next_order w2)))).
  destruct (close_files_loop (range_keys (files (fst st)) o3) (fst st) w5)
    as [w6 [e3|]] eqn:H3; simpl; [|discriminate].
  intros [= <- <-]. split; [reflexivity|]. right.
  assert (Hv5 : forall k l, files (fst st) !! k = Some l -> is_Some (h_files w5 !! l)).
  { intros k l Hl. subst w5 w1. rewrite !next_order_h_files.
    pose proof (close_writers_loop_h_files (range_keys (writers (fst st)) o1) (fst st)
                  (snd (next_order (snd st)))) as Hh.
    rewrite H1 in Hh. simpl in Hh. rewrite Hh, next_order_h_files. eapply Hval, Hl. }
  destruct (close_files_loop_err _ _ _ _ _ Hv5 H3) as (k & l & e0 & Hl & He & Hc).
  exists k, l, e0. auto.
Qed.

(** A writer of a reachable recorder that reports an error has a broken
    buffer. *)
Lemma reachable_csv_error `{Strconv} st k cw e :
  reachable st -> writers (fst st) !! k = Some cw -> csv_error cw (snd st) = Some e ->
  broken cw (snd st).
Proof.
  intros Hreach Hw He. eapply csv_error_broken; [|exact He].
  destruct (reachable_wired _ Hreach _ _ Hw) as (b & _ & _ & _ & Hb & _). eauto.
Qed.

Lemma failed_Flush_stuck `{Strconv} st :
  reachable st -> is_Some (snd (Flush st)) ->
  exists k cw, writers (fst (fst (Flush st))) !! k = Some cw
               /\ broken cw (snd (fst (Flush st))).
Proof.
  intros Hreach [e He].
  pose proof (reach_Flush _ Hreach) as Hreach'.
  pose proof (Flush_fst st) as Hfst.
  destruct (Flush st) as [st' res] eqn:Hfl. simpl in *. subst res.
  destruct (Flush_err_cases _ _ _ Hreach Hfl) as (k & cw & e0 & Hw & _ & Hc).
  rewrite <- Hfst in Hw. exists k, cw. split; [exact Hw|].
  eapply reachable_csv_error; eassumption.
Qed.

Lemma failed_Close_stuck `{Strconv} st :
  reachable st -> is_Some (snd (Close st)) -> stuck (fst (Close st)).
Proof.
  intros Hreach [e He].
  pose proof (reach_Close _ Hreach) as Hreach'.
  destruct (Close st) as [st' res] eqn:Hcl. simpl in *. subst res.
  destruct (Close_err_cases _ _ _ Hreach Hcl)
    as (Hfst & [(k & cw & e0 & Hw & _ & Hc)|(k & l & e0 & Hl & _ & Hc)]).
  - left. rewrite <- Hfst in Hw. exists k, cw. split; [exact Hw|].
    eapply reachable_csv_error; eassumption.
  - right. rewrite <- Hfst in Hl. exists k, l. auto.
Qed.

Lemma stuck_environment fs dirs flt sch st : stuck st -> stuck (environment fs dirs flt sch st).
Proof. intros Hs. exact Hs. Qed.

End ErrorFacts.

Import ErrorFacts.
(* ===================================================================== *)
(** * What getWriter depends on                                           *)
(* ===================================================================== *)

Module FrameFacts.

Lemma file_write_faults l rows w : faults (fst (file_write l rows w)) = faults w.
Proof.
  unfold file_write. destruct (h_files w !! l) as [f|]; [|reflexivity].
  destruct (f_closed f); [reflexivity|]. destruct (decide _); reflexivity.
Qed.

Lemma bufio_flush_faults l w : faults (fst (bufio_flush l w)) = faults w.
Proof.
  unfold bufio_flush. destruct (h_bufs w !! l) as [b|]; [|reflexivity].
  destruct (b_err b); [reflexivity|]. destruct (b_buf b) as [|r rows]; [reflexivity|].
  pose proof (file_write_faults (b_wr b) (r :: rows) w) as Hw.
  destruct (file_write (b_wr b) (r :: rows) w) as [w1 [e|]]; exact Hw.
Qed.

Lemma file_close_faults l w : faults (fst (file_close l w)) = faults w.
Proof.
  unfold file_close. destruct (h_files w !! l) as [f|]; [|reflexivity].
  destruct (f_closed f); [reflexivity|]. destruct (decide _); reflexivity.
Qed.

Lemma next_order_faults w : faults (snd (next_order w)) = faults w.
Proof. unfold next_order. destruct (sched w); reflexivity. Qed.

Lemma close_old_faults k cw st : faults (snd (close_old k cw st)) = faults (snd st).
Proof.
  destruct st as [r w]. unfold close_old. simpl.
  set (w1 := csv_flush cw w).
  set (w2 := match csv_error cw w1 with Some err => log (LogWarnFlushWriter k err) w1 | None => w1 end).
  assert (H2 : faults w2 = faults w).
  { subst w2. destruct (csv_error cw w1); simpl; apply bufio_flush_faults. }
  set (w3 := match buffers r !! k with
             | Some buf => let '(w', res) := bufio_flush buf w2 in
                           match res with Some err => log (LogWarnFlushBuffer k err) w' | None => w' end
             | None => w2 end).
  assert (H3 : faults w3 = faults w).
  { subst w3. destruct (buffers r !! k) as [buf|]; [|exact H2].
    pose proof (bufio_flush_faults buf w2) as Hb.
    destruct (bufio_flush buf w2) as [w' [e|]]; simpl in *; congruence. }
  rewrite <- H3.
  destruct (files r !! k) as [file|]; [|reflexivity].
  pose proof (file_close_faults file w3) as Hc.
  destruct (file_close file w3) as [w' [e|]]; exact Hc.
Qed.

Lemma cleanup_loop_faults t key keys st :
  faults (snd (cleanup_loop t key keys st)) = faults (snd st).
Proof.
  revert st. induction keys as [|k keys IH]; intros st; simpl; [reflexivity|].
  destruct (writers (fst st) !! k) as [cw|]; [|apply IH].
  destruct (is_old_key t key k); [|apply IH].
  rewrite IH. apply close_old_faults.
Qed.

Lemma rotated_faults t ts st : faults (snd (rotated t ts st)) = faults (snd st).
Proof. rewrite rotated_eq, cleanup_loop_faults. simpl. apply next_order_faults. Qed.

(** [getWriter] on a partition that is not open, in terms of the state past
    the cleanup. *)
Lemma getWriter_rotated t ts st :
  writers (fst st) !! key_of t ts = None ->
  getWriter t ts st
  = let r := fst (rotated t ts st) in
    let dirPath := path_join (baseDir r) (format_date ts) in
    let w := log (LogCreatingDir dirPath) (snd (rotated t ts st)) in
    let '(w, res) := MkdirAll dirPath w in
    match res with
    | Some err => ((r, w), inr (ErrWrap ("failed to create directory " +:+ dirPath) err))
    | None =>
        let filePath := path_join dirPath (t +:+ "_" +:+ format_hour ts +:+ ".csv") in
        let '(w, fileExists) := Stat filePath w in
        let w := log (LogOpening filePath fileExists) w in
        let '(w, res) := OpenFile filePath w in
        match res with
        | inr err => ((r, w), inr (ErrWrap ("failed to open file " +:+ filePath) err))
        | inl file =>
            let '(w, buffer) := bufio_new file w in
            let writer := csv_new buffer in
            let '(w, hres) := if fileExists then (w, None) else csv_write writer header w in
            match hres with
            | Some err =>
                let '(w, _) := file_close file w in
                ((r, w), inr (ErrWrap "failed to write header" err))
            | None =>
                let w := if fileExists then w else log (LogHeaderWritten filePath) w in
                ((register (key_of t ts) file buffer writer r,
                  log (LogWriterCreated t filePath) w), inl writer)
            end
        end
    end.
Proof.
  intros Hw. unfold getWriter. fold (key_of t ts). rewrite Hw. unfold rotated.
  destruct (next_order (snd st)) as [ord w0].
  destruct (cleanup_loop _ _ _ _) as [r1 w1]. reflexivity.
Qed.

(** The outcome of [getWriter] on a partition that is not open: it is
    decided by the two sets of faults for the directory and the file. *)
Lemma getWriter_outcome t ts st :
  writers (fst st) !! key_of t ts = None ->
  let dir := partition_dir (baseDir (fst st)) ts in
  let path := partition_path (baseDir (fst st)) t ts in
  match snd (getWriter t ts st) with
  | inl cw =>
      (dir ∉ fail_mkdir (faults (snd st))) /\ (path ∉ fail_open (faults (snd st)))
  | inr e =>
      (dir ∈ fail_mkdir (faults (snd st))
       /\ e = ErrWrap ("failed to create directory " +:+ dir) (ErrSys "mkdir" dir))
      \/ ((dir ∉ fail_mkdir (faults (snd st))) /\ path ∈ fail_open (faults (snd st))
          /\ e = ErrWrap ("failed to open file " +:+ path) (ErrSys "open" path))
  end.
Proof.
  intros Hw. cbv zeta. rewrite (getWriter_rotated _ _ _ Hw). cbv zeta.
  unfold partition_dir, partition_path.
  rewrite rotated_baseDir. pose proof (rotated_faults t ts st) as Hfl.
  destruct (rotated t ts st) as [r1 w1]. simpl fst in *. simpl snd in *.
  set (dir := path_join (baseDir (fst st)) (format_date ts)).
  set (path := path_join dir (t +:+ "_" +:+ format_hour ts +:+ ".csv")).
  unfold MkdirAll. cbn [faults log emit]. rewrite Hfl.
  destruct (decide (dir ∈ fail_mkdir (faults (snd st)))) as [Hd|Hd]; [simpl; auto|].
  unfold OpenFile. cbn [faults log emit set_fs_dirs]. rewrite Hfl.
  destruct (decide (path ∈ fail_open (faults (snd st)))) as [Hp|Hp]; [simpl; auto|].
  destruct (bool_decide _).
  - simpl. auto.
  - erewrite csv_write_header_fresh by (simpl; apply lookup_insert_eq). simpl. auto.
Qed.

End FrameFacts.

Import FrameFacts.

Module ResizeFacts.

Lemma close_old_resized n k cw r w :
  close_old k cw (with_bufferSize n r, w)
  = (with_bufferSize n (fst (close_old k cw (r, w))), snd (close_old k cw (r, w))).
Proof.
  unfold close_old. cbn [buffers files with_bufferSize].
  destruct (buffers r !! k) as [buf|]; destruct (files r !! k) as [file|]; reflexivity.
Qed.

Lemma cleanup_loop_resized n t key keys r w :
  cleanup_loop t key keys (with_bufferSize n r, w)
  = (with_bufferSize n (fst (cleanup_loop t key keys (r, w))),
     snd (cleanup_loop t key keys (r, w))).
Proof.
  revert r w. induction keys as [|k keys IH]; intros r w; [reflexivity|].
  cbn [cleanup_loop fst writers with_bufferSize].
  destruct (writers r !! k) as [cw|]; [|apply IH].
  destruct (is_old_key t key k); [|apply IH].
  rewrite close_old_resized. destruct (close_old k cw (r, w)) as [r1 w1]. apply IH.
Qed.

Lemma getWriter_resized n t ts r w :
  getWriter t ts (with_bufferSize n r, w) = resized n (getWriter t ts (r, w)).
Proof.
  unfold getWriter. cbn [fst snd writers with_bufferSize].
  destruct (writers r !! _) as [cw|]; [reflexivity|].
  destruct (next_order w) as [ord w0].
  change (mkRecorder (baseDir r) (writers r) (files r) (buffers r) n)
    with (with_bufferSize n r).
  rewrite cleanup_loop_resized.
  destruct (cleanup_loop _ _ _ (r, w0)) as [r1 w1]. cbn [fst snd baseDir with_bufferSize].
  destruct (MkdirAll _ _) as [w2 [err|]]; [reflexivity|].
  destruct (Stat _ _) as [w3 fileExists].
  destruct (OpenFile _ _) as [w4 [file|err]]; [|reflexivity].
  destruct (bufio_new file w4) as [w5 buffer].
  destruct (if fileExists then _ else _) as [w6 [err|]]; [|reflexivity].
  destruct (file_close file w6) as [w7 ?]. reflexivity.
Qed.

Lemma Record_resized `{Strconv} n d r w :
  Record_ d (with_bufferSize n r, w) = resized n (Record_ d (r, w)).
Proof.
  unfold Record_. rewrite getWriter_resized.
  destruct (getWriter _ _ (r, w)) as [[r1 w1] [cw|e]]; [|reflexivity].
  unfold resized. cbn [fst snd].
  destruct (csv_write cw (record_of d) w1) as [w2 [e|]]; reflexivity.
Qed.

Lemma RecordBatch_resized `{Strconv} n ds r w :
  RecordBatch ds (with_bufferSize n r, w) = resized n (RecordBatch ds (r, w)).
Proof.
  revert r w. induction ds as [|d ds IH]; intros r w; [reflexivity|].
  cbn [RecordBatch]. rewrite getWriter_resized.
  destruct (getWriter _ _ (r, w)) as [[r1 w1] [cw|e]]; [|reflexivity].
  unfold resized at 1. cbn [fst snd].
  destruct (csv_write cw (record_of d) w1) as [w2 [e|]]; [reflexivity|]. apply IH.
Qed.

Lemma flush_loop_resized n keys r w :
  flush_loop keys (with_bufferSize n r) w = flush_loop keys r w.
Proof.
  revert w. induction keys as [|k keys IH]; intros w; [reflexivity|].
  cbn [flush_loop writers buffers with_bufferSize].
  change (mkRecorder (baseDir r) (writers r) (files r) (buffers r) n)
    with (with_bufferSize n r).
  destruct (writers r !! k) as [cw|]; [|apply IH].
  destruct (csv_error cw (csv_flush cw w)); [reflexivity|].
  destruct (match buffers r !! k with Some buf => _ | None => _ end) as [w2 [e|]];
    [reflexivity|apply IH].
Qed.

Lemma Flush_resized n r w : Flush (with_bufferSize n r, w) = resized n (Flush (r, w)).
Proof.
  unfold Flush. cbn [writers with_bufferSize].
  destruct (next_order _) as [ord w1].
  change (mkRecorder (baseDir r) (writers r) (files r) (buffers r) n)
    with (with_bufferSize n r).
  rewrite flush_loop_resized.
  destruct (flush_loop _ r w1) as [w2 [e|]]; reflexivity.
Qed.

Lemma Close_resized n r w : Close (with_bufferSize n r, w) = resized n (Close (r, w)).
Proof.
  assert (H1 : forall keys w0, close_writers_loop keys (with_bufferSize n r) w0
                               = close_writers_loop keys r w0).
  { induction keys as [|k keys IH]; intros w0; [reflexivity|].
    cbn [close_writers_loop writers with_bufferSize].
    change (mkRecorder (baseDir r) (writers r) (files r) (buffers r) n)
      with (with_bufferSize n r).
    destruct (writers r !! k) as [cw|]; [|apply IH].
    destruct (csv_error cw (csv_flush cw w0)); [reflexivity|apply IH]. }
  assert (H2 : forall keys w0, close_buffers_loop keys (with_bufferSize n r) w0
                               = close_buffers_loop keys r w0).
  { induction keys as [|k keys IH]; intros w0; [reflexivity|].
    cbn [close_buffers_loop buffers with_bufferSize].
    change (mkRecorder (baseDir r) (writers r) (files r) (buffers r) n)
      with (with_bufferSize n r).
    destruct (buffers r !! k) as [buf|]; [|apply IH].
    destruct (bufio_flush buf w0) as [w1 [e|]]; [reflexivity|apply IH]. }
  assert (H3 : forall keys w0, close_files_loop keys (with_bufferSize n r) w0
                               = close_files_loop keys r w0).
  { induction keys as [|k keys IH]; intros w0; [reflexivity|].
    cbn [close_files_loop files with_bufferSize].
    change (mkRecorder (baseDir r) (writers r) (files r) (buffers r) n)
      with (with_bufferSize n r).
    destruct (files r !! k) as [file|]; [|apply IH].
    destruct (file_close file w0) as [w1 [e|]]; [reflexivity|apply IH]. }
  unfold Close. cbn [writers buffers files with_bufferSize].
  change (mkRecorder (baseDir r) (writers r) (files r) (buffers r) n)
    with (with_bufferSize n r).
  destruct (next_order w) as [o1 w1]. rewrite H1.
  destruct (close_writers_loop _ r w1) as [w2 [e|]]; [reflexivity|].
  destruct (next_order w2) as [o2 w3]. rewrite H2.
  destruct (close_buffers_loop _ r w3) as [w4 [e|]]; [reflexivity|].
  destruct (next_order w4) as [o3 w5]. rewrite H3.
  destruct (close_files_loop _ r w5) as [w6 [e|]]; reflexivity.
Qed.

End ResizeFacts.

Import ResizeFacts.



(** X2. Flush can fail at the flush of a csv writer only.  The csv writer
    of a partition writes straight into the partition's bufio writer, so
    the flush of the buffer that follows in the loop finds it empty: the
    error of a Flush always reads "failed to flush writer for KEY", for an
    open partition KEY whose writer carries the error wrapped. *)
Theorem Flush_fails_only_at_a_writer `{Strconv} (st st' : St) (e : error) :
  reachable st -> Flush st = (st', Some e) ->
  exists k cw e0,
    writers (fst st) !! k = Some cw
    /\ e = ErrWrap ("failed to flush writer for " +:+ k) e0
    /\ csv_error cw (snd st') = Some e0.
Proof. apply Flush_err_cases. Qed.

Lemma Flush_fails_only_at_a_writer_witness :
  exists k cw e0,
    writers (fst one_stuck) !! k = Some cw
    /\ ErrWrap "failed to flush writer for AUDUSD_20251118_12" (ErrSys "write" stuck_path)
       = ErrWrap ("failed to flush writer for " +:+ k) e0
    /\ csv_error cw (snd (fst (Flush one_stuck))) = Some e0.
Proof.
  apply (Flush_fails_only_at_a_writer (H := no_shortest) one_stuck (fst (Flush one_stuck))
           (ErrWrap "failed to flush writer for AUDUSD_20251118_12" (ErrSys "write" stuck_path))).
  - apply (reach_Record (H := no_shortest)); [apply reach_new|reflexivity].
  - vm_compute. reflexivity.
Defined.

(** X3. Close can fail at the flush of a csv writer or at the close of a
    file only: once its first loop has flushed every writer, its second
    loop, over the buffers, finds every buffer empty.  In either case the
    recorder is handed back as it was, and the file whose close failed is
    closed all the same. *)
Theorem Close_fails_only_at_a_writer_or_a_file `{Strconv} (st st' : St) (e : error) :
  reachable st -> Close st = (st', Some e) ->
  fst st' = fst st
  /\ ((exists k cw e0,
         writers (fst st) !! k = Some cw
         /\ e = ErrWrap ("failed to flush writer for " +:+ k +:+ " during close") e0
         /\ csv_error cw (snd st') = Some e0)
      \/ (exists k l e0,
            files (fst st) !! k = Some l
            /\ e = ErrWrap ("failed to close file for " +:+ k) e0
            /\ closed_in l (snd st'))).
Proof. apply Close_err_cases. Qed.

Lemma Close_fails_only_at_a_writer_or_a_file_witness :
  fst (fst (Close one_stuck)) = fst one_stuck
  /\ ((exists k cw e0,
         writers (fst one_stuck) !! k = Some cw
         /\ ErrWrap "failed to flush writer for AUDUSD_20251118_12 during close"
              (ErrSys "write" stuck_path)
            = ErrWrap ("failed to flush writer for " +:+ k +:+ " during close") e0
         /\ csv_error cw (snd (fst (Close one_stuck))) = Some e0)
      \/ (exists k l e0,
            files (fst one_stuck) !! k = Some l
            /\ ErrWrap "failed to flush writer for AUDUSD_20251118_12 during close"
                 (ErrSys "write" stuck_path)
               = ErrWrap ("failed to close file for " +:+ k) e0
            /\ closed_in l (snd (fst (Close one_stuck))))).
Proof.
  apply (Close_fails_only_at_a_writer_or_a_file (H := no_shortest) one_stuck
           (fst (Close one_stuck))
           (ErrWrap "failed to flush writer for AUDUSD_20251118_12 during close"
              (ErrSys "write" stuck_path))).
  - apply (reach_Record (H := no_shortest)); [apply reach_new|reflexivity].
  - vm_compute. reflexivity.
Defined.

(** X4. The error of a bufio writer is sticky.  While the recorder holds a
    partition whose buffer carries an error, every Flush fails, every Close
    fails without closing a file or removing a partition, and every Record
    for that partition fails with the buffer's error, leaving the recorder
    and the world as they were. *)
Theorem broken_partition_fails_every_call `{Strconv} (st : St) (k : string) (cw : CsvWriter) :
  writers (fst st) !! k = Some cw -> broken cw (snd st) ->
  is_Some (snd (Flush st))
  /\ (is_Some (snd (Close st)) /\ fst (fst (Close st)) = fst st
      /\ h_files (snd (fst (Close st))) = h_files (snd st))
  /\ forall d, key_of (Ticker d) (Timestamp d) = k ->
       exists e, Record_ d st = (st, Some (ErrWrap "failed to write record" e)).
Proof.
  intros Hw Hbr. split; [eapply Flush_broken; eassumption|].
  split; [eapply Close_broken; eassumption|].
  intros d Hk. subst k. destruct Hbr as (b & e & Hb & He). exists e.
  unfold Record_. rewrite (getWriter_open _ _ _ _ Hw).
  unfold csv_write, bufio_write. rewrite Hb, He. destruct st; reflexivity.
Qed.

Lemma broken_partition_fails_every_call_witness :
  is_Some (snd (Flush (fst (Flush one_stuck))))
  /\ (is_Some (snd (Close (fst (Flush one_stuck))))
      /\ fst (fst (Close (fst (Flush one_stuck)))) = fst (fst (Flush one_stuck))
      /\ h_files (snd (fst (Close (fst (Flush one_stuck)))))
         = h_files (snd (fst (Flush one_stuck))))
  /\ forall d, key_of (Ticker d) (Timestamp d) = "AUDUSD_20251118_12" ->
       exists e, Record_ (H := no_shortest) d (fst (Flush one_stuck))
                 = (fst (Flush one_stuck), Some (ErrWrap "failed to write record" e)).
Proof.
  apply (broken_partition_fails_every_call (H := no_shortest) (fst (Flush one_stuck))
           "AUDUSD_20251118_12" (mkCsvWriter 1%positive)).
  - vm_compute. reflexivity.
  - eexists _, _. split; vm_compute; reflexivity.
Defined.

(** X5. A Flush that failed fails again when it is retried, whatever the
    environment has become in between (the disk may have recovered), and
    so does a Close, which then closes no file: the partition whose write
    failed stays broken. *)
Theorem failed_Flush_fails_again `{Strconv} (st : St) fs dirs flt sch :
  reachable st -> is_Some (snd (Flush st)) ->
  is_Some (snd (Flush (environment fs dirs flt sch (fst (Flush st)))))
  /\ is_Some (snd (Close (environment fs dirs flt sch (fst (Flush st)))))
  /\ h_files (snd (fst (Close (environment fs dirs flt sch (fst (Flush st))))))
     = h_files (snd (fst (Flush st))).
Proof.
  intros Hreach Hfail.
  destruct (failed_Flush_stuck _ Hreach Hfail) as (k & cw & Hw & Hbr).
  assert (Hw' : writers (fst (environment fs dirs flt sch (fst (Flush st)))) !! k = Some cw)
    by exact Hw.
  assert (Hbr' : broken cw (snd (environment fs dirs flt sch (fst (Flush st)))))
    by exact Hbr.
  split; [eapply Flush_broken; eassumption|].
  destruct (Close_broken _ _ _ Hw' Hbr') as (Hc & _ & Hh).
  split; [exact Hc|]. rewrite Hh. reflexivity.
Qed.

Lemma failed_Flush_fails_again_witness :
  is_Some (snd (Flush (calm (fst (Flush one_stuck)))))
  /\ is_Some (snd (Close (calm (fst (Flush one_stuck)))))
  /\ h_files (snd (fst (Close (calm (fst (Flush one_stuck))))))
     = h_files (snd (fst (Flush one_stuck))).
Proof.
  apply (failed_Flush_fails_again (H := no_shortest) one_stuck ∅ ∅ (mkFaults ∅ ∅ ∅ ∅) []).
  - apply (reach_Record (H := no_shortest)); [apply reach_new|reflexivity].
  - vm_compute. eauto.
Defined.

(** X6. A Close that failed fails again when it is retried, whatever the
    environment has become in between: the writer whose flush failed stays
    broken, and the file whose close failed is closed, so that closing it
    again is an error. *)
Theorem failed_Close_fails_again `{Strconv} (st : St) fs dirs flt sch :
  reachable st -> is_Some (snd (Close st)) ->
  is_Some (snd (Close (environment fs dirs flt sch (fst (Close st))))).
Proof.
  intros Hreach Hfail. apply Close_stuck, stuck_environment.
  apply failed_Close_stuck; assumption.
Qed.

Lemma failed_Close_fails_again_witness :
  is_Some (snd (Close (calm (fst (Close one_stuck))))).
Proof.
  apply (failed_Close_fails_again (H := no_shortest) one_stuck ∅ ∅ (mkFaults ∅ ∅ ∅ ∅) []).
  - apply (reach_Record (H := no_shortest)); [apply reach_new|reflexivity].
  - vm_compute. eauto.
Defined.

(** X7. A Flush that follows a Flush without error finds every buffer
    empty: it returns nil and performs no system call, so that it cannot
    fail, whatever the file system has become in between. *)
Theorem Flush_again_writes_nothing `{Strconv} (st : St) fs dirs flt sch :
  reachable st -> snd (Flush st) = None ->
  snd (Flush (environment fs dirs flt sch (fst (Flush st)))) = None
  /\ syscalls (trace (snd (fst (Flush (environment fs dirs flt sch (fst (Flush st)))))))
     = syscalls (trace (snd (fst (Flush st))))
  /\ fs_files (snd (fst (Flush (environment fs dirs flt sch (fst (Flush st)))))) = fs.
Proof.
  intros Hreach Hok.
  pose proof (reachable_shared_buffer _ Hreach) as Hsh.
  pose proof (Flush_fst st) as Hfst.
  assert (Hall : forall k cw, writers (fst st) !! k = Some cw ->
                   flushed cw (snd (fst (Flush st)))).
  { intros k cw Hw. revert Hok. rewrite Flush_eq.
    destruct (flush_loop (flush_order st) (fst st) (flush_start st)) as [w [e|]] eqn:Hloop;
      [discriminate|]. intros _. simpl. apply flushed_emit.
    eapply flush_loop_ok; [exact Hloop| |exact Hw]. apply range_keys_complete. eauto. }
  set (st1 := environment fs dirs flt sch (fst (Flush st))).
  assert (Hr1 : fst st1 = fst st) by exact Hfst.
  assert (Hall1 : forall k cw, writers (fst st1) !! k = Some cw -> flushed cw (flush_start st1)).
  { intros k cw Hw. rewrite Hr1 in Hw.
    apply (flushed_same_bufs cw (snd (fst (Flush st)))); [|eapply Hall, Hw].
    unfold flush_start. rewrite next_order_h_bufs. reflexivity. }
  assert (Hsh1 : shared_buffer (fst st1)) by (rewrite Hr1; exact Hsh).
  destruct (flush_loop_idle (flush_order st1) (fst st1) (flush_start st1) Hsh1 Hall1)
    as (H1 & H2 & _ & _ & H5).
  rewrite Flush_eq.
  destruct (flush_loop (flush_order st1) (fst st1) (flush_start st1)) as [w [e|]];
    simpl in H1, H2, H5; [discriminate|].
  cbn [fst snd]. split; [reflexivity|]. split.
  - rewrite syscalls_log, H2. unfold flush_start. rewrite next_order_trace, syscalls_log.
    reflexivity.
  - change (fs_files w = fs). rewrite H5. unfold flush_start. rewrite next_order_fs_files.
    reflexivity.
Qed.

Lemma Flush_again_writes_nothing_witness :
  snd (Flush (calm (fst (Flush one_recorded)))) = None
  /\ syscalls (trace (snd (fst (Flush (calm (fst (Flush one_recorded)))))))
     = syscalls (trace (snd (fst (Flush one_recorded))))
  /\ fs_files (snd (fst (Flush (calm (fst (Flush one_recorded)))))) = ∅.
Proof.
  apply (Flush_again_writes_nothing (H := no_shortest) one_recorded ∅ ∅ (mkFaults ∅ ∅ ∅ ∅) []).
  - apply (reach_Record (H := no_shortest)); [apply reach_new|reflexivity].
  - vm_compute. reflexivity.
Defined.

(** X8. A Close without error leaves the recorder as NewCSVSpreadRecorder
    made it, over the same base directory: it can be used again.  A Close
    or a Flush that follows returns nil and performs no system call. *)
Theorem Close_leaves_a_new_recorder `{Strconv} (st : St) fs dirs flt sch :
  reachable st -> snd (Close st) = None ->
  fst (fst (Close st)) = NewCSVSpreadRecorder (baseDir (fst st))
  /\ snd (Close (environment fs dirs flt sch (fst (Close st)))) = None
  /\ syscalls (trace (snd (fst (Close (environment fs dirs flt sch (fst (Close st)))))))
     = syscalls (trace (snd (fst (Close st))))
  /\ snd (Flush (environment fs dirs flt sch (fst (Close st)))) = None
  /\ syscalls (trace (snd (fst (Flush (environment fs dirs flt sch (fst (Close st)))))))
     = syscalls (trace (snd (fst (Close st)))).
Proof.
  intros Hreach Hok.
  assert (Hnew : fst (fst (Close st)) = NewCSVSpreadRecorder (baseDir (fst st))).
  { destruct (Close_cases st) as (_ & [[_ [e He]]|[Hr _]]); [congruence|].
    rewrite Hr, (reachable_bufferSize _ Hreach). reflexivity. }
  split; [exact Hnew|].
  set (st1 := environment fs dirs flt sch (fst (Close st))).
  assert (Hr1 : fst st1 = NewCSVSpreadRecorder (baseDir (fst st))) by exact Hnew.
  assert (Ht1 : trace (snd st1) = trace (snd (fst (Close st)))) by reflexivity.
  rewrite Close_eq, Flush_eq. cbv zeta. unfold flush_order. rewrite Hr1.
  cbn [writers buffers files NewCSVSpreadRecorder]. rewrite !range_keys_empty.
  cbn [close_writers_loop close_buffers_loop close_files_loop flush_loop fst snd].
  rewrite !next_order_trace, Ht1. repeat split.
  - rewrite syscalls_log. unfold flush_start. rewrite next_order_trace, syscalls_log, Ht1.
    reflexivity.
Qed.

Lemma Close_leaves_a_new_recorder_witness :
  fst (fst (Close one_recorded)) = NewCSVSpreadRecorder (baseDir (fst one_recorded))
  /\ snd (Close (calm (fst (Close one_recorded)))) = None
  /\ syscalls (trace (snd (fst (Close (calm (fst (Close one_recorded)))))))
     = syscalls (trace (snd (fst (Close one_recorded))))
  /\ snd (Flush (calm (fst (Close one_recorded)))) = None
  /\ syscalls (trace (snd (fst (Flush (calm (fst (Close one_recorded)))))))
     = syscalls (trace (snd (fst (Close one_recorded)))).
Proof.
  apply (Close_leaves_a_new_recorder (H := no_shortest) one_recorded ∅ ∅ (mkFaults ∅ ∅ ∅ ∅) []).
  - apply (reach_Record (H := no_shortest)); [apply reach_new|reflexivity].
  - vm_compute. reflexivity.
Defined.

(** X9. RecordBatch does to the recorder and the world what Record does
    when called for each observation in turn, up to and including the
    first that fails: the batch is not atomic, and the observations before
    the failing one stay recorded.  It returns nil exactly when every
    Record does, and its error wraps the error Record's wraps. *)
Theorem RecordBatch_is_Record_in_turn `{Strconv} (data : list PriceData) (st : St) :
  fst (RecordBatch data st) = fst (record_each data st)
  /\ (snd (RecordBatch data st) = None <-> snd (record_each data st) = None)
  /\ (forall e, snd (record_each data st) = Some e ->
        exists msg msg' e0,
          e = ErrWrap msg e0 /\ snd (RecordBatch data st) = Some (ErrWrap msg' e0)).
Proof.
  revert st. induction data as [|d data IH]; intros st.
  { simpl. repeat split; try reflexivity. discriminate. }
  cbn [RecordBatch record_each]. unfold Record_.
  destruct (getWriter (Ticker d) (Timestamp d) st) as [st1 [cw|e1]].
  2:{ simpl. repeat split; try discriminate. intros e [= <-]. eauto. }
  destruct (csv_write cw (record_of d) (snd st1)) as [w2 [e2|]].
  { simpl. repeat split; try discriminate. intros e [= <-]. eauto. }
  apply IH.
Qed.


(** X11. A partition key identifies the series and the hour: two
    observations get the same key only if they have the same series
    identifier, whatever characters it holds, and fall in the same hour of
    the same date. *)
Theorem partition_key_identifies_series_and_hour (t t' : string) (ts ts' : Time) :
  wf_time ts = true -> wf_time ts' = true -> key_of t ts = key_of t' ts' ->
  t = t' /\ same_hour ts ts'.
Proof.
  intros Hwf Hwf' Heq. pose proof (key_of_inj _ _ _ _ Hwf Hwf' Heq) as (-> & _).
  split; [reflexivity|]. apply (key_of_other_hour t'); assumption.
Qed.

Lemma partition_key_identifies_series_and_hour_witness :
  "EURUSD" = "EURUSD" /\ same_hour noon half_past_noon.
Proof.
  apply (partition_key_identifies_series_and_hour "EURUSD" "EURUSD" noon half_past_noon);
    reflexivity.
Defined.

(** X12. When getWriter opens a partition, the partitions it leaves in the
    maps are the new one, if it could be opened, and those that were open
    and fail the prefix test of the cleanup loop: every open key that
    passes the test is removed, in whatever order the loop runs, and its
    file is closed. *)
Theorem getWriter_evicts_by_prefix `{Strconv} (t : string) (ts : Time) (st : St) (k : string) :
  reachable st -> writers (fst st) !! key_of t ts = None ->
  (is_Some (writers (fst (fst (getWriter t ts st))) !! k)
   <-> (k = key_of t ts /\ exists cw, snd (getWriter t ts st) = inl cw)
       \/ (is_Some (writers (fst st) !! k) /\ is_old_key t (key_of t ts) k = false))
  /\ (is_old_key t (key_of t ts) k = true ->
      forall l, files (fst st) !! k = Some l -> closed_in l (snd (fst (getWriter t ts st)))).
Proof.
  intros Hreach Hw. destruct (reachable_inv _ Hreach) as (Hsk & Hval & _).
  assert (Hrot : is_Some (writers (fst (rotated t ts st)) !! k)
                 <-> is_Some (writers (fst st) !! k) /\ is_old_key t (key_of t ts) k = false).
  { rewrite rotated_eq. split.
    - intros [cw Hk].
      destruct (cleanup_sub t (key_of t ts)
                  (range_keys (writers (fst st)) (fst (next_order (snd st))))
                  (fst st, snd (next_order (snd st))) k) as (Hsub & _).
      pose proof (Hsub _ Hk) as Hk0. simpl in Hk0. split; [eauto|].
      destruct (is_old_key t (key_of t ts) k) eqn:Hold; [|reflexivity]. exfalso.
      apply (cleanup_evicts t (key_of t ts)
               (range_keys (writers (fst st)) (fst (next_order (snd st))))
               (fst st, snd (next_order (snd st))) k); try assumption.
      + apply range_keys_complete. eauto.
      + left. eauto.
    - intros [Hk Hold].
      destruct (cleanup_keeps t (key_of t ts)
                  (range_keys (writers (fst st)) (fst (next_order (snd st))))
                  (fst st, snd (next_order (snd st))) k Hold) as (-> & _). exact Hk. }
  destruct (getWriter t ts st) as [st' res] eqn:Hg.
  destruct (getWriter_new _ _ _ _ _ Hw Hg) as (Hm & Hcase). cbn [fst snd]. split.
  - destruct Hcase as [[-> [e ->]]|(file & buffer & -> & -> & _)].
    + rewrite Hrot. split; [auto|]. intros [[_ [cw Hc]]|Hk]; [discriminate|exact Hk].
    + simpl. destruct (decide (key_of t ts = k)) as [<-|Hne].
      * rewrite lookup_insert_eq. split; [|eauto]. intros _. left. eauto.
      * rewrite lookup_insert_ne by assumption. rewrite Hrot.
        split; [auto|]. intros [[-> _]|Hk]; [congruence|exact Hk].
  - intros Hold l Hl. eapply closed_in_mono; [exact Hm|]. rewrite rotated_eq.
    assert (Hwk : is_Some (writers (fst st) !! k)).
    { destruct (Hsk k) as [[_ Hfw] _]. apply Hfw. eauto. }
    apply cleanup_closes with (k := k); try assumption.
    + apply range_keys_complete. exact Hwk.
    + simpl. rewrite next_order_h_files. eapply Hval. exact Hl.
Qed.

Lemma getWriter_evicts_by_prefix_witness :
  (is_Some (writers (fst (fst (getWriter "EUR" noon
              (fst (Record_ (H := no_shortest) eurusd_noon new_recorder)))))
            !! "EURUSD_20251118_12")
   <-> ("EURUSD_20251118_12" = key_of "EUR" noon
        /\ exists cw, snd (getWriter "EUR" noon
                        (fst (Record_ (H := no_shortest) eurusd_noon new_recorder))) = inl cw)
       \/ (is_Some (writers (fst (fst (Record_ (H := no_shortest) eurusd_noon new_recorder)))
                    !! "EURUSD_20251118_12")
           /\ is_old_key "EUR" (key_of "EUR" noon) "EURUSD_20251118_12" = false))
  /\ (is_old_key "EUR" (key_of "EUR" noon) "EURUSD_20251118_12" = true ->
      forall l, files (fst (fst (Record_ (H := no_shortest) eurusd_noon new_recorder)))
                  !! "EURUSD_20251118_12" = Some l ->
        closed_in l (snd (fst (getWriter "EUR" noon
                       (fst (Record_ (H := no_shortest) eurusd_noon new_recorder)))))).
Proof.
  apply (getWriter_evicts_by_prefix (H := no_shortest) "EUR" noon
           (fst (Record_ (H := no_shortest) eurusd_noon new_recorder)) "EURUSD_20251118_12").
  - apply (reach_Record (H := no_shortest)); [apply reach_new|reflexivity].
  - vm_compute. reflexivity.
Defined.

(** X13. Series whose identifiers have the same length, such as the
    six-letter currency pairs, do not disturb one another: a Record for one
    leaves the open partition of another in the three maps, with the same
    writer, file and buffer. *)
Theorem equal_length_series_do_not_interfere `{Strconv} (d : PriceData) (st : St)
    (t' : string) (ts' : Time) :
  String.length (Ticker d) = String.length t' -> Ticker d <> t' ->
  is_Some (writers (fst st) !! key_of t' ts') ->
  writers (fst (fst (Record_ d st))) !! key_of t' ts' = writers (fst st) !! key_of t' ts'
  /\ files (fst (fst (Record_ d st))) !! key_of t' ts' = files (fst st) !! key_of t' ts'
  /\ buffers (fst (fst (Record_ d st))) !! key_of t' ts' = buffers (fst st) !! key_of t' ts'.
Proof.
  intros Hlen Hne Hopen. rewrite Record_fst.
  destruct (writers (fst st) !! key_of (Ticker d) (Timestamp d)) as [cw|] eqn:Hw.
  { rewrite (getWriter_open _ _ _ _ Hw). auto. }
  assert (Hk : key_of (Ticker d) (Timestamp d) <> key_of t' ts').
  { intros Heq. rewrite Heq in Hw. rewrite Hw in Hopen. destruct Hopen; discriminate. }
  assert (Hold : is_old_key (Ticker d) (key_of (Ticker d) (Timestamp d)) (key_of t' ts') = false).
  { unfold is_old_key, key_of at 2 3, partition_key. rewrite Hlen, substring_prefix.
    apply (proj2 (String.eqb_neq _ _)) in Hne. rewrite String.eqb_sym in Hne.
    rewrite Hne, andb_false_r. reflexivity. }
  pose proof (cleanup_keeps (Ticker d) (key_of (Ticker d) (Timestamp d))
                (range_keys (writers (fst st)) (fst (next_order (snd st))))
                (fst st, snd (next_order (snd st))) (key_of t' ts') Hold) as Hkeep.
  cbv zeta in Hkeep. rewrite <- rotated_eq in Hkeep. cbn [fst] in Hkeep.
  destruct (getWriter (Ticker d) (Timestamp d) st) as [st' res] eqn:Hg.
  cbn [fst].
  destruct (getWriter_new _ _ _ _ _ Hw Hg) as (_ & [[-> _]|(file & buffer & _ & -> & _)]);
    [exact Hkeep|].
  simpl. rewrite !lookup_insert_ne by assumption. exact Hkeep.
Qed.

Lemma equal_length_series_do_not_interfere_witness :
  writers (fst (fst (Record_ (H := no_shortest) usdjpy_noon one_stuck))) !! key_of "AUDUSD" noon
  = writers (fst one_stuck) !! key_of "AUDUSD" noon
  /\ files (fst (fst (Record_ (H := no_shortest) usdjpy_noon one_stuck))) !! key_of "AUDUSD" noon
     = files (fst one_stuck) !! key_of "AUDUSD" noon
  /\ buffers (fst (fst (Record_ (H := no_shortest) usdjpy_noon one_stuck))) !! key_of "AUDUSD" noon
     = buffers (fst one_stuck) !! key_of "AUDUSD" noon.
Proof.
  apply (equal_length_series_do_not_interfere (H := no_shortest) usdjpy_noon one_stuck
           "AUDUSD" noon).
  - reflexivity.
  - discriminate.
  - vm_compute. eauto.
Defined.

(** X14. No method reads bufferSize, the number of records the recorder
    was to buffer before flushing by itself: with any other value in the
    field, Record, RecordBatch, Flush and Close return the same result and
    leave the same maps and the same world.  The recorder never flushes on
    a count of records. *)
Theorem bufferSize_is_never_read `{Strconv} (n : Z) (r : Recorder) (w : World) :
  (forall d, Record_ d (with_bufferSize n r, w) = resized n (Record_ d (r, w)))
  /\ (forall ds, RecordBatch ds (with_bufferSize n r, w) = resized n (RecordBatch ds (r, w)))
  /\ Flush (with_bufferSize n r, w) = resized n (Flush (r, w))
  /\ Close (with_bufferSize n r, w) = resized n (Close (r, w)).
Proof.
  split; [intros d; apply Record_resized|].
  split; [intros ds; apply RecordBatch_resized|].
  split; [apply Flush_resized|apply Close_resized].
Qed.
(* ===================================================================== *)
(** * The rest of the collector service, and the command                  *)
(* ===================================================================== *)

Module ServiceFacts.

Lemma fold_left_snoc {A} (l acc : list A) :
  fold_left (fun xs x => xs ++ [x]) l acc = acc ++ l.
Proof.
  revert acc. induction l as [|x l IH]; intros acc; simpl.
  - rewrite List.app_nil_r. reflexivity.
  - rewrite IH, <- List.app_assoc. reflexivity.
Qed.

Lemma range_keys_elem {A} (m : gmap string A) hint k :
  k ∈ range_keys m hint <-> is_Some (m !! k).
Proof.
  split; [|apply range_keys_complete].
  unfold range_keys. intros Hin. apply elem_of_app in Hin as [Hin|Hin].
  - apply elem_of_remove_dups, list_elem_of_filter in Hin as [Hs _]. exact Hs.
  - apply list_elem_of_filter in Hin as [_ Hin].
    apply list_elem_of_fmap in Hin as ([k' v] & -> & Hin).
    apply elem_of_map_to_list in Hin. simpl. eauto.
Qed.

Lemma range_keys_NoDup {A} (m : gmap string A) hint : NoDup (range_keys m hint).
Proof.
  unfold range_keys. apply NoDup_app. split; [apply NoDup_remove_dups|]. split.
  - intros k Hin Hin'. apply list_elem_of_filter in Hin' as [Hn _]. exact (Hn Hin).
  - apply NoDup_filter, NoDup_fst_map_to_list.
Qed.

Lemma range_keys_length {A} (m : gmap string A) hint : length (range_keys m hint) = size m.
Proof.
  rewrite <- (length_map_to_list m), <- (length_fmap fst (map_to_list m)).
  apply Permutation_length, NoDup_Permutation.
  - apply range_keys_NoDup.
  - apply NoDup_fst_map_to_list.
  - intros k. rewrite range_keys_elem. split.
    + intros [v Hv]. apply list_elem_of_fmap. exists (k, v). split; [reflexivity|].
      apply elem_of_map_to_list. exact Hv.
    + intros Hin. apply list_elem_of_fmap in Hin as ([k' v] & -> & Hin).
      apply elem_of_map_to_list in Hin. simpl. eauto.
Qed.

Lemma int_wrap_small z : - 2 ^ 63 <= z < 2 ^ 63 -> int_wrap z = z.
Proof. intros Hz. unfold int_wrap. rewrite Z.mod_small by lia. lia. Qed.

Section Goroutines.
Context {R : Type} `{SpreadRecorder R}.

Lemma price_loop_spec instruments selected : forall r c out,
  0 <= c -> c + Z.of_nat (length selected) < 2 ^ 63 ->
  g_recorder (price_loop instruments selected r c out)
  = fold_left (record_known instruments) (received selected) r
  /\ g_count (price_loop instruments selected r c out)
     = c + Z.of_nat (count_recorded instruments (received selected) r)
  /\ (g_returned (price_loop instruments selected r c out) = true
      <-> exists s, s ∈ selected /\ (s = CtxDone \/ s = ChannelClosed)).
Proof.
  induction selected as [|s selected IH]; intros r c out Hc Hlen.
  { simpl. repeat split; [lia|discriminate|]. intros (s & Hin & _). inversion Hin. }
  assert (Hnow : exists s0, s0 ∈ s :: selected /\ (s0 = CtxDone \/ s0 = ChannelClosed) ->
                 True) by (exists s; auto).
  clear Hnow. cbn [length] in Hlen.
  destruct s as [|u|].
  - simpl. repeat split; [lia|]. intros _. exists CtxDone. split; [left|auto].
  - assert (Hiff : forall P : Prop,
              (P <-> exists s, s ∈ selected /\ (s = CtxDone \/ s = ChannelClosed)) ->
              (P <-> exists s, s ∈ Received u :: selected /\ (s = CtxDone \/ s = ChannelClosed))).
    { intros P HP. rewrite HP. split; intros (s & Hin & Hs).
      - exists s. split; [right; exact Hin|exact Hs].
      - exists s. split; [|exact Hs]. apply elem_of_cons in Hin as [->|Hin]; [|exact Hin].
        destruct Hs; discriminate. }
    cbn [price_loop received fold_left count_recorded]. unfold record_known at 2.
    destruct (mapPriceUpdate instruments u) as [d|err].
    + destruct (sr_Record d r) as [r1 [e|]]; cbn [fst snd].
      * destruct (IH r1 c (out ++ [LogRecordingError (Saxo.Ticker u) e])) as (H1 & H2 & H3);
          [lia|lia|]. split; [exact H1|]. split; [rewrite H2; lia|apply Hiff, H3].
      * rewrite int_wrap_small by lia.
        destruct (IH r1 (c + 1)
                    (if Z.rem (c + 1) 100 =? 0 then out ++ [LogProcessed (c + 1)] else out))
          as (H1 & H2 & H3); [lia|lia|].
        split; [exact H1|]. split; [rewrite H2; lia|apply Hiff, H3].
    + destruct (IH r c (out ++ [LogMappingError (Saxo.Ticker u) err])) as (H1 & H2 & H3);
        [lia|lia|]. split; [exact H1|]. split; [exact H2|apply Hiff, H3].
  - simpl. repeat split; [lia|]. intros _. exists ChannelClosed. split; [left|auto].
Qed.

Lemma flush_ticks_spec selected : forall (r : R) out,
  g_recorder (flush_ticks selected r out)
  = Nat.iter (ticks selected) (fun r => fst (sr_Flush r)) r
  /\ (g_returned (flush_ticks selected r out) = true
      <-> exists s, s ∈ selected /\ (s = FlushCtxDone \/ s = FlushStopped)).
Proof.
  induction selected as [|s selected IH]; intros r out.
  { simpl. split; [reflexivity|]. split; [discriminate|]. intros (s & Hin & _). inversion Hin. }
  destruct s.
  - simpl. split; [reflexivity|]. split; [|reflexivity].
    intros _. exists FlushCtxDone. split; [left|auto].
  - simpl. split; [reflexivity|]. split; [|reflexivity].
    intros _. exists FlushStopped. split; [left|auto].
  - cbn [flush_ticks ticks]. rewrite Nat.iter_succ_r.
    assert (Hiff : forall P : Prop,
              (P <-> exists s, s ∈ selected /\ (s = FlushCtxDone \/ s = FlushStopped)) ->
              (P <-> exists s, s ∈ Tick :: selected /\ (s = FlushCtxDone \/ s = FlushStopped))).
    { intros P HP. rewrite HP. split; intros (s & Hin & Hs).
      - exists s. split; [right; exact Hin|exact Hs].
      - exists s. split; [|exact Hs]. apply elem_of_cons in Hin as [->|Hin]; [|exact Hin].
        destruct Hs; discriminate. }
    destruct (sr_Flush r) as [r1 [e|]]; cbn [fst];
      [destruct (IH r1 (out ++ [LogFlushError e])) as (H1 & H2)
      |destruct (IH r1 out) as (H1 & H2)];
      (split; [exact H1|apply Hiff, H2]).
Qed.

End Goroutines.

End ServiceFacts.

Import ServiceFacts.

(** X15. processPriceUpdates never stops at an error.  Until its context
    is done or its channel closed, it calls Record once for every update
    whose instrument is configured, in the order of arrival, whatever the
    earlier calls returned, and leaves the recorder alone for an update of
    an unknown instrument; its counter is the number of updates that
    Record accepted.  It returns only when the context is done or the
    channel found closed. *)
Theorem processPriceUpdates_skips_errors {R : Type} `{SpreadRecorder R}
    (instruments : gmap string Services.Instrument) (selected : list Selected) (r : R) :
  Z.of_nat (length selected) < 2 ^ 63 ->
  g_recorder (processPriceUpdates instruments selected r)
  = fold_left (record_known instruments) (received selected) r
  /\ g_count (processPriceUpdates instruments selected r)
     = Z.of_nat (count_recorded instruments (received selected) r)
  /\ (g_returned (processPriceUpdates instruments selected r) = true
      <-> exists s, s ∈ selected /\ (s = CtxDone \/ s = ChannelClosed)).
Proof.
  intros Hlen. unfold processPriceUpdates.
  destruct (price_loop_spec instruments selected r 0 [LogProcessorStarting]) as (H1 & H2 & H3);
    [lia|lia|]. rewrite H1, H2. repeat split; apply H3.
Qed.

Lemma processPriceUpdates_skips_errors_witness :
  g_recorder (processPriceUpdates (H := CSVSpreadRecorder_SpreadRecorder (H := no_shortest))
                fx_instruments two_updates_then_done new_recorder)
  = fold_left (record_known (H := CSVSpreadRecorder_SpreadRecorder (H := no_shortest))
                 fx_instruments)
              (received two_updates_then_done) new_recorder
  /\ g_count (processPriceUpdates (H := CSVSpreadRecorder_SpreadRecorder (H := no_shortest))
                fx_instruments two_updates_then_done new_recorder)
     = Z.of_nat (count_recorded (H := CSVSpreadRecorder_SpreadRecorder (H := no_shortest))
                   fx_instruments (received two_updates_then_done) new_recorder)
  /\ (g_returned (processPriceUpdates (H := CSVSpreadRecorder_SpreadRecorder (H := no_shortest))
                    fx_instruments two_updates_then_done new_recorder) = true
      <-> exists s, s ∈ two_updates_then_done /\ (s = CtxDone \/ s = ChannelClosed)).
Proof.
  apply (processPriceUpdates_skips_errors
           (H := CSVSpreadRecorder_SpreadRecorder (H := no_shortest))
           fx_instruments two_updates_then_done new_recorder).
  vm_compute. reflexivity.
Defined.

(** X16. getAllTickers returns every configured ticker exactly once, in
    whatever order the map is iterated: Start subscribes to each
    instrument once. *)
Theorem getAllTickers_lists_every_instrument_once
    (instruments : gmap string Services.Instrument) (order : list string) :
  NoDup (getAllTickers instruments order)
  /\ (forall t, t ∈ getAllTickers instruments order <-> is_Some (instruments !! t))
  /\ length (getAllTickers instruments order) = size instruments.
Proof.
  unfold getAllTickers. rewrite fold_left_snoc. simpl.
  split; [apply range_keys_NoDup|]. split; [intros t; apply range_keys_elem|].
  apply range_keys_length.
Qed.

(** X17. The periodic flush never stops at an error: it calls Flush once
    for every tick selected before the context is done or the stop channel
    closed, whatever the earlier calls returned, and returns only then. *)
Theorem periodicFlush_flushes_at_every_tick {R : Type} `{SpreadRecorder R}
    (flushInterval : Z) (selected : list FlushSelected) (r : R) :
  g_recorder (periodicFlush flushInterval selected r)
  = Nat.iter (ticks selected) (fun r => fst (sr_Flush r)) r
  /\ (g_returned (periodicFlush flushInterval selected r) = true
      <-> exists s, s ∈ selected /\ (s = FlushCtxDone \/ s = FlushStopped)).
Proof. apply flush_ticks_spec. Qed.

Module StartFacts.

Lemma calls_stop_steps {R W} `{SpreadRecorder R} `{WebSocketClient W}
    (cs : CollectorService R W) :
  calls (stop_steps cs)
  = (match flushTicker cs with Some _ => [StopTimer; CloseStopFlush] | None => [] end)
    ++ [CancelContext; FinalFlush; CloseSource; CloseWriter].
Proof.
  unfold stop_steps.
  destruct (flushTicker cs); destruct (snd (sr_Flush (spreadRecorder cs)));
    destruct (snd (ws_Close (wsClient cs)));
    destruct (snd (sr_Close (fst (sr_Flush (spreadRecorder cs))))); reflexivity.
Qed.

Ltac not_in_steps :=
  let Hin := fresh "Hin" in
  intros Hin;
  repeat (apply elem_of_cons in Hin as [Hin|Hin]; [discriminate Hin|]);
  inversion Hin.

Ltac start_cases c :=
  unfold Start, startPeriodicFlush; cbn [authClient printed took with_authClient];
  destruct (auth_IsAuthenticated (authClient c));
  [|let a1 := fresh "a" in let e1 := fresh "e" in
    destruct (auth_Login (authClient c)) as [a1 [e1|]]];
  cbn [authClient svc wsClient with_wsClient took printed with_authClient instruments
       flushInterval with_flushTicker];
  try match goal with |- context [auth_StartTokenEarlyRefresh ?x] =>
        destruct (auth_StartTokenEarlyRefresh x) end;
  cbn [authClient svc wsClient with_wsClient took printed with_authClient instruments
       flushInterval with_flushTicker];
  try match goal with |- context [ws_Connect ?x] =>
        let w1 := fresh "w" in let e1 := fresh "e" in
        destruct (ws_Connect x) as [w1 [e1|]] end;
  cbn [authClient svc wsClient with_wsClient took printed with_authClient instruments
       flushInterval with_flushTicker];
  try match goal with |- context [ws_SubscribeToPrices ?t ?x] =>
        let w1 := fresh "w" in let e1 := fresh "e" in
        destruct (ws_SubscribeToPrices t x) as [w1 [e1|]] end;
  cbn [authClient svc wsClient with_wsClient took printed with_authClient instruments
       flushInterval with_flushTicker];
  try match goal with |- context [flushInterval c <=? 0] =>
        destruct (Z.leb_spec (flushInterval c) 0) end;
  cbn [fst snd authClient svc wsClient with_wsClient took printed with_authClient instruments
       flushInterval with_flushTicker started flushTicker stopFlush_closed ctx_cancelled
       spreadRecorder history].

Section Start.
Context {A B R W : Type} `{AuthClient A} `{PriceFeed W}.

(** What [Start] leaves of the fields [Stop] uses. *)
Lemma Start_frame (order : list string) (c : WholeService A B R W) :
  spreadRecorder (svc (fst (Start order c))) = spreadRecorder (svc c)
  /\ stopFlush_closed (svc (fst (Start order c))) = stopFlush_closed (svc c)
  /\ history (svc (fst (Start order c))) = history (svc c)
  /\ flushTicker (svc (fst (Start order c)))
     = match snd (Start order c) with
       | Returned None => Some (mkFlushTicker false)
       | _ => flushTicker (svc c)
       end
  /\ (snd (Start order c) = Returned None -> 0 < flushInterval c)
  /\ (forall reason, snd (Start order c) = Panicked reason -> flushInterval c <= 0)
  /\ (0 < flushInterval c -> forall reason, snd (Start order c) <> Panicked reason)
  /\ (flushInterval c <= 0 -> snd (Start order c) <> Returned None).
Proof.
  start_cases c; repeat split; try reflexivity; try discriminate; try lia; intros; try lia;
    discriminate.
Qed.

End Start.

End StartFacts.

Import StartFacts.

(** X18. A service made by NewCollectorService, which never fails, can be
    stopped after Start whenever Start returns: Stop returns nil, having
    stopped the timer and closed the stop channel exactly when Start
    returned nil, and then cancelled the context, flushed, closed the
    source and closed the recorder.  Start returns nil only with a positive
    flush interval, and panics only with one that is not positive. *)
Theorem Stop_after_Start {A B R W : Type} `{AuthClient A} `{PriceFeed W}
    `{SaxoWebSocket A W} `{SpreadRecorder R} `{WebSocketClient W}
    (a : A) (b : B) (insts : gmap string Services.Instrument) (rec : R) (interval : Z)
    (order : list string) :
  snd (NewCollectorService (W := W) a b insts rec interval) = None
  /\ match snd (Start order (fst (NewCollectorService (W := W) a b insts rec interval))) with
     | Panicked _ => interval <= 0
     | Returned res =>
         snd (Stop (svc (fst (Start order
                          (fst (NewCollectorService (W := W) a b insts rec interval))))))
         = Returned None
         /\ calls (history (fst (Stop (svc (fst (Start order
                     (fst (NewCollectorService (W := W) a b insts rec interval))))))))
            = (match res with None => [StopTimer; CloseStopFlush] | Some _ => [] end)
              ++ [CancelContext; FinalFlush; CloseSource; CloseWriter]
         /\ (res = None -> 0 < interval)
     end.
Proof.
  split; [reflexivity|].
  set (c0 := fst (NewCollectorService (W := W) a b insts rec interval)).
  destruct (Start_frame order c0) as (_ & Hcl & Hh & Htk & Hpos & Hpanic & _).
  destruct (snd (Start order c0)) as [res|reason] eqn:Hout; [|exact (Hpanic reason eq_refl)].
  assert (Hns : not_stopped (svc (fst (Start order c0)))) by (right; exact Hcl).
  destruct (Stop_completes _ Hns) as (Ho & Hhist & _).
  split; [exact Ho|]. split.
  - assert (Hh0 : history (svc c0) = []) by reflexivity.
    rewrite Hhist, Hh, Hh0, List.app_nil_l, calls_stop_steps, Htk.
    destruct res; reflexivity.
  - intros ->. apply Hpos. reflexivity.
Qed.

(** X19. Start needs a positive flush interval: with one it never panics;
    without one it never returns nil, and when nothing else fails it
    panics in time.NewTicker, after it has connected the WebSocket,
    subscribed to the prices and started the price processor, and without
    having set the ticker. *)
Theorem Start_needs_a_positive_interval {A B R W : Type} `{AuthClient A} `{PriceFeed W}
    (order : list string) (c : WholeService A B R W) :
  (0 < flushInterval c -> forall reason, snd (Start order c) <> Panicked reason)
  /\ (flushInterval c <= 0 -> snd (Start order c) <> Returned None)
  /\ (forall reason, snd (Start order c) = Panicked reason ->
        flushInterval c <= 0
        /\ flushTicker (svc (fst (Start order c))) = flushTicker (svc c)
        /\ exists steps,
             started (fst (Start order c)) = started c ++ steps
             /\ DidConnect ∈ steps
             /\ DidSubscribe (getAllTickers (instruments c) order) ∈ steps
             /\ last steps = Some WentPriceProcessor).
Proof.
  destruct (Start_frame order c) as (_ & _ & _ & Htk & _ & Hpanic & Hpos & Hnon).
  split; [exact Hpos|]. split; [exact Hnon|].
  intros reason Hout. split; [exact (Hpanic _ Hout)|].
  split; [rewrite Htk, Hout; reflexivity|].
  revert Hout. start_cases c; intros Hout; try discriminate Hout;
    (eexists; split; [rewrite <- !List.app_assoc; simpl; reflexivity|]);
    (split; [repeat first [apply list_elem_of_here|apply list_elem_of_further]|]);
    (split; [repeat first [apply list_elem_of_here|apply list_elem_of_further]|reflexivity]).
Qed.

(** X20. Start returns at the first call that fails, with its error
    wrapped: the login, the connection or the subscription.  Nothing that
    comes after the failing call is run: a failed login leaves the
    WebSocket unconnected, and in no case is the price processor or the
    periodic flush started, or the ticker set.  Nothing that came before is
    undone: after a failed subscription the WebSocket stays connected. *)
Theorem Start_stops_at_the_first_failure {A B R W : Type} `{AuthClient A} `{PriceFeed W}
    (order : list string) (c : WholeService A B R W) (e : Errorf) :
  snd (Start order c) = Returned (Some e) ->
  flushTicker (svc (fst (Start order c))) = flushTicker (svc c)
  /\ exists steps err,
       started (fst (Start order c)) = started c ++ steps
       /\ (WentPriceProcessor ∉ steps) /\ (WentPeriodicFlush ∉ steps)
       /\ ((e = Wrap "authentication failed" err
            /\ last steps = Some DidLogin /\ (DidConnect ∉ steps))
           \/ (e = Wrap "websocket connection failed" err
               /\ last steps = Some DidConnect)
           \/ (e = Wrap "price subscription failed" err
               /\ last steps = Some (DidSubscribe (getAllTickers (instruments c) order))
               /\ DidConnect ∈ steps)).
Proof.
  intros Hout. destruct (Start_frame order c) as (_ & _ & _ & Htk & _).
  split; [rewrite Htk, Hout; reflexivity|].
  revert Hout. start_cases c; intros Hout; try discriminate Hout; injection Hout as <-;
    (eexists; eexists; split; [rewrite <- !List.app_assoc; simpl; reflexivity|]);
    (split; [not_in_steps|]); (split; [not_in_steps|]);
    first [ left; split; [reflexivity|]; split; [reflexivity|not_in_steps]
          | right; left; split; reflexivity
          | right; right; split; [reflexivity|]; split; [reflexivity|];
            repeat first [apply list_elem_of_here|apply list_elem_of_further] ].
Qed.

Lemma Start_stops_at_the_first_failure_witness :
  flushTicker (svc (fst (Start (H := signed_in) (H0 := unreachable_feed) [] new_service)))
  = flushTicker (svc new_service)
  /\ exists steps err,
       started (fst (Start (H := signed_in) (H0 := unreachable_feed) [] new_service))
       = started new_service ++ steps
       /\ (WentPriceProcessor ∉ steps) /\ (WentPeriodicFlush ∉ steps)
       /\ ((Wrap "websocket connection failed" (ErrSys "dial" "wss://streaming")
            = Wrap "authentication failed" err
            /\ last steps = Some DidLogin /\ (DidConnect ∉ steps))
           \/ (Wrap "websocket connection failed" (ErrSys "dial" "wss://streaming")
               = Wrap "websocket connection failed" err
               /\ last steps = Some DidConnect)
           \/ (Wrap "websocket connection failed" (ErrSys "dial" "wss://streaming")
               = Wrap "price subscription failed" err
               /\ last steps
                  = Some (DidSubscribe (getAllTickers (instruments new_service) []))
               /\ DidConnect ∈ steps)).
Proof.
  apply (Start_stops_at_the_first_failure (H := signed_in) (H0 := unreachable_feed)
           [] new_service (Wrap "websocket connection failed" (ErrSys "dial" "wss://streaming"))).
  reflexivity.
Defined.

Module LoadFacts.

Lemma find_app {A} (p : A -> bool) (l l' : list A) :
  find p (l ++ l') = match find p l with Some x => Some x | None => find p l' end.
Proof.
  induction l as [|x l IH]; simpl; [reflexivity|]. destruct (p x); [reflexivity|exact IH].
Qed.

Lemma last_with_cons t i insts :
  last_with t (i :: insts)
  = match last_with t insts with
    | Some j => Some j
    | None => if String.eqb (Main.Ticker i) t then Some i else None
    end.
Proof. unfold last_with. simpl. rewrite find_app. reflexivity. Qed.

Lemma fold_insert_lookup insts : forall (m : gmap string Services.Instrument) t,
  fold_left (fun instruments inst => <[Main.Ticker inst := Main.to_Instrument inst]> instruments)
            insts m !! t
  = match last_with t insts with
    | Some i => Some (Main.to_Instrument i)
    | None => m !! t
    end.
Proof.
  induction insts as [|i insts IH]; intros m t; [reflexivity|].
  cbn [fold_left]. rewrite IH, last_with_cons.
  destruct (last_with t insts) as [j|]; [reflexivity|].
  destruct (String.eqb_spec (Main.Ticker i) t) as [->|Hne].
  - apply lookup_insert_eq.
  - apply lookup_insert_ne. exact Hne.
Qed.

Lemma fold_insert_size insts : forall (m : gmap string Services.Instrument),
  (size (fold_left (fun instruments inst =>
                      <[Main.Ticker inst := Main.to_Instrument inst]> instruments) insts m)
   <= size m + length insts)%nat.
Proof.
  induction insts as [|i insts IH]; intros m; simpl; [lia|].
  etransitivity; [apply IH|].
  destruct (m !! Main.Ticker i) eqn:Hm.
  - rewrite map_size_insert_Some by eauto. lia.
  - rewrite map_size_insert_None by exact Hm. lia.
Qed.

Lemma last_with_ticker t insts i : last_with t insts = Some i -> Main.Ticker i = t.
Proof.
  unfold last_with. intros Hf. apply find_some in Hf as [_ Hp].
  apply String.eqb_eq. exact Hp.
Qed.

End LoadFacts.

Import LoadFacts.

(** X21. When loadInstruments succeeds, the file held at least one entry
    and the map is not empty; each ticker of the file is a key, mapped to
    the last entry of the file with that ticker, so that entries repeating
    a ticker are dropped without an error and the map can hold fewer
    instruments than the file has entries; and every instrument is filed
    under its own ticker. *)
Theorem loadInstruments_keeps_the_last_of_each_ticker
    (ReadFile : string -> string + error) (Unmarshal : string -> list Main.instrument + error)
    (filepath : string) (m : gmap string Services.Instrument) :
  Main.loadInstruments ReadFile Unmarshal filepath = inl m ->
  exists data insts,
    ReadFile filepath = inl data /\ Unmarshal data = inl insts /\ insts <> []
    /\ (forall t, m !! t = option_map Main.to_Instrument (last_with t insts))
    /\ (forall t i, m !! t = Some i -> Services.Ticker i = t)
    /\ m <> ∅ /\ (size m <= length insts)%nat.
Proof.
  unfold Main.loadInstruments. intros Hload.
  destruct (ReadFile filepath) as [data|e] eqn:Hread; [|discriminate].
  destruct (Unmarshal data) as [insts|e] eqn:Hjson; [|discriminate].
  destruct (length insts =? 0)%nat eqn:Hlen; [discriminate|].
  injection Hload as Hm.
  assert (Hne : insts <> []) by (intros ->; discriminate).
  assert (Hlook : forall t, m !! t = option_map Main.to_Instrument (last_with t insts)).
  { intros t. rewrite <- Hm, fold_insert_lookup.
    destruct (last_with t insts); [reflexivity|apply lookup_empty]. }
  exists data, insts. split; [reflexivity|]. split; [exact Hjson|].
  split; [exact Hne|].
  split; [exact Hlook|]. split; [|split].
  - intros t i. rewrite Hlook. destruct (last_with t insts) as [j|] eqn:Hj; [|discriminate].
    intros [= <-]. simpl. eapply last_with_ticker, Hj.
  - intros Hempty.
    destruct (last insts) as [il|] eqn:Hlast.
    2:{ apply last_None in Hlast. contradiction. }
    apply last_Some in Hlast as [pre Hpre].
    pose proof (Hlook (Main.Ticker il)) as Hl. rewrite Hempty, lookup_empty in Hl.
    unfold last_with in Hl. rewrite Hpre, rev_app_distr in Hl. simpl in Hl.
    rewrite String.eqb_refl in Hl. discriminate.
  - rewrite <- Hm. pose proof (fold_insert_size insts ∅) as Hs.
    rewrite map_size_empty in Hs. exact Hs.
Qed.

Lemma loadInstruments_keeps_the_last_of_each_ticker_witness :
  exists data insts,
    (fun _ : string => inl "{}" : string + error) "data/instruments.json" = inl data
    /\ (fun _ : string => inl eurusd_twice : list Main.instrument + error) data = inl insts
    /\ insts <> []
    /\ (forall t, (<["EURUSD" := Services.mkInstrument "EURUSD" 22 "FxSpot" 5]> ∅ : gmap string Services.Instrument) !! t
                  = option_map Main.to_Instrument (last_with t insts))
    /\ (forall t i, (<["EURUSD" := Services.mkInstrument "EURUSD" 22 "FxSpot" 5]> ∅ : gmap string Services.Instrument) !! t
                    = Some i -> Services.Ticker i = t)
    /\ (<["EURUSD" := Services.mkInstrument "EURUSD" 22 "FxSpot" 5]> ∅ : gmap string Services.Instrument) <> ∅
    /\ (size (<["EURUSD" := Services.mkInstrument "EURUSD" 22 "FxSpot" 5]> ∅ : gmap string Services.Instrument)
        <= length insts)%nat.
Proof.
  apply (loadInstruments_keeps_the_last_of_each_ticker
           (fun _ => inl "{}") (fun _ => inl eurusd_twice) "data/instruments.json"
           (<["EURUSD" := Services.mkInstrument "EURUSD" 22 "FxSpot" 5]> ∅)).
  vm_compute. reflexivity.
Defined.

(** X22. An update whose bid equals its ask, for a configured instrument,
    is mapped to an observation with the spread +0 and the decimals of the
    instrument, and Record writes that spread as a zero with that many
    zero decimals. *)
Theorem locked_update_has_zero_spread `{Strconv} (instruments : gmap string Services.Instrument)
    (update : Saxo.PriceUpdate) (instrument : Services.Instrument) :
  instruments !! Saxo.Ticker update = Some instrument ->
  Saxo.Ask update = Saxo.Bid update -> is_number (Saxo.Bid update) ->
  0 <= Services.Decimals instrument <= 15 ->
  exists d,
    mapPriceUpdate instruments update = inl d
    /\ Spread d = S754_zero false
    /\ Decimals d = Services.Decimals instrument
    /\ nth 6 (record_of d) ""
       = "0" +:+ (if 0 <? Services.Decimals instrument
                  then "." +:+ fixed_digits (Z.to_nat (Services.Decimals instrument)) 0
                  else "").
Proof.
  intros Hi Heq Hnum Hdec. unfold mapPriceUpdate. rewrite Hi. eexists. split; [reflexivity|].
  assert (Hsp : sub (Saxo.Ask update) (Saxo.Bid update) = S754_zero false).
  { rewrite Heq. destruct (Saxo.Bid update) as [s| | |s m e]; try destruct Hnum.
    - destruct s; reflexivity.
    - unfold sub, SFsub. rewrite Z.sub_diag. reflexivity. }
  split; [exact Hsp|]. split; [reflexivity|].
  unfold record_of, CalculateSpread. cbn [nth Spread Decimals Ask Bid]. rewrite Hsp.
  assert (Hcases : In (Services.Decimals instrument)
                      [0; 1; 2; 3; 4; 5; 6; 7; 8; 9; 10; 11; 12; 13; 14; 15]).
  { destruct (Services.Decimals instrument) as [|p|p]; [left; reflexivity| |lia].
    do 15 (destruct p as [p|p|]; try lia; simpl; auto 20). }
  simpl in Hcases.
  repeat (destruct Hcases as [<-|Hcases]; [vm_compute; reflexivity|]). destruct Hcases.
Qed.

Lemma locked_update_has_zero_spread_witness :
  exists d,
    mapPriceUpdate fx_instruments locked_update = inl d
    /\ Spread d = S754_zero false
    /\ Decimals d = Services.Decimals (Services.mkInstrument "EURUSD" 21 "FxSpot" 4)
    /\ nth 6 (record_of (H := no_shortest) d) ""
       = "0" +:+ (if 0 <? Services.Decimals (Services.mkInstrument "EURUSD" 21 "FxSpot" 4)
                  then "." +:+ fixed_digits
                                 (Z.to_nat (Services.Decimals (Services.mkInstrument "EURUSD" 21 "FxSpot" 4))) 0
                  else "").
Proof.
  apply (locked_update_has_zero_spread (H := no_shortest) fx_instruments locked_update
           (Services.mkInstrument "EURUSD" 21 "FxSpot" 4)).
  - vm_compute. reflexivity.
  - reflexivity.
  - vm_compute. exact I.
  - vm_compute. split; discriminate.
Defined.


